(** * Data Collector PWA: record store, attachment codec, quota monitor, formatter

    A shallow embedding of the application logic of [app.js] and of its
    IndexedDB storage layer, and the properties of the design document that
    were checked against it.

    Conventions of the embedding.
    - A JavaScript string is a [string] of UTF-8 bytes.
    - [Date.now()] values, entry ids and file sizes are integers ([Z]).
    - An entry's [timestamp] is the ISO string written by
      [new Date().toISOString()]; the store only ever reads it back through
      [new Date(...)], so the model keeps the epoch-millisecond value ([Z])
      that the string denotes.
    - A JavaScript number is a binary64 value.  The arithmetic of the quota
      monitor is the standard library's specification of that format
      ([SpecFloat], 53 bits of precision, exponents below 1024).  A number
      that is only printed (a coordinate, a size divided by a power of two)
      is kept as the rational ([Q]) it denotes.
    - An [async] function is a state transformer over the database that ends
      in a settled promise ([Resolved] or [Rejected]). *)

From Stdlib Require Import ZArith QArith Qround Qabs Qminmax Qpower Lqa.
From Stdlib Require Import String Ascii List DecimalString SpecFloat.
From stdpp Require Import gmap sorting strings list.

Local Close Scope Q_scope.
Local Open Scope Z_scope.

(** ** Data model *)

(** [position.coords] as copied by [handleLocationSuccess]. *)
Record Location := {
  lat : Q;
  lng : Q;
  accuracy : Q
}.

(** The [photoData] object built by [convertPhotoToBase64]. *)
Record Photo := {
  p_data : string;
  p_name : string;
  p_type : string;
  p_size : Z;
  p_timestamp : Z
}.

(** The object built by [createEntryObject]; [location] is [null] until a
    position was captured. *)
Record Entry := {
  id : Z;
  category : string;
  status : string;
  description : string;
  location : option Location;
  photos : list Photo;
  timestamp : Z
}.

(** ** IndexedDB *)

Definition DB_NAME : string := "DataFieldCollectorDB".
Definition DB_VERSION : Z := 1.
Definition STORE_NAME : string := "entries".

(** A [DOMException], identified by its name. *)
Definition DOMException : Type := string.

Inductive Promise (A : Type) : Type :=
  | Resolved (v : A)
  | Rejected (err : DOMException).
Arguments Resolved {A} v.
Arguments Rejected {A} err.

(** The database [DB_NAME] of the origin: its version (0 before the first
    open) and its object stores.  The store of the application uses the
    in-line key path ['id'], so a record is filed under its own [id].  The
    ['timestamp'] index that [initDB] creates is never read by the
    application and is left out. *)
Record IDBDatabase := {
  version : Z;
  objectStores : gmap string (gmap Z Entry)
}.

(** What the storage medium answers: an error raised on [indexedDB.open], and
    an error raised on the request inside the transaction.  [None] is
    success. *)
Record Medium := {
  open_error : option DOMException;
  request_error : option DOMException
}.

Definition healthy : Medium := {| open_error := None; request_error := None |}.

Definition Async (A : Type) : Type := IDBDatabase → Promise A * IDBDatabase.

Definition resolve {A} (v : A) : Async A := λ db, (Resolved v, db).

(** [await]: a rejection of the awaited promise rejects the whole function. *)
Definition await {A B} (m : Async A) (k : A → Async B) : Async B :=
  λ db, match m db with
        | (Resolved v, db') => k v db'
        | (Rejected err, db') => (Rejected err, db')
        end.

#[global] Instance Async_ret : MRet Async := @resolve.
#[global] Instance Async_bind : MBind Async := λ A B k m, await m k.

(** [onupgradeneeded]: create the object store unless it is there. *)
Definition upgrade (stores : gmap string (gmap Z Entry)) : gmap string (gmap Z Entry) :=
  match stores !! STORE_NAME with
  | Some _ => stores
  | None => <[STORE_NAME := ∅]> stores
  end.

Definition initDB (env : Medium) : Async unit :=
  λ db,
    match open_error env with
    | Some err => (Rejected err, db)
    | None =>
        if decide (DB_VERSION < version db) then (Rejected "VersionError", db)
        else if decide (version db < DB_VERSION) then
          (Resolved (), {| version := DB_VERSION; objectStores := upgrade (objectStores db) |})
        else (Resolved (), db)
    end.

(** [db.transaction([STORE_NAME], mode).objectStore(STORE_NAME)]: throws
    inside the promise executor when the store does not exist, which rejects
    the promise. *)
Definition objectStore : Async (gmap Z Entry) :=
  λ db,
    match objectStores db !! STORE_NAME with
    | Some os => (Resolved os, db)
    | None => (Rejected "NotFoundError", db)
    end.

(** The request of the transaction: [onerror] rejects with [request.error]
    and the transaction leaves the store as it was. *)
Definition request (env : Medium) : Async unit :=
  λ db,
    match request_error env with
    | Some err => (Rejected err, db)
    | None => (Resolved (), db)
    end.

Definition commit (os : gmap Z Entry) : Async unit :=
  λ db, (Resolved (), {| version := version db;
                         objectStores := <[STORE_NAME := os]> (objectStores db) |}).

(** [store.put(entry)]: add or overwrite the record under the key read from
    the key path; the request's result is that key. *)
Definition saveToIndexedDB (env : Medium) (entry : Entry) : Async Z :=
  initDB env;;
  os ← objectStore;
  request env;;
  commit (<[id entry := entry]> os);;
  resolve (id entry).

(** Records come out of [store.getAll()] in ascending key order. *)
Definition key_le (a b : Z * Entry) : Prop := a.1 ≤ b.1.

#[global] Instance key_le_dec : RelDecision key_le.
Proof. intros a b. unfold key_le. apply _. Defined.

Definition store_getAll (os : gmap Z Entry) : list Entry :=
  (merge_sort key_le (map_to_list os)).*2.

(** [Array.prototype.sort(compareFn)]: a stable sort; [x] goes before [y]
    when [compareFn(x, y) < 0] and elements that compare equal keep their
    order.  The array is built from its last element backwards, each element
    entering in front of the first one it does not have to follow. *)
Fixpoint sort_insert {A} (compareFn : A → A → Z) (x : A) (l : list A) : list A :=
  match l with
  | [] => [x]
  | y :: l' =>
      if decide (compareFn x y ≤ 0) then x :: y :: l'
      else y :: sort_insert compareFn x l'
  end.

Definition Array_sort {A} (compareFn : A → A → Z) (l : list A) : list A :=
  foldr (sort_insert compareFn) [] l.

(** [(a, b) => new Date(b.timestamp) - new Date(a.timestamp)] *)
Definition by_recency (a b : Entry) : Z := timestamp b - timestamp a.

Definition getAllFromIndexedDB (env : Medium) : Async (list Entry) :=
  initDB env;;
  os ← objectStore;
  request env;;
  resolve (Array_sort by_recency (store_getAll os)).

(** [store.delete(id)]: removes the record under the key if there is one; the
    request succeeds either way and the promise resolves with no value. *)
Definition deleteFromIndexedDB (env : Medium) (key : Z) : Async unit :=
  initDB env;;
  os ← objectStore;
  request env;;
  commit (delete key os);;
  resolve ().

(** The records of the application's store; none while the store does not
    exist. *)
Definition entries_of (db : IDBDatabase) : gmap Z Entry :=
  default ∅ (objectStores db !! STORE_NAME).

(** A database the application can open: never upgraded past [DB_VERSION],
    and holding the object store once it is at [DB_VERSION]. *)
Definition store_open (db : IDBDatabase) : Prop :=
  version db ≤ DB_VERSION ∧
  (version db = DB_VERSION → is_Some (objectStores db !! STORE_NAME)).

(** The in-line key path: every record is filed under its own [id]. *)
Definition inline_keys (os : gmap Z Entry) : Prop :=
  map_Forall (λ k e, id e = k) os.

Definition fresh_db : IDBDatabase := {| version := 0; objectStores := ∅ |}.

(** ** Console and dialogs *)

(** What a function writes through [logger] and [alert], in order.  The
    [logger] prefix and icon are the same on every line and are left out. *)
Inductive Event :=
  | Debug (message : string)
  | Warn (message : string)
  | Alert (message : string).

(** ** Numbers as text *)

(** An integer in a template literal. *)
Definition Z_toString (z : Z) : string := NilZero.string_of_int (Z.to_int z).

Fixpoint zeros (n : nat) : string :=
  match n with
  | O => ""
  | S n' => String "0" (zeros n')
  end.

(** The integer [n] that [Number.prototype.toFixed] picks for [|x|]: the one
    for which [n / 10^f] is nearest, the larger on a tie. *)
Definition toFixed_digits (fractionDigits : nat) (x : Q) : Z :=
  Qfloor (Qabs x * inject_Z (10 ^ Z.of_nat fractionDigits) + (1 # 2)).

(** [x.toFixed(fractionDigits)], for [|x| < 1e21]: the sign, then the digits
    of [n] padded to [fractionDigits + 1] places with the point before the
    last [fractionDigits]. *)
Definition toFixed (fractionDigits : nat) (x : Q) : string :=
  let s := if Qlt_le_dec x 0 then "-" else "" in
  let m := Z_toString (toFixed_digits fractionDigits x) in
  s +:+ match fractionDigits with
        | O => m
        | _ =>
            let m := zeros (fractionDigits + 1 - String.length m) +:+ m in
            let k := String.length m in
            substring 0 (k - fractionDigits) m +:+ "." +:+
            substring (k - fractionDigits) fractionDigits m
        end.

Definition formatBytes (bytes : Z) : string :=
  if decide (bytes = 0) then "0 KB"
  else toFixed 1 (bytes # 1024) +:+ " KB".

(** What the script takes from the engine it runs in: the locale and time
    zone dependent rendering of a date given by its epoch milliseconds, and
    the text of a number in a template literal (the shortest decimal that
    reads back as the same binary64 value). *)
Class Runtime := {
  Date_toLocaleString : Z → string;
  Number_toString : Q → string
}.

(** ** Binary64 arithmetic *)

(** The number an integer denotes: the nearest binary64 value, the one with
    the even significand of two that are equally near. *)
Definition Number_of_Z (z : Z) : spec_float := binary_normalize 53 1024 z 0 false.

Declare Scope Number_scope.
Delimit Scope Number_scope with Number.
Infix "*" := (SFmul 53 1024) : Number_scope.
Infix "/" := (SFdiv 53 1024) : Number_scope.
Infix "-" := (SFsub 53 1024) : Number_scope.

(** The rational a finite number is (0 for [NaN] and the infinities). *)
Definition Number_value (x : spec_float) : Q :=
  match x with
  | S754_finite s m e => (if s then -1 else 1) * inject_Z (Z.pos m) * 2 ^ e
  | _ => 0
  end%Q.

(** [x.toFixed(fractionDigits)] of a number: [NaN] and the infinities by
    name, a number from 1e21 on as in a template literal, any other number
    through the rational it is. *)
Definition Number_prototype_toFixed `{Runtime} (fractionDigits : nat) (x : spec_float)
    : string :=
  match x with
  | S754_nan => "NaN"
  | S754_infinity s => if s then "-Infinity" else "Infinity"
  | _ =>
      if Qle_bool (10 ^ 21) (Qabs (Number_value x))
      then Number_toString (Number_value x)
      else toFixed fractionDigits (Number_value x)
  end.

(** [Number(x.toFixed(fractionDigits))].  The text that [toFixed] writes
    names [NaN], an infinity or (from 1e21 on) the number itself, and
    otherwise is the decimal [n / 10^fractionDigits] with the sign of [x];
    [Number] reads a decimal as the nearest binary64 value, which is what
    the division of the integer [n] by the integer [10^fractionDigits]
    rounds to.  [(-0).toFixed] has no sign. *)
Definition Number_of_toFixed (fractionDigits : nat) (x : spec_float) : spec_float :=
  match x with
  | S754_finite s _ _ =>
      if Qle_bool (10 ^ 21) (Qabs (Number_value x)) then x
      else
        match toFixed_digits fractionDigits (Number_value x) with
        | Z.pos n =>
            (S754_finite s n 0 /
             S754_finite false (Z.to_pos (10 ^ Z.of_nat fractionDigits)) 0)%Number
        | _ => S754_zero s
        end
  | S754_zero _ => S754_zero false
  | _ => x
  end.

(** [Math.min(x, y)]: [NaN] when one of the two is, and [-0] below [+0]. *)
Definition Math_min (x y : spec_float) : spec_float :=
  match SFcompare x y with
  | None => S754_nan
  | Some Lt => x
  | Some Gt => y
  | Some Eq =>
      match x, y with
      | S754_zero false, S754_zero true => y
      | _, _ => x
      end
  end.

(** [Math.round(x)]: the integer nearest to [x], the larger of two that are
    equally near; a zero keeps the sign of [x]. *)
Definition Math_round (x : spec_float) : spec_float :=
  match x with
  | S754_finite s _ _ =>
      match Qfloor (Number_value x + (1 # 2)) with
      | Z0 => S754_zero s
      | n => Number_of_Z n
      end
  | _ => x
  end.

(** A number in a template literal. *)
Definition Number_text `{Runtime} (x : spec_float) : string :=
  match x with
  | S754_nan => "NaN"
  | S754_infinity s => if s then "-Infinity" else "Infinity"
  | S754_zero _ => "0"
  | S754_finite _ _ _ => Number_toString (Number_value x)
  end.

(** A number with the given sign bit (which [NaN] has not). *)
Definition signed (sign : bool) (x : spec_float) : Prop :=
  match x with
  | S754_zero s | S754_infinity s | S754_finite s _ _ => s = sign
  | S754_nan => False
  end.

(** A positive number in the normal range, with its exponent between two
    bounds: the mantissa has its 53 bits. *)
Definition normal (lo hi : Z) (x : spec_float) : Prop :=
  match x with
  | S754_finite false q k => 2 ^ 52 ≤ Z.pos q < 2 ^ 53 ∧ lo ≤ k ≤ hi
  | _ => False
  end.

(** The number that [n] tenths are, as [Number] reads it. *)
Definition tenths (n : Z) : spec_float :=
  match n with
  | Z.pos k => (S754_finite false k 0 / S754_finite false 10 0)%Number
  | _ => S754_zero false
  end.

(** ** Attachment codec *)

Module CONFIG.
Definition GPS_TIMEOUT : Z := 3000.
Definition MAX_PHOTO_SIZE : Z := 10 * 1024 * 1024.
Definition SUPPORTED_IMAGE_TYPES : list string :=
  ["image/jpeg"; "image/png"; "image/webp"]%string.
End CONFIG.

(** A [File] handed over by the photo input: the three properties the script
    reads, and the bytes that [FileReader] reads.  [f_size] is what the
    object answers for [file.size]; a file made by the browser answers the
    number of its bytes. *)
Record File := {
  f_name : string;
  f_type : string;
  f_size : Z;
  f_content : string
}.


Definition unsupported_type_warning (file : File) : Event :=
  Warn ("Unsupported file type: " +:+ f_type file +:+ " for " +:+ f_name file).

Definition too_large_warning (file : File) : Event :=
  Warn ("File too large: " +:+ f_name file +:+ " (" +:+ formatBytes (f_size file) +:+ ")").

(** The callback of [files.filter] in [validatePhotoFiles]: its verdict and
    the warning it logs. *)
Definition photo_filter (file : File) : bool * list Event :=
  if negb (bool_decide (f_type file ∈ CONFIG.SUPPORTED_IMAGE_TYPES)) then
    (false, [unsupported_type_warning file])
  else if bool_decide (CONFIG.MAX_PHOTO_SIZE < f_size file) then
    (false, [too_large_warning file])
  else (true, []).

Definition validatePhotoFiles (files : list File) : list File * list Event :=
  let validFiles := List.filter (λ file, (photo_filter file).1) files in
  let skipped := (length files - length validFiles)%nat in
  (validFiles,
   [Debug "Validating photo files..."] ++
   concat ((λ file, (photo_filter file).2) <$> files) ++
   (if decide (length validFiles < length files)%nat
    then [Alert (Z_toString (Z.of_nat skipped) +:+
                 " file(s) skipped (unsupported type or too large)")]
    else []) ++
   [Debug ("Validated " +:+ Z_toString (Z.of_nat (length validFiles)) +:+ "/" +:+
           Z_toString (Z.of_nat (length files)) +:+ " files")]).

Definition base64_alphabet : string :=
  "ABCDEFGHIJKLMNOPQRSTUVWXYZabcdefghijklmnopqrstuvwxyz0123456789+/".

Definition sextet (n : N) : ascii :=
  default "="%char (String.get (N.to_nat n) base64_alphabet).

Fixpoint base64 (bytes : string) : string :=
  match bytes with
  | EmptyString => ""
  | String a EmptyString =>
      let a := N_of_ascii a in
      String (sextet (a / 4)) (String (sextet (a mod 4 * 16)) "==")
  | String a (String b EmptyString) =>
      let a := N_of_ascii a in
      let b := N_of_ascii b in
      String (sextet (a / 4)) (String (sextet (a mod 4 * 16 + b / 16))
        (String (sextet (b mod 16 * 4)) "="))
  | String a (String b (String c rest)) =>
      let a := N_of_ascii a in
      let b := N_of_ascii b in
      let c := N_of_ascii c in
      String (sextet (a / 4)) (String (sextet (a mod 4 * 16 + b / 16))
        (String (sextet (b mod 16 * 4 + c / 64)) (String (sextet (c mod 64))
          (base64 rest))))
  end%N.

(** [reader.readAsDataURL(file)] on a file with a media type (the function
    is only called on files that passed [validatePhotoFiles]). *)
Definition readAsDataURL (file : File) : string :=
  "data:" +:+ f_type file +:+ ";base64," +:+ base64 (f_content file).

(** [convertPhotoToBase64]: [now] is [Date.now()] when the read completes,
    [readable] tells whether the reader fires [onload] or [onerror].  The
    lines it logs are left out. *)
Definition convertPhotoToBase64 (now : Z) (readable : bool) (file : File) : Promise Photo :=
  if readable then
    Resolved {| p_data := readAsDataURL file;
                p_name := f_name file;
                p_type := f_type file;
                p_size := f_size file;
                p_timestamp := now |}
  else Rejected ("Failed to read file: " +:+ f_name file).

(** ** Quota monitor *)

Record StorageEstimate := {
  usage : Z;
  quota : Z
}.

(** [navigator.storage]: each method is there or not; when it is there, the
    promise its call settles to. *)
Record StorageManager := {
  estimate : option (Promise StorageEstimate);
  persist : option (Promise bool)
}.

(** [navigator]: the [storage] property is there or not. *)
Record Navigator := {
  storage : option StorageManager
}.

(** The function resolves with [null] ([None]) when the capability is
    missing, and otherwise settles as [navigator.storage.estimate()] does. *)
Definition getStorageEstimate (navigator : Navigator) : Promise (option StorageEstimate) :=
  match storage navigator with
  | Some manager =>
      match estimate manager with
      | Some (Resolved est) => Resolved (Some est)
      | Some (Rejected err) => Rejected err
      | None => Resolved None
      end
  | None => Resolved None
  end.

(** The elements [updateStorageInfo] writes to. *)
Record StorageUI := {
  storageText_textContent : string;
  storageProgress_width : string;
  storageInfo_backgroundColor : string;
  storageProgress_backgroundColor : string
}.

(** [Number(((estimate.usage / estimate.quota) * 100).toFixed(1))] *)
Definition percentage (est : StorageEstimate) : spec_float :=
  Number_of_toFixed 1
    (Number_of_Z (usage est) / Number_of_Z (quota est) * Number_of_Z 100)%Number.

(** [Math.min(percentage, 100)], the width of the progress bar. *)
Definition progress_width (est : StorageEstimate) : spec_float :=
  Math_min (percentage est) (Number_of_Z 100).

(** [Math.round(255 * percentage / 100)] *)
Definition red (est : StorageEstimate) : spec_float :=
  Math_round (Number_of_Z 255 * percentage est / Number_of_Z 100)%Number.

(** [Math.round(255 * (100 - percentage) / 100)] *)
Definition green (est : StorageEstimate) : spec_float :=
  Math_round
    (Number_of_Z 255 * (Number_of_Z 100 - percentage est) / Number_of_Z 100)%Number.

Definition rgba `{Runtime} (r g : spec_float) (alpha : string) : string :=
  "rgba(" +:+ Number_text r +:+ ", " +:+ Number_text g +:+ ", 0, " +:+ alpha +:+ ")".

(** Whether, at a percentage of [n] tenths, the percentage is at most 100 and
    the two colour components are between 0 and 255. *)
Definition in_range_at (n : Z) : bool :=
  let p := tenths n in
  let r := Math_round (Number_of_Z 255 * p / Number_of_Z 100)%Number in
  let g := Math_round
             (Number_of_Z 255 * (Number_of_Z 100 - p) / Number_of_Z 100)%Number in
  SFleb p (Number_of_Z 100) &&
  SFleb (Number_of_Z 0) r && SFleb r (Number_of_Z 255) &&
  SFleb (Number_of_Z 0) g && SFleb g (Number_of_Z 255).

(** [1024 * 1024] *)
Definition MiB : spec_float := (Number_of_Z 1024 * Number_of_Z 1024)%Number.

(** [updateStorageInfo]: without an estimate ([null], or a rejection caught
    by the [try]) the elements are left as they are.  The lines it logs are
    left out. *)
Definition updateStorageInfo `{Runtime} (navigator : Navigator) (ui : StorageUI) : StorageUI :=
  match getStorageEstimate navigator with
  | Resolved (Some est) =>
      let used := Number_prototype_toFixed 2 (Number_of_Z (usage est) / MiB)%Number in
      let quota := Number_prototype_toFixed 2 (Number_of_Z (quota est) / MiB)%Number in
      {| storageText_textContent :=
           "Using " +:+ used +:+ " MB of " +:+ quota +:+ " MB (" +:+
           Number_text (percentage est) +:+ "%)";
         storageProgress_width := Number_text (progress_width est) +:+ "%";
         storageInfo_backgroundColor := rgba (red est) (green est) "0.3";
         storageProgress_backgroundColor := rgba (red est) (green est) "0.6" |}
  | Resolved None => ui
  | Rejected _ => ui
  end.

(** ** Export formatter *)

Definition LF : string := String "010" EmptyString.

Definition is_space (c : ascii) : bool :=
  bool_decide (c ∈ ["009"; "010"; "011"; "012"; "013"; " "]%char).

(** [String.prototype.trim], on the white space below U+0080.  The one text
    it is applied to starts and ends with fixed characters of the template,
    so no other white space can reach either end. *)
Fixpoint trimStart (s : string) : string :=
  match s with
  | EmptyString => ""
  | String c rest => if is_space c then trimStart rest else s
  end.

Fixpoint trimEnd (s : string) : string :=
  match s with
  | EmptyString => ""
  | String c rest =>
      match trimEnd rest with
      | EmptyString => if is_space c then "" else String c ""
      | kept => String c kept
      end
  end.

Definition trim (s : string) : string := trimEnd (trimStart s).

Definition locationText `{Runtime} (entry : Entry) : string :=
  match location entry with
  | Some loc =>
      "📍 Location: " +:+ toFixed 6 (lat loc) +:+ ", " +:+ toFixed 6 (lng loc) +:+ LF +:+
      "🎯 Accuracy: " +:+ toFixed 0 (accuracy loc) +:+ "m" +:+ LF +:+
      "🗺️ Google Maps: https://maps.google.com/?q=" +:+
      Number_toString (lat loc) +:+ "," +:+ Number_toString (lng loc)
  | None => "📍 Location: Not captured"
  end.

(** [photos.reduce((sum, p) => sum + p.size, 0)] *)
Definition totalSize (photos : list Photo) : Z :=
  foldl (λ sum p, sum + p_size p) 0 photos.

Definition photoInfo (entry : Entry) : string :=
  match photos entry with
  | [] => "📸 Photos: None"
  | _ =>
      "📸 Photos: " +:+ Z_toString (Z.of_nat (length (photos entry))) +:+
      " attached (" +:+ formatBytes (totalSize (photos entry)) +:+ " total)"
  end.

(** [entry.description || 'No description provided'] *)
Definition description_or_default (entry : Entry) : string :=
  match description entry with
  | EmptyString => "No description provided"
  | text => text
  end.

Definition createShareText `{Runtime} (entry : Entry) : string :=
  trim ("
━━━━━━━━━━━━━━━━━━━━
📋 DATA ENTRY REPORT
━━━━━━━━━━━━━━━━━━━━

📂 Category: " +:+ category entry +:+ "
✅ Status: " +:+ status entry +:+ "

📝 Description:
" +:+ description_or_default entry +:+ "

" +:+ locationText entry +:+ "

" +:+ photoInfo entry +:+ "

⏰ Timestamp: " +:+ Date_toLocaleString (timestamp entry) +:+ "

━━━━━━━━━━━━━━━━━━━━
Generated by Data Collector App
    ").

(** ** Entry cards *)

(** [div.textContent = text; return div.innerHTML]: the text node is
    serialised with [&], U+00A0, [<] and [>] replaced by character
    references (the HTML fragment serialisation algorithm). *)
Fixpoint escapeHtml (text : string) : string :=
  match text with
  | EmptyString => ""
  | String "&" rest => "&amp;" +:+ escapeHtml rest
  | String "<" rest => "&lt;" +:+ escapeHtml rest
  | String ">" rest => "&gt;" +:+ escapeHtml rest
  | String "194" (String "160" rest) => "&nbsp;" +:+ escapeHtml rest
  | String c rest => String c (escapeHtml rest)
  end.

(** The templates of the card builders are written with an apostrophe where
    the script has a quotation mark; [markup] puts the quotation marks
    back. *)
Fixpoint markup (template : string) : string :=
  match template with
  | EmptyString => ""
  | String "'" rest => String "034" (markup rest)
  | String c rest => String c (markup rest)
  end.

Definition createEntryHeader (entry : Entry) : string :=
  markup "
        <div class='entry-header'>
            <div class='entry-badges'>
                <span class='badge badge-blue'>" +:+ escapeHtml (category entry) +:+ markup "</span>
                <span class='badge badge-green'>" +:+ escapeHtml (status entry) +:+ markup "</span>
            </div>
            <div class='entry-actions'>
                <button class='btn btn-share' onclick='shareEntry(" +:+ Z_toString (id entry) +:+ markup ")' title='Share entry' aria-label='Share entry'>
                    <span class='icon'>🔗</span>
                </button>
                <button class='btn btn-delete' onclick='deleteEntry(" +:+ Z_toString (id entry) +:+ markup ")' title='Delete entry' aria-label='Delete entry'>
                    <span class='icon'>🗑️</span>
                </button>
            </div>
        </div>
    ".

Definition createEntryDescription (description : string) : string :=
  markup "
        <div class='entry-description'>" +:+ escapeHtml description +:+ markup "</div>
    ".

Definition createEntryLocation (location : Location) : string :=
  markup "
        <div class='entry-location'>
            <div class='location-icon'>📍</div>
            <div>
                <div class='location-title'>Location Captured</div>
                <div class='location-coords'>" +:+ toFixed 6 (lat location) +:+ ", " +:+ toFixed 6 (lng location) +:+ markup "</div>
                <div class='location-accuracy'>Accuracy: ±" +:+ toFixed 0 (accuracy location) +:+ markup "m</div>
            </div>
        </div>
    ".

Definition createEntryPhotos (photos : list Photo) : string :=
  markup "
        <div class='entry-photos'>
            <div class='photos-header'>
                <span class='icon'>📷</span>
                <span>" +:+ Z_toString (Z.of_nat (length photos)) +:+ " Photo" +:+
                  (if decide (1 < length photos)%nat then "s" else "") +:+ markup "</span>
                <span class='photos-size'>(" +:+ formatBytes (totalSize photos) +:+ markup ")</span>
            </div>
            <div class='photos-grid'>
    " +:+
  String.concat "" (imap (λ i photo, markup "
            <div class='photo-item'>
                <img src='" +:+ p_data photo +:+ markup "' alt='Photo " +:+ Z_toString (Z.of_nat i + 1) +:+ markup "'>
                <div class='photo-size'>" +:+ formatBytes (p_size photo) +:+ markup "</div>
            </div>
        ") photos) +:+
  markup "
            </div>
        </div>
    ".

Definition createEntryFooter `{Runtime} (entry : Entry) : string :=
  markup "
        <div class='entry-footer'>
            <span class='entry-id'>ID: " +:+ Z_toString (id entry) +:+ markup "</span>
            <span class='entry-timestamp'>" +:+ Date_toLocaleString (timestamp entry) +:+ markup "</span>
        </div>
    ".

(** The markup [createEntryCard] assigns to [card.innerHTML]. *)
Definition createEntryCard `{Runtime} (entry : Entry) : string :=
  createEntryHeader entry +:+
  (match description entry with
   | EmptyString => ""
   | text => createEntryDescription text
   end) +:+
  (match location entry with
   | Some loc => createEntryLocation loc
   | None => ""
   end) +:+
  (match photos entry with
   | [] => ""
   | _ => createEntryPhotos (photos entry)
   end) +:+
  createEntryFooter entry.

(** ** Orders on listings *)

(** The order [getAllFromIndexedDB] produces: newer first, and among records
    of one timestamp the smaller key first. *)
Definition recency_then_key (a b : Entry) : Prop :=
  timestamp b < timestamp a ∨ (timestamp a = timestamp b ∧ id a < id b).

(** The order of the design document: newer first, ties by id descending. *)
Definition documented_order (a b : Entry) : Prop :=
  timestamp b < timestamp a ∨ (timestamp a = timestamp b ∧ id b < id a).

(** ** Markup characters *)

(** The number of [<] and [>] in a text. *)
Fixpoint angle_count (s : string) : nat :=
  match s with
  | EmptyString => 0
  | String c rest =>
      (if bool_decide (c ∈ ["<"; ">"]%char) then 1 else 0) + angle_count rest
  end%nat.

(** [s] without the prefix [p], when it starts with it. *)
Fixpoint strip_prefix (p s : string) : option string :=
  match p, s with
  | EmptyString, _ => Some s
  | String a p', String b s' => if decide (a = b) then strip_prefix p' s' else None
  | String _ _, EmptyString => None
  end.

(** The text a page shows for an escaped text: the four character references
    that [escapeHtml] writes stand for their characters.  The text is read
    from its end, so that what follows an ampersand is already read when the
    ampersand is; the names of the references hold no ampersand, so they are
    read as they stand. *)
Fixpoint decode_references (s : string) : string :=
  match s with
  | EmptyString => ""
  | String c rest =>
      let text := decode_references rest in
      if decide (c = "&"%char) then
        match strip_prefix "amp;" text, strip_prefix "lt;" text,
              strip_prefix "gt;" text, strip_prefix "nbsp;" text with
        | Some after, _, _, _ => String "&" after
        | None, Some after, _, _ => String "<" after
        | None, None, Some after, _ => String ">" after
        | None, None, None, Some after => String "194" (String "160" after)
        | None, None, None, None => String c text
        end
      else String c text
  end.

(** The capability test of [getStorageEstimate] fails: [navigator] has no
    [storage], or [navigator.storage] has no [estimate]. *)
Definition no_capacity_introspection (navigator : Navigator) : Prop :=
  match storage navigator with
  | None => True
  | Some manager => estimate manager = None
  end.

(** The fields of an entry that [createShareText] reads. *)
Definition same_report_fields (a b : Entry) : Prop :=
  category a = category b ∧ status a = status b ∧
  description a = description b ∧ location a = location b ∧
  length (photos a) = length (photos b) ∧
  totalSize (photos a) = totalSize (photos b) ∧
  timestamp a = timestamp b.

(** Two entries that differ at most in their free text, with a description
    on both or on neither. *)
Definition same_but_free_text (a b : Entry) : Prop :=
  id a = id b ∧ location a = location b ∧ photos a = photos b ∧
  timestamp a = timestamp b ∧
  (description a = EmptyString ↔ description b = EmptyString).

(** The databases the application can get to: from the first open on,
    through saves, deletions and listings, whatever the medium answers. *)
Inductive reachable : IDBDatabase → Prop :=
  | reachable_fresh : reachable fresh_db
  | reachable_save env entry db :
      reachable db → reachable (saveToIndexedDB env entry db).2
  | reachable_delete env key db :
      reachable db → reachable (deleteFromIndexedDB env key db).2
  | reachable_getAll env db :
      reachable db → reachable (getAllFromIndexedDB env db).2.

(** ** Sample data *)

Module Sample.
Definition entry (i : Z) (text : string) (time : Z) : Entry :=
  {| id := i; category := "Inspection"; status := "Open"; description := text;
     location := None; photos := []; timestamp := time |}.

Definition first : Entry := entry 1 "first" 5.
Definition second : Entry := entry 2 "second" 5.
Definition first_again : Entry := entry 1 "rewritten" 9.
Definition tagged : Entry := entry 3 "<b>wet</b> & cold" 5.
(** A database holding [first] and [second]. *)
Definition db : IDBDatabase :=
  {| version := DB_VERSION;
     objectStores := {[ STORE_NAME := <[2 := second]> {[ 1 := first ]} ]} |}.

(** An object whose [size] property was set apart from its bytes. *)
Definition mislabelled : File :=
  {| f_name := "p.png"; f_type := "image/png"; f_size := 5; f_content := "abc" |}.

(** An 11 MiB file of a type that is not allowed. *)
Definition large_gif : File :=
  {| f_name := "a.gif"; f_type := "image/gif"; f_size := 11 * 1024 * 1024;
     f_content := "" |}.

Definition large_png : File :=
  {| f_name := "b.png"; f_type := "image/png"; f_size := 11 * 1024 * 1024;
     f_content := "" |}.

(** Usage reported at twice the quota. *)
Definition over_quota : StorageEstimate :=
  {| usage := 200 * 1024 * 1024; quota := 100 * 1024 * 1024 |}.

Definition reporting (est : StorageEstimate) : Navigator :=
  {| storage := Some {| estimate := Some (Resolved est); persist := None |} |}.

Definition no_storage : Navigator := {| storage := None |}.

Definition blank_ui : StorageUI :=
  {| storageText_textContent := ""; storageProgress_width := "";
     storageInfo_backgroundColor := ""; storageProgress_backgroundColor := "" |}.

(** A stand-in engine for the examples: a date prints as its epoch
    milliseconds, an integral number as in JavaScript, and any other number
    with six decimals. *)
Definition engine : Runtime :=
  {| Date_toLocaleString := λ t, Z_toString t;
     Number_toString := λ x,
       if decide (Zpos (Qden (Qred x)) = 1) then Z_toString (Qnum (Qred x))
       else toFixed 6 x |}.
End Sample.

(** ** The page: form, cache and what the user sees *)

(** The global [formData]. *)
Record FormData := {
  form_category : string;
  form_status : string;
  form_description : string;
  form_location : option Location;
  form_photos : list Photo
}.

(** The object [formData] starts as and [resetForm] puts back. *)
Definition blank_form : FormData :=
  {| form_category := ""; form_status := ""; form_description := "";
     form_location := None; form_photos := [] |}.

(** The mutable state of the application: the form, the in-memory cache
    [entries], the database and the storage display. *)
Record App := {
  formData : FormData;
  entries : list Entry;
  database : IDBDatabase;
  storage_ui : StorageUI
}.

(** What a handler does that the user can see, in order: dialogs, writes to
    the elements of [ui] (named by their ids), the calls of
    [navigator.share] with how each settled, and the windows opened.  The
    lines written through [logger] are left out. *)
Inductive Effect :=
  | alert (message : string)
  | confirm (message : string)
  | set_property (element property value : string)
  | set_attribute (element name value : string)
  | append_child (element className innerHTML : string)
  | navigator_share (title text : string) (files : option (list File))
      (settled : Promise unit)
  | window_open (url target : string).

Definition showLoading (message : string) : list Effect :=
  [set_property "loading-indicator" "style.display" "block";
   set_attribute "loading-indicator" "aria-label" message].

Definition hideLoading : list Effect :=
  [set_property "loading-indicator" "style.display" "none"].

(** The alerts among the events of [validatePhotoFiles]. *)
Definition alerts_of (events : list Event) : list Effect :=
  omap (λ event, match event with
                 | Alert message => Some (alert message)
                 | _ => None
                 end) events.

(** ** Photos of the form *)

Definition createPhotoPreviewItem (photo : Photo) (index : nat) : string :=
  markup "
        <img src='" +:+ p_data photo +:+ markup "' alt='Photo " +:+ Z_toString (Z.of_nat index + 1) +:+ markup "'>
        <button class='preview-remove' onclick='removePhoto(" +:+ Z_toString (Z.of_nat index) +:+ markup ")' aria-label='Remove photo " +:+ Z_toString (Z.of_nat index + 1) +:+ markup "'>✕</button>
        <div class='preview-size-label'>" +:+ formatBytes (p_size photo) +:+ markup "</div>
    ".

Definition updatePhotoPreview (photos : list Photo) : list Effect :=
  let photoCount := Z_toString (Z.of_nat (length photos)) in
  set_property "photo-count" "textContent" photoCount ::
  match photos with
  | [] => [set_property "photo-preview" "style.display" "none"]
  | _ =>
      [set_property "photo-preview" "style.display" "block";
       set_property "preview-count" "textContent" photoCount;
       set_property "preview-size" "textContent" (formatBytes (totalSize photos));
       set_property "preview-grid" "innerHTML" ""] ++
      imap (λ index photo,
              append_child "preview-grid" "preview-item"
                (createPhotoPreviewItem photo index)) photos
  end.

(** [array.splice(index, 1)] for an integer [index]: a negative index counts
    from the end, an index past the end removes nothing. *)
Definition splice_one {A} (index : Z) (l : list A) : list A :=
  let len := Z.of_nat (length l) in
  let start := if decide (index < 0) then Z.max (len + index) 0 else Z.min index len in
  delete (Z.to_nat start) l.

(** [window.removePhoto] *)
Definition removePhoto (index : Z) (app : App) : App * list Effect :=
  let form := formData app in
  let photos := splice_one index (form_photos form) in
  ({| formData := {| form_category := form_category form;
                     form_status := form_status form;
                     form_description := form_description form;
                     form_location := form_location form;
                     form_photos := photos |};
      entries := entries app;
      database := database app;
      storage_ui := storage_ui app |},
   updatePhotoPreview photos).

(** [Promise.all]: the values in order, or the first rejection.  Rejections
    are taken in the order of the array. *)
Fixpoint Promise_all {A} (promises : list (Promise A)) : Promise (list A) :=
  match promises with
  | [] => Resolved []
  | Resolved v :: rest =>
      match Promise_all rest with
      | Resolved vs => Resolved (v :: vs)
      | Rejected err => Rejected err
      end
  | Rejected err :: _ => Rejected err
  end.

(** [handlePhotoCapture] for the files of the input.  [reading file] is how
    the reader of a file ends: [Some now] when it loads, at time [now], and
    [None] when it fails. *)
Definition handlePhotoCapture (reading : File → option Z) (files : list File)
    (app : App) : App * list Effect :=
  match files with
  | [] => (app, [])
  | _ =>
      let reset_input := [set_property "photo-input" "value" ""] in
      let validation := validatePhotoFiles files in
      let validFiles := validation.1 in
      let failed message :=
        (app, showLoading "Processing photos..." ++ alerts_of validation.2 ++
              hideLoading ++ [alert ("Error processing photos: " +:+ message)] ++
              reset_input) in
      match validFiles with
      | [] => failed "No valid image files selected"
      | _ =>
          let photoPromises :=
            (λ file, match reading file with
                     | Some now => convertPhotoToBase64 now true file
                     | None => convertPhotoToBase64 0 false file
                     end) <$> validFiles in
          match Promise_all photoPromises with
          | Resolved photos =>
              let form := formData app in
              let all := form_photos form ++ photos in
              ({| formData := {| form_category := form_category form;
                                 form_status := form_status form;
                                 form_description := form_description form;
                                 form_location := form_location form;
                                 form_photos := all |};
                  entries := entries app;
                  database := database app;
                  storage_ui := storage_ui app |},
               showLoading "Processing photos..." ++ alerts_of validation.2 ++
               updatePhotoPreview all ++ hideLoading ++ reset_input)
          | Rejected message => failed message
          end
      end
  end.

(** ** Saving, loading and deleting entries *)

(** [createEntryObject]: [now_id] is what [Date.now()] answers and
    [now_timestamp] what [new Date()] answers right after. *)
Definition createEntryObject (now_id now_timestamp : Z) (form : FormData) : Entry :=
  {| id := now_id;
     category := form_category form;
     status := form_status form;
     description := form_description form;
     location := form_location form;
     photos := form_photos form;
     timestamp := now_timestamp |}.

Definition resetForm : list Effect :=
  [set_property "category" "value" "";
   set_property "status" "value" "";
   set_property "description" "value" "";
   set_property "photo-count" "textContent" "0";
   set_property "photo-preview" "style.display" "none"].

(** [loadEntriesOnStartup]: the cache becomes the listing, or the empty
    array when the listing rejects. *)
Definition loadEntriesOnStartup (env : Medium) (app : App) : App * list Effect :=
  let r := getAllFromIndexedDB env (database app) in
  match r.1 with
  | Resolved listing =>
      ({| formData := formData app; entries := listing;
          database := r.2; storage_ui := storage_ui app |},
       [set_property "entry-count" "textContent"
          (Z_toString (Z.of_nat (length listing)))])
  | Rejected _ =>
      ({| formData := formData app; entries := [];
          database := r.2; storage_ui := storage_ui app |},
       [alert "Error loading data from database"])
  end.

(** [handleSaveEntry].  The medium may answer the save and the reload
    differently.  An exception is written as the text that names it. *)
Definition handleSaveEntry `{Runtime} (now_id now_timestamp : Z)
    (env_save env_load : Medium) (navigator : Navigator) (app : App)
    : App * list Effect :=
  let form := formData app in
  if bool_decide (form_category form = EmptyString ∨ form_status form = EmptyString)
  then (app, [alert "Please fill in category and status"])
  else
    let newEntry := createEntryObject now_id now_timestamp form in
    let saved := saveToIndexedDB env_save newEntry (database app) in
    match saved.1 with
    | Resolved _ =>
        let loaded :=
          loadEntriesOnStartup env_load
            {| formData := form; entries := entries app;
               database := saved.2; storage_ui := storage_ui app |} in
        ({| formData := blank_form;
            entries := entries loaded.1;
            database := database loaded.1;
            storage_ui := updateStorageInfo navigator (storage_ui app) |},
         showLoading "Saving entry..." ++ loaded.2 ++ resetForm ++ hideLoading ++
         [alert "Entry saved successfully!"])
    | Rejected message =>
        ({| formData := form; entries := entries app;
            database := saved.2; storage_ui := storage_ui app |},
         showLoading "Saving entry..." ++ hideLoading ++
         [alert ("Error saving entry: " +:+ message)])
    end.

Definition showEmptyState : list Effect :=
  [set_property "entries-list" "innerHTML" "";
   set_property "empty-state" "style.display" "block"].

Definition renderEntriesList `{Runtime} (cache : list Entry) : list Effect :=
  set_property "total-entries" "textContent" (Z_toString (Z.of_nat (length cache))) ::
  match cache with
  | [] => showEmptyState
  | _ =>
      [set_property "empty-state" "style.display" "none";
       set_property "entries-list" "innerHTML" ""] ++
      ((λ entry, append_child "entries-list" "entry-card" (createEntryCard entry))
         <$> cache)
  end.

(** [window.deleteEntry]: [confirmed] is the user's answer to the dialog. *)
Definition deleteEntry `{Runtime} (confirmed : bool)
    (env_delete env_load : Medium) (navigator : Navigator) (key : Z) (app : App)
    : App * list Effect :=
  let asked := [confirm "Delete this entry? This cannot be undone."] in
  if negb confirmed then (app, asked)
  else
    let deleted := deleteFromIndexedDB env_delete key (database app) in
    match deleted.1 with
    | Resolved _ =>
        let loaded :=
          loadEntriesOnStartup env_load
            {| formData := formData app; entries := entries app;
               database := deleted.2; storage_ui := storage_ui app |} in
        ({| formData := formData app;
            entries := entries loaded.1;
            database := database loaded.1;
            storage_ui := updateStorageInfo navigator (storage_ui app) |},
         asked ++ showLoading "Deleting entry..." ++ loaded.2 ++
         renderEntriesList (entries loaded.1) ++ hideLoading)
    | Rejected message =>
        ({| formData := formData app; entries := entries app;
            database := deleted.2; storage_ui := storage_ui app |},
         asked ++ showLoading "Deleting entry..." ++ hideLoading ++
         [alert ("Error deleting entry: " +:+ message)])
    end.

(** ** Sharing *)

(** What the script finds for sharing: [navigator.share] and
    [navigator.canShare] when they are there, with what a call answers, and
    the bytes [fetch] reads from a URL. *)
Record ShareHost := {
  host_share : option (string → string → option (list File) → Promise unit);
  host_canShare : option (list File → bool);
  host_fetch : string → Promise string
}.

(** [convertPhotosToFiles]: each photo read back from its data URL into a
    file of the photo's name and type, with stock ones where they are
    empty. *)
Definition convertPhotosToFiles (host : ShareHost) (photos : list Photo)
    : Promise (list File) :=
  Promise_all
    (imap (λ index photo,
             match host_fetch host (p_data photo) with
             | Resolved bytes =>
                 Resolved
                   {| f_name := match p_name photo with
                                | EmptyString =>
                                    "photo-" +:+ Z_toString (Z.of_nat index + 1) +:+ ".jpg"
                                | name => name
                                end;
                      f_type := match p_type photo with
                                | EmptyString => "image/jpeg"
                                | type => type
                                end;
                      f_size := Z.of_nat (String.length bytes);
                      f_content := bytes |}
             | Rejected err => Rejected err
             end) photos).

(** A try of the Web Share API: whether it settles the request (so that no
    other way is tried) and what it did. *)
Definition tryShareWithPhotos (host : ShareHost) (entry : Entry) (text : string)
    : bool * list Effect :=
  match host_share host with
  | None => (false, [])
  | Some share =>
      match convertPhotosToFiles host (photos entry) with
      | Resolved files =>
          match host_canShare host with
          | Some canShare =>
              if canShare files then
                let title := "Data Entry - " +:+ category entry in
                let settled := share title text (Some files) in
                (match settled with
                 | Resolved _ => true
                 | Rejected name => bool_decide (name = "AbortError")
                 end,
                 [navigator_share title text (Some files) settled])
              else (false, [])
          | None => (false, [])
          end
      | Rejected name => (bool_decide (name = "AbortError"), [])
      end
  end.

Definition tryShareTextOnly (host : ShareHost) (entry : Entry) (text : string)
    : bool * list Effect :=
  match host_share host with
  | None => (false, [])
  | Some share =>
      let title := "Data Entry - " +:+ category entry in
      let settled := share title text None in
      match settled with
      | Resolved _ =>
          (true,
           navigator_share title text None settled ::
           match photos entry with
           | [] => []
           | _ => [alert "Photos could not be shared. Only text was shared. You may need to attach photos manually."]
           end)
      | Rejected name =>
          (bool_decide (name = "AbortError"),
           [navigator_share title text None settled])
      end
  end.

Definition hex_digits : string := "0123456789ABCDEF".

Definition hex_digit (n : N) : ascii :=
  default "0"%char (String.get (N.to_nat n) hex_digits).

(** The characters [encodeURIComponent] leaves as they are. *)
Definition is_unreserved (c : ascii) : bool :=
  let n := N_of_ascii c in
  bool_decide (48 ≤ n ≤ 57)%N || bool_decide (65 ≤ n ≤ 90)%N ||
  bool_decide (97 ≤ n ≤ 122)%N ||
  bool_decide (c ∈ ["-"; "_"; "."; "!"; "~"; "*"; "'"; "("; ")"]%char).

(** [encodeURIComponent]: every other byte of the UTF-8 text becomes a
    percent sign and two hexadecimal digits. *)
Fixpoint encodeURIComponent (s : string) : string :=
  match s with
  | EmptyString => ""
  | String c rest =>
      (if is_unreserved c then String c ""
       else let n := N_of_ascii c in
            String "%" (String (hex_digit (n / 16)) (String (hex_digit (n mod 16)) "")))
      +:+ encodeURIComponent rest
  end%N.

Definition shareViaWhatsApp (text : string) : list Effect :=
  [window_open ("https://wa.me/?text=" +:+ encodeURIComponent text) "_blank"].

(** [window.shareEntry]: the entry is looked up in the cache; the share with
    photos is tried only when it has photos. *)
Definition shareEntry `{Runtime} (host : ShareHost) (key : Z) (app : App)
    : list Effect :=
  match List.find (λ e, bool_decide (id e = key)) (entries app) with
  | None => []
  | Some entry =>
      let shareText := createShareText entry in
      let with_photos :=
        match photos entry with
        | [] => (false, [])
        | _ => tryShareWithPhotos host entry shareText
        end in
      if with_photos.1 then with_photos.2
      else
        let text_only := tryShareTextOnly host entry shareText in
        if text_only.1 then with_photos.2 ++ text_only.2
        else with_photos.2 ++ text_only.2 ++ shareViaWhatsApp shareText
  end.

(** ** Start *)

(** What [checkBrowserCapabilities] looks at. *)
Record Browser := {
  browser_navigator : Navigator;
  has_geolocation : bool;
  has_FileReader : bool;
  has_indexedDB : bool;
  has_share : bool
}.

(** [checkBrowserCapabilities]: ['persist' in navigator.storage] throws when
    [navigator.storage] is not there ([None]); otherwise the one alert is
    the one for a missing IndexedDB. *)
Definition checkBrowserCapabilities (browser : Browser) : option (list Effect) :=
  match storage (browser_navigator browser) with
  | None => None
  | Some _ =>
      Some (if has_indexedDB browser then []
            else [alert "Your browser does not support local data storage. The app may not work correctly."])
  end.

(** The medium as the load of a browser finds it: without the global
    [indexedDB], [indexedDB.open] throws a [ReferenceError] inside the
    executor of [initDB], which rejects its promise. *)
Definition medium_of (browser : Browser) (env : Medium) : Medium :=
  if has_indexedDB browser then env
  else {| open_error := Some "ReferenceError"; request_error := request_error env |}.

(** [initializeApp].  [listeners] tells whether [setupEventListeners] finds the
    eight elements it attaches listeners to; on one that is missing it
    throws, and nothing else is started.  The load and the storage display
    are started without [await]: they never throw into the [try], and what
    they do comes after the dialogs of the capability check, or after the
    dialog of the [catch] when the check throws. *)
Definition initializeApp `{Runtime} (listeners : bool) (browser : Browser)
    (env : Medium) (app : App) : App * list Effect :=
  let failure := [alert "Application failed to start. Please refresh the page."] in
  if negb listeners then (app, failure)
  else
    let loaded := loadEntriesOnStartup (medium_of browser env) app in
    ({| formData := formData app;
        entries := entries loaded.1;
        database := database loaded.1;
        storage_ui := updateStorageInfo (browser_navigator browser) (storage_ui app) |},
     match checkBrowserCapabilities browser with
     | Some dialogs => dialogs
     | None => failure
     end ++ loaded.2).

(** The three listeners of [setupEventListeners] that copy a field of the
    form into [formData], taken together: the user has typed [category],
    [status] and [description]. *)
Definition fill_form (category status description : string) (app : App) : App :=
  {| formData := {| form_category := category;
                    form_status := status;
                    form_description := description;
                    form_location := form_location (formData app);
                    form_photos := form_photos (formData app) |};
     entries := entries app;
     database := database app;
     storage_ui := storage_ui app |}.

(** Whether a call of [navigator.share] ended the request: the data was
    shared, or the user closed the share sheet. *)
Definition settled_by_user (effect : Effect) : Prop :=
  match effect with
  | navigator_share _ _ _ (Resolved _) => True
  | navigator_share _ _ _ (Rejected name) => name = "AbortError"
  | _ => False
  end.

Definition is_window_open (effect : Effect) : Prop :=
  match effect with
  | window_open _ _ => True
  | _ => False
  end.

Definition is_warning (event : Event) : bool :=
  match event with
  | Warn _ => true
  | _ => false
  end.

(** ** Reading the alphabet back *)

(** The position of a character in a string (the length when it is not
    there), and with it the six bits a character of the alphabet stands
    for. *)
Fixpoint index_of (c : ascii) (s : string) : nat :=
  match s with
  | EmptyString => 0
  | String d rest => if decide (c = d) then 0 else S (index_of c rest)
  end.

Definition sextet_value (c : ascii) : N :=
  N.of_nat (index_of c base64_alphabet).

(** What every file handed to the share sheet has. *)
Definition well_formed_file (file : File) : Prop :=
  f_name file ≠ ""%string ∧ f_type file ≠ ""%string ∧
  f_size file = Z.of_nat (String.length (f_content file)).

(** ** More sample data *)

Module Scene.
Definition start : App :=
  {| formData := blank_form; entries := []; database := fresh_db;
     storage_ui := Sample.blank_ui |}.

Definition filled : App := fill_form "Inspection" "Open" "pump leaks" start.

Definition no_quota_left : Medium :=
  {| open_error := None; request_error := Some "QuotaExceededError" |}.

Definition photo : Photo :=
  {| p_data := "data:image/png;base64,YWJj"; p_name := "p.png";
     p_type := "image/png"; p_size := 3; p_timestamp := 0 |}.

Definition with_entries : App :=
  {| formData := blank_form;
     entries := [Sample.first; Sample.second];
     database := Sample.db;
     storage_ui := Sample.blank_ui |}.

(** A browser without the Web Share API. *)
Definition no_web_share : ShareHost :=
  {| host_share := None; host_canShare := None;
     host_fetch := λ _, Rejected "TypeError" |}.

(** A browser whose share sheet the user closes. *)
Definition share_sheet_closed : ShareHost :=
  {| host_share := Some (λ _ _ _, Rejected "AbortError");
     host_canShare := Some (λ _, true);
     host_fetch := λ _, Resolved "abc" |}.
End Scene.

(** ** The record store *)

Section store.
Implicit Types (db : IDBDatabase) (env : Medium) (os : gmap Z Entry) (l : list Entry).

Lemma initDB_healthy db :
  store_open db →
  ∃ db', initDB healthy db = (Resolved (), db') ∧
         version db' = DB_VERSION ∧
         objectStores db' !! STORE_NAME = Some (entries_of db) ∧
         ∀ name, name ≠ STORE_NAME → objectStores db' !! name = objectStores db !! name.
Proof.
  intros [Hle Hstore]. unfold initDB, entries_of; simpl.
  destruct (decide (DB_VERSION < version db)) as [|_]; [lia|].
  destruct (decide (version db < DB_VERSION)) as [Hlt|Hge].
  - eexists; split; [reflexivity|]; simpl. split; [done|].
    unfold upgrade. destruct (objectStores db !! STORE_NAME) as [os|] eqn:E; simpl.
    + by rewrite E.
    + split; [by rewrite lookup_insert_eq|].
      intros name Hne. by rewrite lookup_insert_ne.
  - assert (version db = DB_VERSION) as Hv by lia.
    destruct (Hstore Hv) as [os E].
    exists db. rewrite E; simpl. by repeat split.
Qed.

(** Walk both sides of a goal through the steps every operation shares: the
    open, the object store and the request.  The cases that reject early are
    closed; the two outcomes of the request are left. *)
Ltac through_transaction env db :=
  unfold mbind, Async_bind, await in *;
  destruct (initDB env db) as [[[]|?] ?]; [|done];
  match goal with
  | |- context [objectStore ?d] => destruct (objectStore d) as [[?|?] ?]; [|done]
  end;
  match goal with
  | |- context [request env ?d] => destruct (request env d) as [[[]|?] ?]
  end.

Lemma store_open_after stores :
  store_open {| version := DB_VERSION; objectStores := stores |} ↔
  is_Some (stores !! STORE_NAME).
Proof.
  unfold store_open; simpl. split; [intros [_ H]; by apply H|].
  intros H. split; [done|]. by intros _.
Qed.

(** What a successful write leaves behind. *)
Lemma write_healthy db (f : gmap Z Entry → gmap Z Entry) :
  store_open db →
  ∃ db', (initDB healthy;; os ← objectStore; request healthy;; commit (f os)) db
           = (Resolved (), db') ∧
         store_open db' ∧ entries_of db' = f (entries_of db).
Proof.
  intros Hopen. destruct (initDB_healthy db Hopen) as (db1 & E1 & Hv & Hos & _).
  eexists. unfold mbind, Async_bind, await. rewrite E1.
  unfold objectStore. rewrite Hos. simpl. split; [reflexivity|].
  rewrite Hv. split.
  - apply store_open_after. by rewrite lookup_insert_eq.
  - unfold entries_of; simpl. by rewrite lookup_insert_eq.
Qed.

Lemma saveToIndexedDB_healthy db entry :
  store_open db →
  ∃ db', saveToIndexedDB healthy entry db = (Resolved (id entry), db') ∧
         store_open db' ∧
         entries_of db' = <[id entry := entry]> (entries_of db).
Proof.
  intros Hopen.
  destruct (write_healthy db (λ os, <[id entry := entry]> os) Hopen) as (db' & E & ? & ?).
  exists db'. split; [|done].
  unfold saveToIndexedDB. through_transaction healthy db; [|done].
  simpl in *. by inversion E.
Qed.

Lemma deleteFromIndexedDB_healthy db key :
  store_open db →
  ∃ db', deleteFromIndexedDB healthy key db = (Resolved (), db') ∧
         store_open db' ∧
         entries_of db' = delete key (entries_of db).
Proof.
  intros Hopen.
  destruct (write_healthy db (λ os, delete key os) Hopen) as (db' & E & ? & ?).
  exists db'. split; [|done].
  unfold deleteFromIndexedDB. through_transaction healthy db; [|done].
  simpl in *. by inversion E.
Qed.

Lemma getAllFromIndexedDB_healthy db :
  store_open db →
  ∃ db', getAllFromIndexedDB healthy db
           = (Resolved (Array_sort by_recency (store_getAll (entries_of db))), db') ∧
         store_open db' ∧ entries_of db' = entries_of db.
Proof.
  intros Hopen. destruct (initDB_healthy db Hopen) as (db1 & E1 & Hv & Hos & _).
  exists db1. unfold getAllFromIndexedDB, mbind, Async_bind, await. rewrite E1.
  unfold objectStore. rewrite Hos. simpl. split; [done|]. split.
  - destruct db1 as [v stores]; simpl in *; subst v.
    apply store_open_after. by rewrite Hos.
  - unfold entries_of at 1. by rewrite Hos.
Qed.

(** A medium error on the request rejects the write and keeps the
    records. *)
Lemma saveToIndexedDB_request_error db entry err :
  store_open db →
  ∃ db', saveToIndexedDB {| open_error := None; request_error := Some err |} entry db
           = (Rejected err, db') ∧
         entries_of db' = entries_of db.
Proof.
  intros [Hle Hstore]. unfold saveToIndexedDB, mbind, Async_bind, await, initDB; simpl.
  destruct (decide (DB_VERSION < version db)) as [|_]; [lia|].
  destruct (decide (version db < DB_VERSION)) as [Hlt|Hge].
  - unfold objectStore, upgrade; simpl.
    destruct (objectStores db !! STORE_NAME) as [os|] eqn:E; simpl.
    + rewrite E. simpl. eexists; split; [reflexivity|].
      unfold entries_of; simpl. by rewrite E.
    + rewrite lookup_insert_eq. simpl. eexists; split; [reflexivity|].
      unfold entries_of; simpl. by rewrite lookup_insert_eq, E.
  - assert (version db = DB_VERSION) as Hv by lia.
    destruct (Hstore Hv) as [os E]. unfold objectStore. rewrite E. simpl.
    by exists db.
Qed.

(** The state an operation leaves, whatever the medium answers: the records
    as they were, or as the write [f] makes them. *)
Lemma initDB_state env db :
  store_open db →
  store_open (initDB env db).2 ∧ entries_of (initDB env db).2 = entries_of db.
Proof.
  intros Hopen. unfold initDB. destruct (open_error env) as [err|]; [done|].
  destruct (decide (DB_VERSION < version db)); [done|].
  destruct (decide (version db < DB_VERSION)); [|done]. simpl.
  unfold entries_of, upgrade; simpl.
  destruct (objectStores db !! STORE_NAME) as [os|] eqn:E.
  - rewrite store_open_after, E. by split; [eexists|].
  - rewrite store_open_after, lookup_insert_eq. by split; [eexists|].
Qed.

Lemma transaction_state env db (f : gmap Z Entry → gmap Z Entry) :
  store_open db →
  let db' := ((initDB env;; os ← objectStore; request env;; commit (f os)) db).2 in
  store_open db' ∧
  (entries_of db' = entries_of db ∨ entries_of db' = f (entries_of db)).
Proof.
  intros Hopen. destruct (initDB_state env db Hopen) as [Hopen1 Hsame].
  unfold mbind, Async_bind, await.
  destruct (initDB env db) as [[[]|err] db1]; simpl in *; [|by auto].
  unfold objectStore. destruct (objectStores db1 !! STORE_NAME) as [os|] eqn:E;
    simpl; [|by auto].
  unfold request. destruct (request_error env) as [err|]; simpl; [by auto|].
  split.
  - destruct Hopen1 as [Hle _]. split; simpl; [done|].
    intros _. rewrite lookup_insert_eq. by eexists.
  - right. unfold entries_of in *; simpl. rewrite lookup_insert_eq; simpl.
    rewrite E in Hsame. simpl in Hsame. by rewrite Hsame.
Qed.

Lemma saveToIndexedDB_state env entry db :
  store_open db →
  let db' := (saveToIndexedDB env entry db).2 in
  store_open db' ∧
  (entries_of db' = entries_of db ∨
   entries_of db' = <[id entry := entry]> (entries_of db)).
Proof.
  intros Hopen.
  pose proof (transaction_state env db (λ os, <[id entry := entry]> os) Hopen) as Hf.
  unfold saveToIndexedDB. by through_transaction env db.
Qed.

Lemma deleteFromIndexedDB_state env key db :
  store_open db →
  let db' := (deleteFromIndexedDB env key db).2 in
  store_open db' ∧
  (entries_of db' = entries_of db ∨ entries_of db' = delete key (entries_of db)).
Proof.
  intros Hopen.
  pose proof (transaction_state env db (λ os, delete key os) Hopen) as Hf.
  unfold deleteFromIndexedDB. by through_transaction env db.
Qed.

Lemma getAllFromIndexedDB_state env db :
  store_open db →
  let db' := (getAllFromIndexedDB env db).2 in
  store_open db' ∧ entries_of db' = entries_of db.
Proof.
  intros Hopen. destruct (initDB_state env db Hopen) as [Hopen1 Hsame].
  unfold getAllFromIndexedDB, mbind, Async_bind, await.
  destruct (initDB env db) as [[[]|err] db1]; simpl in *; [|done].
  unfold objectStore. destruct (objectStores db1 !! STORE_NAME) as [os|];
    simpl; [|done].
  unfold request. by destruct (request_error env).
Qed.

(** The key path is kept by every write. *)
Lemma inline_keys_empty : inline_keys ∅.
Proof. apply map_Forall_empty. Qed.

Lemma inline_keys_insert os entry :
  inline_keys os → inline_keys (<[id entry := entry]> os).
Proof. intros H. by apply map_Forall_insert_2. Qed.

Lemma inline_keys_delete os key :
  inline_keys os → inline_keys (delete key os).
Proof. intros H. by apply map_Forall_delete. Qed.

(** X1.  Every database the application gets to, by saves, deletions and
    listings and whatever the medium answers, can be opened again and files
    each record under its own id. *)
Lemma reachable_invariant db :
  reachable db → store_open db ∧ inline_keys (entries_of db).
Proof.
  induction 1 as [|env entry db _ [Hopen Hkeys]|env key db _ [Hopen Hkeys]
                  |env db _ [Hopen Hkeys]].
  - split; [split; [done|by intros [=]]|apply inline_keys_empty].
  - destruct (saveToIndexedDB_state env entry db Hopen) as [Ho [->| ->]];
      auto using inline_keys_insert.
  - destruct (deleteFromIndexedDB_state env key db Hopen) as [Ho [->| ->]];
      auto using inline_keys_delete.
  - destruct (getAllFromIndexedDB_state env db Hopen) as [Ho ->]; auto.
Qed.
End store.

(** ** Listing order *)

Section listing.
Implicit Types (os : gmap Z Entry) (l : list Entry) (x y : Entry).

Lemma sort_insert_Permutation {A} (compareFn : A → A → Z) (a : A) (l : list A) :
  sort_insert compareFn a l ≡ₚ a :: l.
Proof.
  induction l as [|b l IH]; simpl; [done|].
  case_decide; [done|]. by rewrite IH, Permutation_swap.
Qed.

Lemma Array_sort_Permutation {A} (compareFn : A → A → Z) (l : list A) :
  Array_sort compareFn l ≡ₚ l.
Proof.
  induction l as [|a l IH]; simpl; [done|].
  by rewrite sort_insert_Permutation, IH.
Qed.

Lemma recency_then_key_trans x y z :
  recency_then_key x y → recency_then_key y z → recency_then_key x z.
Proof. unfold recency_then_key. lia. Qed.

(** An entry whose key is below every key of a sorted listing enters it at
    the head of its timestamp group. *)
Lemma sort_insert_recency x l :
  StronglySorted recency_then_key l →
  Forall (λ y, id x < id y) l →
  StronglySorted recency_then_key (sort_insert by_recency x l).
Proof.
  induction 1 as [|y l Hl IH Hy]; intros Hx; simpl.
  - repeat constructor.
  - apply Forall_cons in Hx as [Hxy Hxl].
    case_decide as Hcmp; unfold by_recency in Hcmp.
    + assert (recency_then_key x y) as Hr by (unfold recency_then_key; lia).
      constructor; [by constructor|]. constructor; [done|].
      eapply Forall_impl; [exact Hy|]. intros z Hz.
      by eapply recency_then_key_trans.
    + constructor; [by apply IH|].
      rewrite sort_insert_Permutation. constructor; [|done].
      unfold recency_then_key; lia.
Qed.

Lemma Array_sort_recency l :
  StronglySorted (λ x y, id x < id y) l →
  StronglySorted recency_then_key (Array_sort by_recency l).
Proof.
  induction 1 as [|x l Hl IH Hx]; simpl; [constructor|].
  apply sort_insert_recency; [done|]. by rewrite Array_sort_Permutation.
Qed.

#[local] Instance key_le_total : Total key_le.
Proof. intros a b. unfold key_le. lia. Qed.

#[local] Instance key_le_trans : Transitive key_le.
Proof. intros a b c. unfold key_le. lia. Qed.

Lemma strictly_sorted_keys (kvs : list (Z * Entry)) :
  StronglySorted key_le kvs → NoDup kvs.*1 →
  StronglySorted (λ a b : Z * Entry, a.1 < b.1) kvs.
Proof.
  induction 1 as [|a kvs Hs IH Ha]; intros Hnd; [constructor|].
  simpl in Hnd. apply NoDup_cons in Hnd as [Hnotin Hnd].
  constructor; [by apply IH|].
  apply Forall_forall. intros b Hb.
  rewrite Forall_forall in Ha. specialize (Ha b Hb). unfold key_le in Ha.
  assert (a.1 ≠ b.1); [|lia].
  intros Heq. apply Hnotin. rewrite Heq. by apply list_elem_of_fmap_2.
Qed.

Lemma ascending_ids (kvs : list (Z * Entry)) :
  StronglySorted (λ a b : Z * Entry, a.1 < b.1) kvs →
  Forall (λ kv : Z * Entry, id kv.2 = kv.1) kvs →
  StronglySorted (λ x y, id x < id y) kvs.*2.
Proof.
  induction 1 as [|a kvs Hs IH Ha]; intros Hid; simpl; [constructor|].
  apply Forall_cons in Hid as [Hida Hid].
  constructor; [by apply IH|].
  apply Forall_fmap, Forall_forall. intros b Hb. simpl.
  rewrite Forall_forall in Ha, Hid.
  rewrite Hida, (Hid b Hb). by apply Ha.
Qed.

(** [store.getAll()] lists every record once, in ascending order of id. *)
Lemma store_getAll_Permutation os :
  store_getAll os ≡ₚ (map_to_list os).*2.
Proof. unfold store_getAll. by rewrite merge_sort_Permutation. Qed.

Lemma store_getAll_ascending os :
  inline_keys os → StronglySorted (λ x y, id x < id y) (store_getAll os).
Proof.
  intros Hkeys. unfold store_getAll.
  pose proof (merge_sort_Permutation key_le (map_to_list os)) as Hperm.
  apply ascending_ids.
  - apply strictly_sorted_keys.
    + apply Sorted_StronglySorted; [apply _|]. apply Sorted_merge_sort, _.
    + rewrite Hperm. apply NoDup_fst_map_to_list.
  - rewrite Hperm. apply Forall_forall. intros [k e] Hin.
    apply elem_of_map_to_list in Hin. simpl. by apply (Hkeys k e).
Qed.
End listing.

(** C1 (as the code has it).  On a healthy medium [getAllFromIndexedDB]
    resolves with every stored record exactly once, newest timestamp first;
    records of one timestamp come in ascending order of id, the key order of
    the object store, which the stable sort keeps. *)
Theorem getAllFromIndexedDB_recency_then_key (db : IDBDatabase) :
  store_open db → inline_keys (entries_of db) →
  ∃ l db', getAllFromIndexedDB healthy db = (Resolved l, db') ∧
           entries_of db' = entries_of db ∧
           l ≡ₚ (map_to_list (entries_of db)).*2 ∧
           StronglySorted recency_then_key l.
Proof.
  intros Hopen Hkeys.
  destruct (getAllFromIndexedDB_healthy db Hopen) as (db' & E & _ & Hsame).
  eexists _, db'. split; [exact E|]. split; [done|]. split.
  - by rewrite Array_sort_Permutation, store_getAll_Permutation.
  - by apply Array_sort_recency, store_getAll_ascending.
Qed.

Lemma getAllFromIndexedDB_recency_then_key_sample :
  (store_open Sample.db ∧ inline_keys (entries_of Sample.db)) ∧
  ∃ l db', getAllFromIndexedDB healthy Sample.db = (Resolved l, db') ∧
           entries_of db' = entries_of Sample.db ∧
           l ≡ₚ (map_to_list (entries_of Sample.db)).*2 ∧
           StronglySorted recency_then_key l.
Proof.
  assert (store_open Sample.db) as Hopen.
  { split; [done|]. intros _. by eexists. }
  assert (inline_keys (entries_of Sample.db)) as Hkeys.
  { intros k e. unfold entries_of; simpl. rewrite lookup_singleton_eq. simpl.
    intros H. apply lookup_insert_Some in H as [[<- <-]|[_ H]]; [done|].
    apply lookup_singleton_Some in H as [<- <-]. done. }
  split; [done|].
  exact (getAllFromIndexedDB_recency_then_key Sample.db Hopen Hkeys).
Defined.

(** C1 (as stated) fails: two records of one timestamp are listed with the
    smaller id first, which the documented order forbids. *)
Lemma getAllFromIndexedDB_ties_ascending :
  (getAllFromIndexedDB healthy Sample.db).1 = Resolved [Sample.first; Sample.second] ∧
  ¬ StronglySorted documented_order [Sample.first; Sample.second].
Proof.
  split; [by vm_compute|].
  intros Hs. apply StronglySorted_inv in Hs as [_ Hall].
  apply Forall_cons in Hall as [Hord _].
  unfold documented_order in Hord; simpl in Hord. lia.
Qed.

(** ** Writes *)

(** C2 (as the code has it).  [saveToIndexedDB] uses [store.put]: saving a
    record whose id is already stored resolves with that id, files the new
    record in place of the old one and leaves every other record alone.
    There is no duplicate-id rejection. *)
Theorem saveToIndexedDB_replaces (db : IDBDatabase) (entry old : Entry) :
  store_open db → entries_of db !! id entry = Some old →
  ∃ db', saveToIndexedDB healthy entry db = (Resolved (id entry), db') ∧
         entries_of db' !! id entry = Some entry ∧
         ∀ key, key ≠ id entry → entries_of db' !! key = entries_of db !! key.
Proof.
  intros Hopen _.
  destruct (saveToIndexedDB_healthy db entry Hopen) as (db' & E & _ & Hos).
  exists db'. split; [exact E|]. rewrite Hos. split.
  - apply lookup_insert_eq.
  - intros key Hne. by rewrite lookup_insert_ne.
Qed.

Lemma saveToIndexedDB_replaces_sample :
  (store_open Sample.db ∧
   entries_of Sample.db !! id Sample.first_again = Some Sample.first) ∧
  ∃ db', saveToIndexedDB healthy Sample.first_again Sample.db
           = (Resolved (id Sample.first_again), db') ∧
         entries_of db' !! id Sample.first_again = Some Sample.first_again ∧
         ∀ key, key ≠ id Sample.first_again →
                entries_of db' !! key = entries_of Sample.db !! key.
Proof.
  assert (store_open Sample.db) as Hopen.
  { split; [done|]. intros _. by eexists. }
  assert (entries_of Sample.db !! id Sample.first_again = Some Sample.first) as Hold.
  { by vm_compute. }
  split; [done|].
  exact (saveToIndexedDB_replaces Sample.db Sample.first_again Sample.first Hopen Hold).
Defined.

(** C2 (as stated) fails: a second record with the id of a stored one is
    accepted and takes its place. *)
Lemma saveToIndexedDB_duplicate_id_accepted :
  entries_of Sample.db !! 1 = Some Sample.first ∧
  (saveToIndexedDB healthy Sample.first_again Sample.db).1 = Resolved 1 ∧
  entries_of (saveToIndexedDB healthy Sample.first_again Sample.db).2 !! 1
    = Some Sample.first_again ∧
  Sample.first_again ≠ Sample.first.
Proof.
  split; [by vm_compute|]. split; [by vm_compute|]. split; [by vm_compute|].
  intros H. discriminate H.
Qed.

(** C3 (as the code has it).  [deleteFromIndexedDB] resolves whether or not
    the id is stored.  Afterwards no record is filed under the id (a record
    goes with the photos it embeds) and every other record is as before; for
    an id that was not stored the records are unchanged. *)
Theorem deleteFromIndexedDB_resolves (db : IDBDatabase) (key : Z) :
  store_open db →
  ∃ db', deleteFromIndexedDB healthy key db = (Resolved (), db') ∧
         entries_of db' !! key = None ∧
         (∀ other, other ≠ key → entries_of db' !! other = entries_of db !! other) ∧
         (entries_of db !! key = None → entries_of db' = entries_of db).
Proof.
  intros Hopen.
  destruct (deleteFromIndexedDB_healthy db key Hopen) as (db' & E & _ & Hos).
  exists db'. split; [exact E|]. rewrite Hos. split; [|split].
  - apply lookup_delete_eq.
  - intros other Hne. by rewrite lookup_delete_ne.
  - intros Habsent. by apply delete_id.
Qed.

Lemma deleteFromIndexedDB_resolves_sample :
  store_open Sample.db ∧
  ∃ db', deleteFromIndexedDB healthy 2 Sample.db = (Resolved (), db') ∧
         entries_of db' !! 2 = None ∧
         (∀ other, other ≠ 2 → entries_of db' !! other = entries_of Sample.db !! other) ∧
         (entries_of Sample.db !! 2 = None → entries_of db' = entries_of Sample.db).
Proof.
  assert (store_open Sample.db) as Hopen.
  { split; [done|]. intros _. by eexists. }
  split; [done|].
  exact (deleteFromIndexedDB_resolves Sample.db 2 Hopen).
Defined.

(** C3 (as stated) fails: deleting an id that is not stored reports
    success. *)
Lemma deleteFromIndexedDB_absent_id_succeeds :
  entries_of Sample.db !! 7 = None ∧
  (deleteFromIndexedDB healthy 7 Sample.db).1 = Resolved ().
Proof. split; by vm_compute. Qed.

(** ** Attachment codec *)

Section codec.
Implicit Types (file : File) (files : list File).


End codec.





(** The type is looked at first: a file that is both of another type and too
    large is turned away with the unsupported-type warning. *)
Example photo_filter_type_first :
  10 * 1024 * 1024 < f_size Sample.large_gif ∧
  photo_filter Sample.large_gif =
    (false, [Warn "Unsupported file type: image/gif for a.gif"]).
Proof. split; by vm_compute. Qed.

(** ** Quota monitor *)

(** C9.  Without capacity introspection [getStorageEstimate] resolves with
    [null]: it does not reject, and its answer is not an estimate of zero
    usage and zero quota. *)
Theorem getStorageEstimate_unavailable (navigator : Navigator) :
  no_capacity_introspection navigator →
  getStorageEstimate navigator = Resolved None ∧
  getStorageEstimate navigator ≠ Resolved (Some {| usage := 0; quota := 0 |}) ∧
  ∀ err, getStorageEstimate navigator ≠ Rejected err.
Proof.
  unfold no_capacity_introspection, getStorageEstimate.
  destruct (storage navigator) as [manager|].
  - intros ->. by repeat split.
  - intros _. by repeat split.
Qed.

Lemma getStorageEstimate_unavailable_sample :
  no_capacity_introspection Sample.no_storage ∧
  getStorageEstimate Sample.no_storage = Resolved None ∧
  getStorageEstimate Sample.no_storage ≠ Resolved (Some {| usage := 0; quota := 0 |}) ∧
  ∀ err, getStorageEstimate Sample.no_storage ≠ Rejected err.
Proof.
  assert (no_capacity_introspection Sample.no_storage) as H by exact I.
  split; [exact H|].
  exact (getStorageEstimate_unavailable Sample.no_storage H).
Defined.

Section binary64.
Implicit Types (mrs : shr_record) (m e n : Z) (p : positive) (l : SpecFloat.location).

Lemma shr_1_m mrs : 0 ≤ shr_m mrs → shr_m (shr_1 mrs) = Z.shiftr (shr_m mrs) 1.
Proof.
  destruct mrs as [[|[p|p|]|p] r s]; cbn; intros Hm; try lia; done.
Qed.

Lemma iter_pos_shr_1_m p mrs :
  0 ≤ shr_m mrs → shr_m (SpecFloat.iter_pos shr_1 p mrs) = Z.shiftr (shr_m mrs) (Z.pos p).
Proof.
  revert mrs. induction p as [p IH|p IH|]; intros mrs Hm; cbn [SpecFloat.iter_pos].
  - assert (0 ≤ shr_m (shr_1 mrs)) as H1
      by (rewrite shr_1_m by done; by apply Z.shiftr_nonneg).
    assert (0 ≤ shr_m (SpecFloat.iter_pos shr_1 p (shr_1 mrs))) as H2
      by (rewrite IH by done; by apply Z.shiftr_nonneg).
    rewrite (IH _ H2), (IH _ H1), shr_1_m by done.
    rewrite !Z.shiftr_shiftr by lia. f_equal. lia.
  - assert (0 ≤ shr_m (SpecFloat.iter_pos shr_1 p mrs)) as H2
      by (rewrite IH by done; by apply Z.shiftr_nonneg).
    rewrite (IH _ H2), (IH _ Hm).
    rewrite !Z.shiftr_shiftr by lia. f_equal. lia.
  - by apply shr_1_m.
Qed.

Lemma shr_m_shr mrs e n :
  0 ≤ shr_m mrs →
  shr_m (shr mrs e n).1 = Z.shiftr (shr_m mrs) (Z.max n 0) ∧
  (shr mrs e n).2 = e + Z.max n 0.
Proof.
  intros Hm. destruct n as [|p|p]; cbn [shr fst snd].
  - split; [done|lia].
  - rewrite iter_pos_shr_1_m by done. split; [f_equal|]; lia.
  - split; [done|lia].
Qed.

Lemma shr_m_record_of_loc m l : shr_m (shr_record_of_loc m l) = m.
Proof. by destruct l as [|[]]. Qed.

Lemma shr_fexp_m m e l :
  0 ≤ m →
  let n := Z.max (fexp 53 1024 (Zdigits2 m + e) - e) 0 in
  shr_m (shr_fexp 53 1024 m e l).1 = Z.shiftr m n ∧
  (shr_fexp 53 1024 m e l).2 = e + n.
Proof.
  intros Hm n. unfold shr_fexp.
  rewrite <- (shr_m_record_of_loc m l) at 3.
  apply shr_m_shr. by rewrite shr_m_record_of_loc.
Qed.

Lemma round_nearest_even_bounds m l :
  m ≤ round_nearest_even m l ≤ m + 1.
Proof. destruct l as [|[]]; cbn; try destruct (Z.even m); lia. Qed.

(** Rounding keeps the sign, and is a number when there is a mantissa. *)
Lemma binary_round_aux_signed (sx : bool) m e l :
  0 ≤ m → signed sx (binary_round_aux 53 1024 sx m e l).
Proof.
  intros Hm. unfold binary_round_aux.
  destruct (shr_fexp 53 1024 m e l) as [mrs' e'] eqn:E1.
  destruct (shr_fexp 53 1024 _ e' loc_Exact) as [mrs'' e''] eqn:E2.
  assert (0 ≤ shr_m mrs') as Hm'.
  { destruct (shr_fexp_m m e l Hm) as [Hs _]. rewrite E1 in Hs. cbn in Hs.
    rewrite Hs. by apply Z.shiftr_nonneg. }
  assert (0 ≤ shr_m mrs'') as Hm''.
  { pose proof (round_nearest_even_bounds (shr_m mrs') (loc_of_shr_record mrs')) as Hr.
    edestruct (shr_fexp_m (round_nearest_even (shr_m mrs') (loc_of_shr_record mrs'))
                 e' loc_Exact) as [Hs _]; [lia|].
    rewrite E2 in Hs. cbn in Hs. rewrite Hs. apply Z.shiftr_nonneg. lia. }
  destruct (shr_m mrs'') as [|q|q]; [done| |lia].
  by destruct (_ <=? _).
Qed.

Lemma Zdigits2_log2 m : 0 < m → Zdigits2 m = Z.log2 m + 1.
Proof.
  destruct m as [|p|p]; [lia| |lia]. intros _. cbn [Zdigits2].
  assert (digits2_pos p = Pos.size p) as ->
    by (induction p as [p IH|p IH|]; cbn; by rewrite ?IH).
  destruct p; cbn; lia.
Qed.

(** A mantissa that is neither too small nor too large for the format
    rounds to a finite number that is not zero. *)
Lemma binary_round_aux_finite (sx : bool) m e l :
  0 < m →
  e ≤ fexp 53 1024 (Zdigits2 m + e) →
  -1073 ≤ Zdigits2 m + e ≤ 1023 →
  ∃ (q : positive) (k : Z), binary_round_aux 53 1024 sx m e l = S754_finite sx q k.
Proof.
  intros Hm He Hrange. unfold binary_round_aux.
  destruct (shr_fexp 53 1024 m e l) as [mrs' e'] eqn:E1.
  destruct (shr_fexp 53 1024 _ e' loc_Exact) as [mrs'' e''] eqn:E2.
  destruct (shr_fexp_m m e l) as [Hs1 He1]; [lia|].
  rewrite E1 in Hs1, He1. cbn [fst snd] in Hs1, He1.
  pose proof (round_nearest_even_bounds (shr_m mrs') (loc_of_shr_record mrs')) as Hr.
  revert E2 Hr. generalize (round_nearest_even (shr_m mrs') (loc_of_shr_record mrs')).
  intros m1 E2 Hr.
  rewrite Zdigits2_log2 in * by done.
  unfold fexp, emin in *.
  set (n1 := Z.max (Z.max (Z.log2 m + 1 + e - 53) (3 - 1024 - 53) - e) 0) in *.
  assert (0 ≤ n1 ≤ Z.log2 m) as Hn1 by (pose proof (Z.log2_nonneg m); lia).
  assert (Z.log2 (shr_m mrs') = Z.log2 m - n1) as Hlog1.
  { rewrite Hs1, Z.log2_shiftr by done. lia. }
  assert (0 < shr_m mrs') as Hpos1.
  { rewrite Hs1, Z.shiftr_div_pow2 by lia.
    apply Z.div_str_pos. split; [apply Z.pow_pos_nonneg; lia|].
    etrans; [|apply Z.log2_spec; lia]. apply Z.pow_le_mono_r; lia. }
  assert (Z.log2 (shr_m mrs') ≤ Z.log2 m1 ≤ Z.log2 (shr_m mrs') + 1) as Hlog.
  { split; [apply Z.log2_le_mono; lia|].
    etrans; [apply (Z.log2_le_mono _ (Z.succ (shr_m mrs'))); lia|].
    etrans; [apply Z.log2_succ_le|]. lia. }
  destruct (shr_fexp_m m1 e' loc_Exact) as [Hs2 He2]; [lia|].
  rewrite E2 in Hs2, He2. cbn [fst snd] in Hs2, He2.
  rewrite Zdigits2_log2 in * by lia.
  unfold fexp, emin in *.
  set (n2 := Z.max (Z.max (Z.log2 m1 + 1 + e' - 53) (3 - 1024 - 53) - e') 0) in *.
  assert (0 ≤ n2 ≤ Z.log2 m1) as Hn2 by (pose proof (Z.log2_nonneg m1); lia).
  assert (0 < shr_m mrs'') as Hpos2.
  { rewrite Hs2, Z.shiftr_div_pow2 by lia.
    apply Z.div_str_pos. split; [apply Z.pow_pos_nonneg; lia|].
    etrans; [|apply Z.log2_spec; lia]. apply Z.pow_le_mono_r; lia. }
  destruct (shr_m mrs'') as [|q|q]; [lia| |lia].
  exists q, e''. rewrite (proj2 (Z.leb_le _ _)); [done|]. lia.
Qed.

Lemma Pos_iter_xO p (k : positive) : Z.pos (Pos.iter xO p k) = Z.pos p * 2 ^ Z.pos k.
Proof.
  induction k as [|k IH] using Pos.peano_ind.
  - cbn. lia.
  - rewrite Pos.iter_succ, Pos2Z.inj_xO, IH, Pos2Z.inj_succ, Z.pow_succ_r by lia. lia.
Qed.

Lemma Number_of_Z_finite (z : Z) :
  0 < z < 2 ^ 1023 → ∃ (q : positive) (k : Z), Number_of_Z z = S754_finite false q k.
Proof.
  intros [Hpos Hlt]. destruct z as [|p|p]; [lia| |lia].
  unfold Number_of_Z, binary_normalize, binary_round.
  assert (Z.log2 (Z.pos p) < 1023) as Hlog by (apply Z.log2_lt_pow2; lia).
  pose proof (Z.log2_nonneg (Z.pos p)) as Hlog0.
  pose proof (Zdigits2_log2 (Z.pos p) eq_refl) as Hd. cbn [Zdigits2] in Hd.
  rewrite Hd. unfold shl_align.
  destruct (fexp 53 1024 (Z.log2 (Z.pos p) + 1 + 0) - 0) as [|k|k] eqn:Ek.
  - apply binary_round_aux_finite; [done| |]; rewrite Zdigits2_log2 by done;
      unfold fexp, emin in *; lia.
  - apply binary_round_aux_finite; [done| |]; rewrite Zdigits2_log2 by done;
      unfold fexp, emin in *; lia.
  - assert (Z.log2 (Z.pos (Pos.iter xO p k)) = Z.log2 (Z.pos p) + Z.pos k) as Hshift.
    { rewrite Pos_iter_xO, Z.log2_mul_pow2 by lia. lia. }
    apply binary_round_aux_finite; [done| |]; rewrite Zdigits2_log2 by done;
      rewrite Hshift; unfold fexp, emin in *; lia.
Qed.

Lemma Number_of_Z_signed (z : Z) : 0 ≤ z → signed false (Number_of_Z z).
Proof.
  intros Hz. destruct z as [|p|p]; [done| |lia].
  unfold Number_of_Z, binary_normalize, binary_round.
  destruct (shl_align _ _ _) as [mz ez]. by apply binary_round_aux_signed.
Qed.

Lemma SFdiv_core_binary_nonneg (m1 e1 m2 e2 : Z) :
  0 ≤ m1 → 0 < m2 → 0 ≤ (SFdiv_core_binary 53 1024 m1 e1 m2 e2).1.1.
Proof.
  intros H1 H2. unfold SFdiv_core_binary.
  set (s := e1 - e2 - _).
  set (m' := match s with Z.pos _ => Z.shiftl m1 s | Z0 => m1 | Z.neg _ => 0 end).
  assert (0 ≤ m') as Hm'.
  { subst m'. destruct s; [done| |done]. by apply Z.shiftl_nonneg. }
  pose proof (Z_div_mod m' m2 ltac:(lia)) as Hdiv.
  destruct (Z.div_eucl m' m2) as [q r]. cbn. nia.
Qed.

(** The quotient by a finite number that is not zero is a number. *)
Lemma SFdiv_signed (x : spec_float) (q : positive) (k : Z) :
  signed false x → signed false (x / S754_finite false q k)%Number.
Proof.
  destruct x as [s|s| |s p e]; cbn [signed]; try done; intros ->; try done.
  unfold SFdiv.
  pose proof (SFdiv_core_binary_nonneg (Z.pos p) e (Z.pos q) k) as Hm.
  destruct (SFdiv_core_binary 53 1024 (Z.pos p) e (Z.pos q) k) as [[mz ez] lz].
  apply binary_round_aux_signed. apply Hm; lia.
Qed.

Lemma SFmul_signed (x : spec_float) (q : positive) (k : Z) :
  signed false x → signed false (x * S754_finite false q k)%Number.
Proof.
  destruct x as [s|s| |s p e]; cbn [signed]; try done; intros ->; try done.
  unfold SFmul. by apply binary_round_aux_signed.
Qed.

Lemma Number_of_toFixed_signed (fractionDigits : nat) (x : spec_float) :
  signed false x → signed false (Number_of_toFixed fractionDigits x).
Proof.
  destruct x as [s|s| |s p e]; cbn [signed Number_of_toFixed]; try done.
  intros ->. destruct (Qle_bool _ _); [done|].
  destruct (toFixed_digits _ _) as [|n|n]; [done| |done].
  by apply SFdiv_signed.
Qed.

Lemma Number_of_Z_100 : Number_of_Z 100 = S754_finite false 7036874417766400 (-46).
Proof. by vm_compute. Qed.

Lemma SFcompare_finite_antisym (p q : positive) (e k : Z) :
  SFcompare (S754_finite false q k) (S754_finite false p e) =
  CompOpp <$> SFcompare (S754_finite false p e) (S754_finite false q k).
Proof.
  cbn [SFcompare fmap option_fmap option_map]. f_equal.
  rewrite (Z.compare_antisym e k).
  destruct (e ?= k); cbn [CompOpp]; [|done..].
  by rewrite Pos.compare_cont_antisym.
Qed.

Lemma SFcompare_finite_Eq (p q : positive) (e k : Z) :
  SFcompare (S754_finite false p e) (S754_finite false q k) = Some Eq →
  S754_finite false p e = S754_finite false q k.
Proof.
  cbn [SFcompare]. intros [= Hc].
  destruct (e ?= k) eqn:Ee; [|done..].
  apply Z.compare_eq in Ee as ->. by apply Pos.compare_eq in Hc as ->.
Qed.

(** [Math.min(x, y)] of a number that is not negative and a finite positive
    one. *)
Lemma Math_min_finite (x : spec_float) (q : positive) (k : Z) :
  signed false x →
  let y := S754_finite false q k in
  (SFleb (S754_zero false) (Math_min x y) = true ∧
   SFleb (Math_min x y) y = true) ∧
  (SFleb x y = true → Math_min x y = x) ∧
  (SFltb y x = true → Math_min x y = y).
Proof.
  intros Hx y. subst y.
  assert (SFcompare (S754_finite false q k) (S754_finite false q k) = Some Eq) as Hrefl.
  { cbn [SFcompare]. rewrite Z.compare_refl. by rewrite Pos.compare_cont_refl. }
  assert (SFleb (S754_finite false q k) (S754_finite false q k) = true) as Hle
    by (unfold SFleb; by rewrite Hrefl).
  destruct x as [s|s| |s p e]; cbn [signed] in Hx; try done; subst s.
  - change (Math_min (S754_infinity false) (S754_finite false q k))
      with (S754_finite false q k).
    by repeat split.
  - unfold Math_min, SFltb. rewrite (SFcompare_finite_antisym p q e k).
    destruct (SFcompare (S754_finite false p e) (S754_finite false q k))
      as [[]|] eqn:E.
    + apply SFcompare_finite_Eq in E. rewrite E, Hle. by repeat split.
    + unfold SFleb. rewrite E. by repeat split.
    + rewrite Hle. unfold SFleb. rewrite E. by repeat split.
    + done.
Qed.

(** In the normal range a mantissa of at least 53 bits rounds to one of
    exactly 53 bits, and the number moves by less than two units in its last
    place. *)
Lemma binary_round_aux_normal (sx : bool) m e l :
  0 < m →
  e ≤ fexp 53 1024 (Zdigits2 m + e) →
  -1021 ≤ Zdigits2 m + e ≤ 1023 →
  ∃ (q : positive) (k : Z),
    binary_round_aux 53 1024 sx m e l = S754_finite sx q k ∧
    2 ^ 52 ≤ Z.pos q < 2 ^ 53 ∧
    e ≤ k ∧ Zdigits2 m + e - 53 ≤ k ≤ Zdigits2 m + e - 52 ∧
    Z.pos q * 2 ^ (k - e) ≤ m + 2 ^ (k - e) ∧
    m < Z.pos q * 2 ^ (k - e) + 2 * 2 ^ (k - e).
Proof.
  intros Hm He Hrange. unfold binary_round_aux.
  destruct (shr_fexp 53 1024 m e l) as [mrs' e'] eqn:E1.
  destruct (shr_fexp 53 1024 _ e' loc_Exact) as [mrs'' e''] eqn:E2.
  destruct (shr_fexp_m m e l) as [Hs1 He1]; [lia|].
  rewrite E1 in Hs1, He1. cbn [fst snd] in Hs1, He1.
  pose proof (round_nearest_even_bounds (shr_m mrs') (loc_of_shr_record mrs')) as Hr.
  revert E2 Hr. generalize (round_nearest_even (shr_m mrs') (loc_of_shr_record mrs')).
  intros m1 E2 Hr.
  rewrite Zdigits2_log2 in * by done.
  unfold fexp, emin in *.
  set (n1 := Z.max (Z.max (Z.log2 m + 1 + e - 53) (3 - 1024 - 53) - e) 0) in *.
  assert (n1 = Z.log2 m - 52) as Hn1 by lia.
  assert (0 ≤ n1) as Hn1' by lia.
  assert (Z.log2 (shr_m mrs') = 52) as Hlog1.
  { rewrite Hs1, Z.log2_shiftr by done. lia. }
  assert (0 < shr_m mrs') as Hpos1.
  { destruct (Z.le_gt_cases (shr_m mrs') 0) as [Hle|?]; [|done].
    rewrite (Z.log2_nonpos _ Hle) in Hlog1. lia. }
  assert (52 ≤ Z.log2 m1 ≤ 53) as Hlog.
  { rewrite <- Hlog1 at 1. split; [apply Z.log2_le_mono; lia|].
    etrans; [apply (Z.log2_le_mono _ (Z.succ (shr_m mrs'))); lia|].
    etrans; [apply Z.log2_succ_le|]. lia. }
  destruct (shr_fexp_m m1 e' loc_Exact) as [Hs2 He2]; [lia|].
  rewrite E2 in Hs2, He2. cbn [fst snd] in Hs2, He2.
  rewrite Zdigits2_log2 in * by lia.
  unfold fexp, emin in *.
  set (n2 := Z.max (Z.max (Z.log2 m1 + 1 + e' - 53) (3 - 1024 - 53) - e') 0) in *.
  assert (n2 = Z.log2 m1 - 52) as Hn2 by lia.
  assert (Z.log2 (shr_m mrs'') = 52) as Hlog2.
  { rewrite Hs2, Z.log2_shiftr by lia. lia. }
  assert (0 < shr_m mrs'') as Hpos2.
  { destruct (Z.le_gt_cases (shr_m mrs'') 0) as [Hle|?]; [|done].
    rewrite (Z.log2_nonpos _ Hle) in Hlog2. lia. }
  pose proof (Z.log2_spec _ Hpos2) as Hspec. rewrite Hlog2 in Hspec.
  change (Z.succ 52) with 53 in Hspec.
  (* the two shifts as divisions *)
  assert (0 < 2 ^ n1) as HA by (apply Z.pow_pos_nonneg; lia).
  assert (0 < 2 ^ n2) as HB by (apply Z.pow_pos_nonneg; lia).
  rewrite Z.shiftr_div_pow2 in Hs1, Hs2 by lia.
  pose proof (Z.mul_div_le m (2 ^ n1) HA) as Hd1.
  pose proof (Z.mul_succ_div_gt m (2 ^ n1) HA) as Hd1'.
  pose proof (Z.mul_div_le m1 (2 ^ n2) HB) as Hd2.
  pose proof (Z.mul_succ_div_gt m1 (2 ^ n2) HB) as Hd2'.
  rewrite <- Hs1 in Hd1, Hd1'. rewrite <- Hs2 in Hd2, Hd2'.
  destruct (shr_m mrs'') as [|q|q]; [lia| |lia].
  exists q, e''. rewrite (proj2 (Z.leb_le _ _)) by lia.
  split; [done|]. split; [done|]. split; [lia|]. split; [lia|].
  replace (e'' - e) with (n1 + n2) by lia.
  rewrite Z.pow_add_r by lia.
  revert Hd1 Hd1' Hd2 Hd2' HA HB Hr.
  generalize (2 ^ n1) (2 ^ n2) (shr_m mrs'). intros A B m0. nia.
Qed.

(** The bounds of [binary_round_aux_normal] between the numbers, with
    [2^52 * x] written for [x] to stay with integers. *)
Lemma round_value (q : positive) (k m e : Z) :
  e ≤ k → 2 ^ 52 ≤ Z.pos q →
  Z.pos q * 2 ^ (k - e) ≤ m + 2 ^ (k - e) →
  m < Z.pos q * 2 ^ (k - e) + 2 * 2 ^ (k - e) →
  let v := (inject_Z (Z.pos q) * 2 ^ k)%Q in
  let vin := (inject_Z m * 2 ^ e)%Q in
  (4503599627370495 * v <= 4503599627370496 * vin)%Q ∧
  (4503599627370496 * vin <= 4503599627370498 * v)%Q.
Proof.
  intros Hk Hq Hup Hlow v vin.
  assert (0 < 2 ^ (k - e)) as HT by (apply Z.pow_pos_nonneg; lia).
  assert (2 ^ k == inject_Z (2 ^ (k - e)) * 2 ^ e)%Q as Hpow.
  { rewrite Zpower_Qpower by lia. rewrite <- Qpower_plus by done.
    by replace (k - e + e) with k by lia. }
  assert (0 < 2 ^ e)%Q as Hw by (by apply Qpower_0_lt).
  revert Hup Hlow HT Hpow. generalize (2 ^ (k - e)). intros T Hup Hlow HT Hpow.
  change (2 ^ 52) with 4503599627370496 in Hq.
  assert (4503599627370495 * (Z.pos q * T) ≤ 4503599627370496 * m) as H1 by nia.
  assert (4503599627370496 * m ≤ 4503599627370498 * (Z.pos q * T)) as H2 by nia.
  rewrite Zle_Qle, !inject_Z_mult in H1, H2.
  subst v vin. rewrite Hpow.
  revert H1 H2 Hw.
  generalize (inject_Z (Z.pos q)) (inject_Z T) (inject_Z m) (2 ^ e)%Q.
  intros a b c w H1 H2 Hw.
  change (inject_Z 4503599627370495) with (4503599627370495%Q) in *.
  change (inject_Z 4503599627370496) with (4503599627370496%Q) in *.
  change (inject_Z 4503599627370498) with (4503599627370498%Q) in *.
  split; nra.
Qed.

Lemma Number_value_finite (q : positive) (k : Z) :
  (Number_value (S754_finite false q k) == inject_Z (Z.pos q) * 2 ^ k)%Q.
Proof. cbn [Number_value]. ring. Qed.

(** Rounding in the normal range, with the bounds between the numbers. *)
Lemma binary_round_aux_value m e l :
  0 < m →
  e ≤ fexp 53 1024 (Zdigits2 m + e) →
  -1021 ≤ Zdigits2 m + e ≤ 1023 →
  let x := binary_round_aux 53 1024 false m e l in
  normal (Zdigits2 m + e - 53) (Zdigits2 m + e - 52) x ∧
  (4503599627370495 * Number_value x <= 4503599627370496 * (inject_Z m * 2 ^ e))%Q ∧
  (4503599627370496 * (inject_Z m * 2 ^ e) <= 4503599627370498 * Number_value x)%Q.
Proof.
  intros Hm He Hrange x. subst x.
  destruct (binary_round_aux_normal false m e l Hm He Hrange)
    as (q & k & -> & Hq & Hk & Hk' & Hup & Hlow).
  split; [done|]. rewrite Number_value_finite.
  apply round_value; [done|lia|done..].
Qed.

Lemma Number_of_Z_normal (z : Z) :
  0 < z < 2 ^ 64 →
  normal (-52) 12 (Number_of_Z z) ∧
  (4503599627370495 * Number_value (Number_of_Z z) <= 4503599627370496 * inject_Z z)%Q ∧
  (4503599627370496 * inject_Z z <= 4503599627370498 * Number_value (Number_of_Z z))%Q.
Proof.
  intros [Hpos Hlt]. destruct z as [|p|p]; [lia| |lia].
  unfold Number_of_Z, binary_normalize, binary_round.
  assert (Z.log2 (Z.pos p) < 64) as Hlog by (apply Z.log2_lt_pow2; lia).
  pose proof (Z.log2_nonneg (Z.pos p)) as Hlog0.
  pose proof (Zdigits2_log2 (Z.pos p) eq_refl) as Hd. cbn [Zdigits2] in Hd.
  rewrite Hd. unfold shl_align.
  destruct (fexp 53 1024 (Z.log2 (Z.pos p) + 1 + 0) - 0) as [|j|j] eqn:Ej.
  - destruct (binary_round_aux_value (Z.pos p) 0 loc_Exact) as (Hn & H1 & H2);
      [done|rewrite Zdigits2_log2 by done; unfold fexp, emin in *; lia..|].
    rewrite Zdigits2_log2 in Hn by done.
    split; [|split].
    + destruct (binary_round_aux _ _ _ _ _ _) as [| | |[] q k]; try done.
      cbn [normal] in *. lia.
    + by rewrite Qmult_1_r in H1.
    + by rewrite Qmult_1_r in H2.
  - destruct (binary_round_aux_value (Z.pos p) 0 loc_Exact) as (Hn & H1 & H2);
      [done|rewrite Zdigits2_log2 by done; unfold fexp, emin in *; lia..|].
    rewrite Zdigits2_log2 in Hn by done.
    split; [|split].
    + destruct (binary_round_aux _ _ _ _ _ _) as [| | |[] q k]; try done.
      cbn [normal] in *. lia.
    + by rewrite Qmult_1_r in H1.
    + by rewrite Qmult_1_r in H2.
  - assert (Z.log2 (Z.pos (Pos.iter xO p j)) = Z.log2 (Z.pos p) + Z.pos j) as Hshift.
    { rewrite Pos_iter_xO, Z.log2_mul_pow2 by lia. lia. }
    set (e := fexp 53 1024 (Z.log2 (Z.pos p) + 1 + 0)) in *.
    assert (e = - Z.pos j) as He by lia.
    destruct (binary_round_aux_value (Z.pos (Pos.iter xO p j)) e loc_Exact)
      as (Hn & H1 & H2);
      [done|rewrite Zdigits2_log2, Hshift by done; unfold fexp, emin in *; lia..|].
    rewrite Zdigits2_log2, Hshift in Hn by done.
    assert (inject_Z (Z.pos (Pos.iter xO p j)) * 2 ^ e == inject_Z (Z.pos p))%Q as Hin.
    { rewrite Pos_iter_xO, inject_Z_mult, Zpower_Qpower, He by lia.
      rewrite <- Qmult_assoc, <- Qpower_plus by done.
      replace (Z.pos j + - Z.pos j) with 0 by lia. apply Qmult_1_r. }
    rewrite Hin in H1, H2.
    split; [|by split].
    destruct (binary_round_aux _ _ _ _ _ _) as [| | |[] q k]; try done.
    cbn [normal] in *. unfold fexp, emin in *. lia.
Qed.

Lemma Zdigits2_53 (q : positive) : 2 ^ 52 ≤ Z.pos q < 2 ^ 53 → Zdigits2 (Z.pos q) = 53.
Proof.
  intros Hq. rewrite Zdigits2_log2 by done.
  rewrite (Z.log2_unique (Z.pos q) 52); [done|lia|done].
Qed.

Lemma normal_value lo hi x : normal lo hi x → (0 < Number_value x)%Q.
Proof.
  destruct x as [| | |[] q k]; try done. intros _.
  rewrite Number_value_finite.
  apply Qmult_lt_0_compat; [done|by apply Qpower_0_lt].
Qed.

(** The quotient of two normal numbers. *)
Lemma SFdiv_value (lo hi lo' hi' : Z) (x y : spec_float) :
  normal lo hi x → normal lo' hi' y →
  -400 ≤ lo → hi ≤ 400 → -400 ≤ lo' → hi' ≤ 400 →
  normal (lo - hi' - 53) (hi - lo' - 51) (x / y)%Number ∧
  (4503599627370495 * (Number_value (x / y)%Number * Number_value y)
     <= 4503599627370496 * Number_value x)%Q.
Proof.
  intros Hx Hy Hlo Hhi Hlo' Hhi'.
  pose proof (normal_value _ _ _ Hy) as Hypos.
  destruct x as [| | |[] ma ea]; try done. destruct y as [| | |[] mb eb]; try done.
  destruct Hx as [Hma Hea], Hy as [Hmb Heb].
  unfold SFdiv, SFdiv_core_binary.
  rewrite !Zdigits2_53 by done. unfold fexp, emin. cbv zeta.
  replace (Z.min (Z.max (53 + ea - (53 + eb) - 53) (3 - 1024 - 53)) (ea - eb))
    with (ea - eb - 53) by lia.
  replace (ea - eb - (ea - eb - 53)) with 53 by lia.
  rewrite Z.shiftl_mul_pow2 by lia.
  pose proof (Z_div_mod (Z.pos ma * 2 ^ 53) (Z.pos mb) ltac:(lia)) as Hdiv.
  destruct (Z.div_eucl (Z.pos ma * 2 ^ 53) (Z.pos mb)) as [qz r].
  destruct Hdiv as [Hdiv Hr].
  assert (2 ^ 52 ≤ qz < 2 ^ 54) as Hqz.
  { change (2 ^ 54) with (2 * 2 ^ 53). change (2 ^ 53) with (2 * 2 ^ 52) in *.
    revert Hma Hmb Hdiv Hr. generalize (2 ^ 52). intros E Hma Hmb Hdiv Hr. nia. }
  assert (52 ≤ Z.log2 qz ≤ 53) as Hlog.
  { split; [apply Z.log2_le_pow2; lia|].
    apply Z.lt_succ_r. apply Z.log2_lt_pow2; [lia|]. exact (proj2 Hqz). }
  destruct (binary_round_aux_value qz (ea - eb - 53) (new_location (Z.pos mb) r))
    as (Hn & H1 & _);
    [lia|rewrite Zdigits2_log2 by lia; unfold fexp, emin; lia..|].
  rewrite Zdigits2_log2 in Hn by lia.
  split.
  - destruct (binary_round_aux _ _ _ _ _ _) as [| | |[] q k]; try done.
    cbn [normal] in *. lia.
  - change (xorb false false) with false.
    revert H1. generalize (Number_value (binary_round_aux 53 1024 false qz
                                           (ea - eb - 53) (new_location (Z.pos mb) r))).
    intros vz H1. rewrite !Number_value_finite in *.
    assert (2 ^ ea == 2 ^ 53 * 2 ^ (ea - eb - 53) * 2 ^ eb)%Q as Hpow.
    { rewrite <- !Qpower_plus by done. by replace (53 + (ea - eb - 53) + eb) with ea by lia. }
    rewrite Hpow.
    assert (0 < 2 ^ (ea - eb - 53))%Q as Hw1 by (by apply Qpower_0_lt).
    assert (0 < 2 ^ eb)%Q as Hw2 by (by apply Qpower_0_lt).
    assert (Z.pos mb * qz ≤ Z.pos ma * 2 ^ 53) as Hle by lia.
    rewrite Zle_Qle, !inject_Z_mult in Hle.
    change (inject_Z (2 ^ 53)) with (2 ^ 53)%Q in Hle.
    revert H1 Hle Hw1 Hw2 Hypos.
    generalize (inject_Z (Z.pos ma)) (inject_Z (Z.pos mb)) (inject_Z qz)
               (2 ^ (ea - eb - 53))%Q (2 ^ eb)%Q (2 ^ 53)%Q.
    intros a b c w1 w2 E H1 Hle Hw1 Hw2 Hypos.
    assert (0 < w1 * w2)%Q as Hw by (by apply Qmult_lt_0_compat).
    assert (b * c * (w1 * w2) <= a * E * (w1 * w2))%Q as Hscaled
      by (apply Qmult_le_compat_r; [done|by apply Qlt_le_weak]).
    assert (0 < b * w2)%Q as Hbw by done.
    assert (4503599627370495 * vz * (b * w2) <= 4503599627370496 * (c * w1) * (b * w2))%Q
      as Hscaled' by (apply Qmult_le_compat_r; [done|by apply Qlt_le_weak]).
    lra.
Qed.

(** The product of two normal numbers. *)
Lemma SFmul_value (lo hi lo' hi' : Z) (x y : spec_float) :
  normal lo hi x → normal lo' hi' y →
  -400 ≤ lo → hi ≤ 400 → -400 ≤ lo' → hi' ≤ 400 →
  normal (lo + lo' + 52) (hi + hi' + 54) (x * y)%Number ∧
  (4503599627370495 * Number_value (x * y)%Number
     <= 4503599627370496 * (Number_value x * Number_value y))%Q.
Proof.
  intros Hx Hy Hlo Hhi Hlo' Hhi'.
  destruct x as [| | |[] ma ea]; try done. destruct y as [| | |[] mb eb]; try done.
  destruct Hx as [Hma Hea], Hy as [Hmb Heb].
  unfold SFmul. change (xorb false false) with false.
  assert (2 ^ 104 ≤ Z.pos (ma * mb) < 2 ^ 106) as Hm.
  { rewrite Pos2Z.inj_mul.
    change (2 ^ 104) with (2 ^ 52 * 2 ^ 52). change (2 ^ 106) with (2 ^ 53 * 2 ^ 53).
    split; [apply Z.mul_le_mono_nonneg; lia|apply Z.mul_lt_mono_nonneg; lia]. }
  assert (104 ≤ Z.log2 (Z.pos (ma * mb)) ≤ 105) as Hlog.
  { split; [apply Z.log2_le_pow2; lia|].
    apply Z.lt_succ_r. apply Z.log2_lt_pow2; [lia|]. exact (proj2 Hm). }
  destruct (binary_round_aux_value (Z.pos (ma * mb)) (ea + eb) loc_Exact)
    as (Hn & H1 & _);
    [lia|rewrite Zdigits2_log2 by lia; unfold fexp, emin; lia..|].
  rewrite Zdigits2_log2 in Hn by lia.
  split.
  - destruct (binary_round_aux _ _ _ _ _ _) as [| | |[] q k]; try done.
    cbn [normal] in *. lia.
  - eapply Qle_trans; [exact H1|]. apply Qle_lteq. right.
    rewrite !Number_value_finite, Pos2Z.inj_mul, inject_Z_mult, Qpower_plus by done.
    ring.
Qed.
End binary64.

Section quota.
Context `{Runtime}.
Implicit Types (est : StorageEstimate).

(** With a quota that is a positive byte count, the percentage is a number
    and is not negative. *)
Lemma percentage_signed est :
  0 ≤ usage est → 0 < quota est < 2 ^ 1023 → signed false (percentage est).
Proof.
  intros Hu Hq. unfold percentage.
  destruct (Number_of_Z_finite (quota est) Hq) as (q & k & ->).
  rewrite Number_of_Z_100.
  apply Number_of_toFixed_signed, SFmul_signed, SFdiv_signed.
  by apply Number_of_Z_signed.
Qed.

Lemma updateStorageInfo_estimate navigator ui est :
  getStorageEstimate navigator = Resolved (Some est) →
  updateStorageInfo navigator ui =
    {| storageText_textContent :=
         "Using " +:+
         Number_prototype_toFixed 2 (Number_of_Z (usage est) / MiB)%Number +:+
         " MB of " +:+
         Number_prototype_toFixed 2 (Number_of_Z (quota est) / MiB)%Number +:+
         " MB (" +:+ Number_text (percentage est) +:+ "%)";
       storageProgress_width := Number_text (progress_width est) +:+ "%";
       storageInfo_backgroundColor := rgba (red est) (green est) "0.3";
       storageProgress_backgroundColor := rgba (red est) (green est) "0.6" |}.
Proof. intros Hest. unfold updateStorageInfo. by rewrite Hest. Qed.
End quota.

(** C7 (as the code has it).  For an estimate with a quota that is a positive
    byte count (an unsigned 64-bit integer), the width of the progress bar is
    the percentage clamped to [0, 100]: the percentage itself up to 100, and
    100 above.  The percentage printed in the storage text is the unclamped
    one. *)
Theorem updateStorageInfo_clamps_width `{Runtime}
    (navigator : Navigator) (ui : StorageUI) (est : StorageEstimate) :
  0 ≤ usage est → 0 < quota est < 2 ^ 64 →
  getStorageEstimate navigator = Resolved (Some est) →
  let ui' := updateStorageInfo navigator ui in
  let hundred := Number_of_Z 100 in
  (SFleb (Number_of_Z 0) (progress_width est) = true ∧
   SFleb (progress_width est) hundred = true) ∧
  (SFleb (percentage est) hundred = true → progress_width est = percentage est) ∧
  (SFltb hundred (percentage est) = true → progress_width est = hundred) ∧
  storageProgress_width ui' = Number_text (progress_width est) +:+ "%" ∧
  storageText_textContent ui' =
    "Using " +:+
    Number_prototype_toFixed 2 (Number_of_Z (usage est) / MiB)%Number +:+
    " MB of " +:+
    Number_prototype_toFixed 2 (Number_of_Z (quota est) / MiB)%Number +:+
    " MB (" +:+ Number_text (percentage est) +:+ "%)".
Proof.
  intros Hu Hq Hest ui' hundred.
  assert (signed false (percentage est)) as Hp.
  { apply percentage_signed; [done|]. split; [lia|].
    apply Z.lt_trans with (2 ^ 64); [lia|done]. }
  subst ui' hundred. rewrite (updateStorageInfo_estimate _ _ _ Hest).
  unfold progress_width. rewrite Number_of_Z_100.
  destruct (Math_min_finite (percentage est) 7036874417766400 (-46) Hp)
    as (Hrange & Hbelow & Habove).
  done.
Qed.

Lemma updateStorageInfo_clamps_width_sample :
  let est := {| usage := 3 * 1024 * 1024; quota := 4 * 1024 * 1024 |} in
  let ui' := @updateStorageInfo Sample.engine (Sample.reporting est) Sample.blank_ui in
  let hundred := Number_of_Z 100 in
  (0 ≤ usage est ∧ 0 < quota est < 2 ^ 64 ∧
   getStorageEstimate (Sample.reporting est) = Resolved (Some est)) ∧
  (SFleb (Number_of_Z 0) (progress_width est) = true ∧
   SFleb (progress_width est) hundred = true) ∧
  (SFleb (percentage est) hundred = true → progress_width est = percentage est) ∧
  (SFltb hundred (percentage est) = true → progress_width est = hundred) ∧
  storageProgress_width ui' = "75%" ∧
  storageText_textContent ui' = "Using 3.00 MB of 4.00 MB (75%)".
Proof.
  intros est ui' hundred.
  assert (0 ≤ usage est) as Hu by (simpl; lia).
  assert (0 < quota est < 2 ^ 64) as Hq by (simpl; lia).
  assert (getStorageEstimate (Sample.reporting est) = Resolved (Some est)) as He
    by reflexivity.
  split; [done|].
  exact (@updateStorageInfo_clamps_width Sample.engine
           (Sample.reporting est) Sample.blank_ui est Hu Hq He).
Defined.

(** C7 (as stated) fails: with usage at twice a positive quota the bar width
    is held at 100, while the text reports 200% and the colours are computed
    from 200 as well. *)
Lemma updateStorageInfo_over_quota :
  0 < quota Sample.over_quota ∧
  @updateStorageInfo Sample.engine (Sample.reporting Sample.over_quota) Sample.blank_ui =
    {| storageText_textContent := "Using 200.00 MB of 100.00 MB (200%)";
       storageProgress_width := "100%";
       storageInfo_backgroundColor := "rgba(510, -255, 0, 0.3)";
       storageProgress_backgroundColor := "rgba(510, -255, 0, 0.6)" |} ∧
  percentage Sample.over_quota = Number_of_Z 200 ∧
  SFleb (percentage Sample.over_quota) (Number_of_Z 100) = false.
Proof. repeat split; by vm_compute. Qed.

(** Decimals as [Number] reads them: a tenth is the binary64 number
    0x1.999999999999ap-4, and 28.7 is 0x1.cb33333333333p+4. *)
Example tenths_read :
  tenths 1 = S754_finite false 7205759403792794 (-56) ∧
  tenths 287 = S754_finite false 8078331831595827 (-48) ∧
  tenths 1000 = Number_of_Z 100.
Proof. repeat split; by vm_compute. Qed.

(** The used share is computed in binary64: 23 MiB of 80 MiB is 28.75% as a
    fraction, the product of the rounded quotient and 100 lies just below
    28.75, and the percentage is the number 28.7. *)
Example percentage_23_of_80 :
  let est := {| usage := 23 * 1024 * 1024; quota := 80 * 1024 * 1024 |} in
  (Number_of_Z (usage est) / Number_of_Z (quota est) * Number_of_Z 100)%Number
    = S754_finite false 8092405580431359 (-48) ∧
  percentage est = (Number_of_Z 287 / Number_of_Z 10)%Number ∧
  (Number_value (percentage est) == 8078331831595827 # 2 ^ 48)%Q.
Proof. repeat split; by vm_compute. Qed.

(** ** Export formatter *)

Section formatter.
Context `{Runtime}.
Implicit Types (s t : string) (entry : Entry).

Lemma trimStart_template c head rest :
  is_space c = false →
  trimStart (String "010" (String c head) +:+ rest) = String c head +:+ rest.
Proof. intros Hc. simpl. by rewrite Hc. Qed.

Lemma trimEnd_app s t :
  trimEnd t ≠ EmptyString → trimEnd (s +:+ t) = s +:+ trimEnd t.
Proof.
  intros Ht. induction s as [|c s IH]; [done|].
  change (String c s +:+ ?u) with (String c (s +:+ u)). simpl.
  rewrite IH. destruct (s +:+ trimEnd t) eqn:E; [|done].
  destruct s; [done|discriminate E].
Qed.

Lemma trimEnd_app_nonempty s t :
  trimEnd t ≠ EmptyString → trimEnd (s +:+ t) ≠ EmptyString.
Proof.
  intros Ht. rewrite trimEnd_app by done.
  destruct s; [done|discriminate].
Qed.

Lemma photoInfo_fields a b :
  length (photos a) = length (photos b) →
  totalSize (photos a) = totalSize (photos b) →
  photoInfo a = photoInfo b.
Proof.
  unfold photoInfo. intros Hlen Hsize.
  destruct (photos a), (photos b); try discriminate Hlen; [done|].
  by rewrite Hlen, Hsize.
Qed.
End formatter.

(** C5 (as the code has it).  [createShareText] puts the category, the
    status and the description (or the stock phrase when it is empty) into
    the report as they are, between the fixed lines of the template; nothing
    is escaped. *)
Theorem createShareText_verbatim `{Runtime} (entry : Entry) :
  createShareText entry =
  "━━━━━━━━━━━━━━━━━━━━
📋 DATA ENTRY REPORT
━━━━━━━━━━━━━━━━━━━━

📂 Category: " +:+ category entry +:+ "
✅ Status: " +:+ status entry +:+ "

📝 Description:
" +:+ (match description entry with
       | EmptyString => "No description provided"
       | text => text
       end) +:+ "

" +:+ locationText entry +:+ "

" +:+ photoInfo entry +:+ "

⏰ Timestamp: " +:+ Date_toLocaleString (timestamp entry) +:+ "

━━━━━━━━━━━━━━━━━━━━
Generated by Data Collector App".
Proof.
  unfold createShareText, trim.
  rewrite trimStart_template by reflexivity.
  repeat (rewrite trimEnd_app
            by (repeat apply trimEnd_app_nonempty; by vm_compute)).
  reflexivity.
Qed.

(** C5 (as stated) fails: the markup of a description reaches the report
    unescaped. *)
Lemma createShareText_keeps_markup :
  description Sample.tagged = "<b>wet</b> & cold" ∧
  escapeHtml (description Sample.tagged) = "&lt;b&gt;wet&lt;/b&gt; &amp; cold" ∧
  @createShareText Sample.engine Sample.tagged =
  "━━━━━━━━━━━━━━━━━━━━
📋 DATA ENTRY REPORT
━━━━━━━━━━━━━━━━━━━━

📂 Category: Inspection
✅ Status: Open

📝 Description:
<b>wet</b> & cold

📍 Location: Not captured

📸 Photos: None

⏰ Timestamp: 5

━━━━━━━━━━━━━━━━━━━━
Generated by Data Collector App".
Proof. split; [done|]. split; by vm_compute. Qed.

(** C8.  The report is a function of the fields [createShareText] reads and
    of the engine's date rendering: two entries that agree on those fields
    (in particular one entry, formatted twice) give the same text.  The
    function receives the entry only and returns the text only, so it has
    nothing to write to. *)
Theorem createShareText_deterministic `{Runtime} (a b : Entry) :
  same_report_fields a b → createShareText a = createShareText b.
Proof.
  intros (Hc & Hs & Hd & Hl & Hn & Hsz & Ht).
  unfold createShareText, description_or_default, locationText.
  by rewrite Hc, Hs, Hd, Hl, Ht, (photoInfo_fields a b Hn Hsz).
Qed.

Lemma createShareText_deterministic_sample :
  same_report_fields (Sample.entry 1 "first" 5) (Sample.entry 8 "first" 5) ∧
  @createShareText Sample.engine (Sample.entry 1 "first" 5) =
  @createShareText Sample.engine (Sample.entry 8 "first" 5).
Proof.
  assert (same_report_fields (Sample.entry 1 "first" 5) (Sample.entry 8 "first" 5))
    as Hsame by (by repeat split).
  split; [exact Hsame|].
  exact (@createShareText_deterministic Sample.engine _ _ Hsame).
Defined.

(** ** Entry cards *)

Section cards.
Context `{Runtime}.
Implicit Types (s t text : string) (entry : Entry).

Lemma angle_count_app s t :
  angle_count (s +:+ t) = (angle_count s + angle_count t)%nat.
Proof.
  induction s as [|c s IH]; [done|].
  change (String c s +:+ t) with (String c (s +:+ t)). simpl.
  rewrite IH. lia.
Qed.

Lemma angle_count_other c s :
  c ∉ ["<"; ">"]%char → angle_count (String c s) = angle_count s.
Proof. intros Hc. simpl. by rewrite bool_decide_eq_false_2. Qed.

(** A byte that [escapeHtml] copies. *)
Lemma escapeHtml_copies c text :
  c ∉ ["&"; "<"; ">"; "194"]%char →
  escapeHtml (String c text) = String c (escapeHtml text).
Proof.
  intros Hc.
  destruct c as [[] [] [] [] [] [] [] []]; try reflexivity;
    exfalso; apply Hc; compute_done.
Qed.

Lemma escapeHtml_lead text :
  escapeHtml (String "194" text) =
  match text with
  | String "160" rest => "&nbsp;" +:+ escapeHtml rest
  | _ => String "194" (escapeHtml text)
  end.
Proof.
  destruct text as [|c rest]; [done|].
  destruct c as [[] [] [] [] [] [] [] []]; reflexivity.
Qed.

Lemma angle_count_escapeHtml text : angle_count (escapeHtml text) = 0%nat.
Proof.
  induction text as [|c text IH]; [done|].
  destruct (decide (c ∈ ["&"; "<"; ">"; "194"]%char)) as [Hc|Hc].
  - apply elem_of_cons in Hc as [->|Hc]; [by simpl; rewrite angle_count_app, IH|].
    apply elem_of_cons in Hc as [->|Hc]; [by simpl; rewrite angle_count_app, IH|].
    apply elem_of_cons in Hc as [->|Hc]; [by simpl; rewrite angle_count_app, IH|].
    apply list_elem_of_singleton in Hc as ->.
    rewrite escapeHtml_lead.
    assert (angle_count (String "194" (escapeHtml text)) = 0%nat) as Hcopy
      by (by rewrite angle_count_other by compute_done).
    destruct text as [|d rest]; [done|].
    destruct d as [[] [] [] [] [] [] [] []]; exact Hcopy.
  - rewrite escapeHtml_copies by done.
    rewrite angle_count_other; [done|].
    intros Hin. apply Hc.
    apply elem_of_cons in Hin as [->|Hin]; [compute_done|].
    apply list_elem_of_singleton in Hin as ->. compute_done.
Qed.

Lemma angle_count_digits (d : Decimal.uint) :
  angle_count (NilEmpty.string_of_uint d) = 0%nat.
Proof. induction d; simpl; by rewrite ?angle_count_other by compute_done. Qed.

(** A printed integer has no markup in it. *)
Lemma angle_count_Z_toString (z : Z) : angle_count (Z_toString z) = 0%nat.
Proof.
  unfold Z_toString, NilZero.string_of_int, NilZero.string_of_uint.
  destruct (Z.to_int z) as [d|d]; destruct d; try reflexivity;
    rewrite ?angle_count_other by compute_done; apply angle_count_digits.
Qed.

Lemma angle_count_header entry :
  angle_count (createEntryHeader entry) = 36%nat.
Proof.
  unfold createEntryHeader.
  by rewrite !angle_count_app, !angle_count_escapeHtml, !angle_count_Z_toString.
Qed.

Lemma angle_count_description text :
  angle_count (createEntryDescription text) = 4%nat.
Proof.
  unfold createEntryDescription.
  by rewrite !angle_count_app, !angle_count_escapeHtml.
Qed.
End cards.

Section escaped_text.
Implicit Types (s text : string).

Lemma decode_references_copies c s :
  c ≠ "&"%char → decode_references (String c s) = String c (decode_references s).
Proof. intros Hc. cbn [decode_references]. by rewrite decide_False. Qed.

(** Reading back what [escapeHtml] wrote gives the text it was given. *)
Lemma decode_references_escapeHtml text : decode_references (escapeHtml text) = text.
Proof.
  assert (∀ n text, (String.length text < n)%nat →
            decode_references (escapeHtml text) = text) as Hall.
  { clear text. induction n as [|n IH]; intros text Hlen; [lia|].
    destruct text as [|c text]; [done|]. cbn [String.length] in Hlen.
    destruct (decide (c ∈ ["&"; "<"; ">"; "194"]%char)) as [Hc|Hc].
    - apply elem_of_cons in Hc as [->|Hc].
      { change (escapeHtml (String "&" text)) with ("&amp;" +:+ escapeHtml text).
        change (decode_references ("&amp;" +:+ escapeHtml text))
          with (String "&" (decode_references (escapeHtml text))).
        rewrite IH by lia. done. }
      apply elem_of_cons in Hc as [->|Hc].
      { change (escapeHtml (String "<" text)) with ("&lt;" +:+ escapeHtml text).
        change (decode_references ("&lt;" +:+ escapeHtml text))
          with (String "<" (decode_references (escapeHtml text))).
        rewrite IH by lia. done. }
      apply elem_of_cons in Hc as [->|Hc].
      { change (escapeHtml (String ">" text)) with ("&gt;" +:+ escapeHtml text).
        change (decode_references ("&gt;" +:+ escapeHtml text))
          with (String ">" (decode_references (escapeHtml text))).
        rewrite IH by lia. done. }
      apply list_elem_of_singleton in Hc as ->.
      rewrite escapeHtml_lead.
      assert (decode_references (String "194" (escapeHtml text)) = String "194" text)
        as Hcopy by (rewrite decode_references_copies by done; rewrite IH by lia; done).
      destruct text as [|d rest]; [done|].
      destruct (decide (d = "160"%char)) as [->|Hd].
      + change (decode_references ("&nbsp;" +:+ escapeHtml rest))
          with (String "194" (String "160" (decode_references (escapeHtml rest)))).
        cbn [String.length] in Hlen. rewrite IH by lia. done.
      + destruct d as [[] [] [] [] [] [] [] []]; first [exact Hcopy|by destruct Hd].
    - rewrite escapeHtml_copies by done.
      rewrite decode_references_copies.
      + rewrite IH by lia. done.
      + intros ->. apply Hc. compute_done. }
  apply (Hall (S (String.length text))). lia.
Qed.
End escaped_text.

(** C10.  The text [escapeHtml] returns has no [<] and no [>] in it, and read
    back as a page reads it, it is the text that was given.  The card
    builders embed the category, the status and the description only
    through [escapeHtml]: the header is fixed markup around the escaped
    category, the escaped status and the entry's id; the description block
    is fixed markup around the escaped description; and a card is the
    header, the description block when there is a description, and blocks
    made from the location, the photos, the id and the timestamp.  So
    whatever the three fields hold, the header has the 36 angle brackets of
    its template, the description block its 4, and the whole card as many
    as the card of any entry that differs in its free text only. *)
Theorem entry_cards_escape_free_text `{Runtime} :
  (∀ text, angle_count (escapeHtml text) = 0%nat) ∧
  (∀ text, decode_references (escapeHtml text) = text) ∧
  (∃ (before between : string) (actions : Z → string),
     ∀ entry, createEntryHeader entry =
       before +:+ escapeHtml (category entry) +:+
       between +:+ escapeHtml (status entry) +:+ actions (id entry)) ∧
  (∃ before after : string,
     ∀ text, createEntryDescription text = before +:+ escapeHtml text +:+ after) ∧
  (∃ blocks : option Location → list Photo → Z → Z → string,
     ∀ entry, createEntryCard entry =
       createEntryHeader entry +:+
       (match description entry with
        | EmptyString => ""
        | text => createEntryDescription text
        end) +:+
       blocks (location entry) (photos entry) (id entry) (timestamp entry)) ∧
  (∀ entry, angle_count (createEntryHeader entry) = 36%nat) ∧
  (∀ text, angle_count (createEntryDescription text) = 4%nat) ∧
  (∀ a b, same_but_free_text a b →
     angle_count (createEntryCard a) = angle_count (createEntryCard b)).
Proof.
  split; [exact angle_count_escapeHtml|].
  split; [exact decode_references_escapeHtml|].
  split; [|split; [|split; [|split; [exact angle_count_header|
                                     split; [exact angle_count_description|]]]]].
  - eexists _, _, (λ i, _ +:+ Z_toString i +:+ _ +:+ Z_toString i +:+ _).
    intros entry. reflexivity.
  - eexists _, _. intros text. reflexivity.
  - exists (λ loc taken i t,
              (match loc with
               | Some l => createEntryLocation l
               | None => ""
               end) +:+
              (match taken with
               | [] => ""
               | _ => createEntryPhotos taken
               end) +:+
              createEntryFooter
                {| id := i; category := ""; status := ""; description := "";
                   location := loc; photos := taken; timestamp := t |}).
    intros entry. reflexivity.
  - intros a b (Hid & Hloc & Hphotos & Htime & Hempty).
    unfold createEntryCard, createEntryFooter.
    rewrite !angle_count_app, !angle_count_header, Hid, Hloc, Hphotos, Htime.
    destruct (description a) as [|c s] eqn:Ea, (description b) as [|c' s'] eqn:Eb.
    + done.
    + by destruct Hempty as [Hempty _]; specialize (Hempty eq_refl).
    + by destruct Hempty as [_ Hempty]; specialize (Hempty eq_refl).
    + by rewrite !angle_count_description.
Qed.

(** ** Checks of the model on the scenarios of the design document *)

Example formatBytes_two_MiB : formatBytes 2097152 = "2048.0 KB".
Proof. by vm_compute. Qed.

Example toFixed_rounds_half_up : toFixed 0 (5 # 2) = "3" ∧ toFixed 6 (1 # 3) = "0.333333".
Proof. split; by vm_compute. Qed.

Example base64_padding : base64 "Ma" = "TWE=" ∧ base64 "Man" = "TWFu".
Proof. split; by vm_compute. Qed.

(** An 11 MiB PNG is turned away as too large. *)
Example photo_filter_large_png :
  photo_filter Sample.large_png = (false, [Warn "File too large: b.png (11264.0 KB)"]).
Proof. by vm_compute. Qed.

(** A photo of 2 MiB goes through, and a saved entry lists it with its
    size. *)
Example save_then_list_with_photo :
  let file := {| f_name := "site.jpg"; f_type := "image/jpeg";
                 f_size := 2097152; f_content := "" |} in
  let photo := {| p_data := "data:image/jpeg;base64,"; p_name := "site.jpg";
                  p_type := "image/jpeg"; p_size := 2097152; p_timestamp := 10 |} in
  let entry := {| id := 11; category := "Inspection"; status := "Open";
                  description := ""; location := None; photos := [photo];
                  timestamp := 11 |} in
  (validatePhotoFiles [file]).1 = [file] ∧
  convertPhotoToBase64 10 true file = Resolved photo ∧
  ((saveToIndexedDB healthy entry;; getAllFromIndexedDB healthy) fresh_db).1
    = Resolved [entry].
Proof. repeat split; by vm_compute. Qed.

(** Saving, deleting and listing again finds nothing under the id. *)
Example save_delete_list :
  ((saveToIndexedDB healthy Sample.first;;
    deleteFromIndexedDB healthy 1;;
    getAllFromIndexedDB healthy) fresh_db).1 = Resolved [].
Proof. by vm_compute. Qed.

Example createEntryDescription_escaped :
  createEntryDescription "<b>wet</b> & cold" =
  markup "
        <div class='entry-description'>&lt;b&gt;wet&lt;/b&gt; &amp; cold</div>
    ".
Proof. by vm_compute. Qed.

(** ** More on the record store *)

Section store_outcomes.
Implicit Types (db : IDBDatabase) (env : Medium) (os : gmap Z Entry) (l : list Entry).

(** Opening never touches the records, whatever the database and the
    medium. *)
Lemma initDB_entries env db : entries_of (initDB env db).2 = entries_of db.
Proof.
  unfold initDB. destruct (open_error env); [done|].
  destruct (decide (DB_VERSION < version db)); [done|].
  destruct (decide (version db < DB_VERSION)); [|done].
  unfold entries_of, upgrade; simpl.
  destruct (objectStores db !! STORE_NAME) as [os|] eqn:E; [by rewrite E|].
  by rewrite lookup_insert_eq.
Qed.

(** A write either commits and resolves, or rejects and keeps the records. *)
Lemma transaction_outcome env db (f : gmap Z Entry → gmap Z Entry) :
  let r := (initDB env;; os ← objectStore; request env;; commit (f os)) db in
  (r.1 = Resolved () ∧ entries_of r.2 = f (entries_of db)) ∨
  (∃ err, r.1 = Rejected err ∧ entries_of r.2 = entries_of db).
Proof.
  pose proof (initDB_entries env db) as Hsame.
  unfold mbind, Async_bind, await.
  destruct (initDB env db) as [[[]|err] db1]; simpl in *; [|right; by eexists].
  unfold objectStore, entries_of in *.
  destruct (objectStores db1 !! STORE_NAME) as [os|] eqn:E; simpl in *;
    [|right; eexists; split; [done|]; by rewrite E].
  unfold request. destruct (request_error env) as [err|]; simpl;
    [right; eexists; split; [done|]; by rewrite E|].
  left. split; [done|]. rewrite lookup_insert_eq. simpl. by rewrite Hsame.
Qed.

(** The rejecting cases of a write, read off the cases of its transaction. *)
Ltac rejected_in Hf :=
  simpl in *; destruct Hf as [[[=] _]|(? & [= <-] & ?)]; right; by eexists.

Lemma saveToIndexedDB_outcome env entry db :
  let r := saveToIndexedDB env entry db in
  (r.1 = Resolved (id entry) ∧
   entries_of r.2 = <[id entry := entry]> (entries_of db)) ∨
  (∃ err, r.1 = Rejected err ∧ entries_of r.2 = entries_of db).
Proof.
  pose proof (transaction_outcome env db (λ os, <[id entry := entry]> os)) as Hf.
  unfold saveToIndexedDB. unfold mbind, Async_bind, await in *.
  destruct (initDB env db) as [[[]|?] ?]; [|by rejected_in Hf].
  destruct (objectStore _) as [[?|?] ?]; [|by rejected_in Hf].
  destruct (request env _) as [[[]|?] ?]; [|by rejected_in Hf].
  simpl in *. destruct Hf as [[_ ?]|(? & [=] & _)]. by left.
Qed.

Lemma deleteFromIndexedDB_outcome env key db :
  let r := deleteFromIndexedDB env key db in
  (r.1 = Resolved () ∧ entries_of r.2 = delete key (entries_of db)) ∨
  (∃ err, r.1 = Rejected err ∧ entries_of r.2 = entries_of db).
Proof.
  pose proof (transaction_outcome env db (λ os, delete key os)) as Hf.
  unfold deleteFromIndexedDB. unfold mbind, Async_bind, await in *.
  destruct (initDB env db) as [[[]|?] ?]; [|by rejected_in Hf].
  destruct (objectStore _) as [[?|?] ?]; [|by rejected_in Hf].
  destruct (request env _) as [[[]|?] ?]; [|by rejected_in Hf].
  simpl in *. destruct Hf as [[_ ?]|(? & [=] & _)]. by left.
Qed.

Lemma rejected_save_records env db entry err :
  (saveToIndexedDB env entry db).1 = Rejected err →
  entries_of (saveToIndexedDB env entry db).2 = entries_of db.
Proof.
  intros Hrej.
  destruct (saveToIndexedDB_outcome env entry db) as [[Hres _]|(_ & _ & Hsame)];
    [|done]. rewrite Hres in Hrej. discriminate Hrej.
Qed.

Lemma rejected_delete_records env db key err :
  (deleteFromIndexedDB env key db).1 = Rejected err →
  entries_of (deleteFromIndexedDB env key db).2 = entries_of db.
Proof.
  intros Hrej.
  destruct (deleteFromIndexedDB_outcome env key db) as [[Hres _]|(_ & _ & Hsame)];
    [|done]. rewrite Hres in Hrej. discriminate Hrej.
Qed.

Lemma getAllFromIndexedDB_entries env db :
  entries_of (getAllFromIndexedDB env db).2 = entries_of db.
Proof.
  pose proof (initDB_entries env db) as Hsame.
  unfold getAllFromIndexedDB, mbind, Async_bind, await.
  destruct (initDB env db) as [[[]|err] db1]; simpl in *; [|done].
  unfold objectStore. destruct (objectStores db1 !! STORE_NAME) as [os|];
    simpl; [|done].
  unfold request. by destruct (request_error env).
Qed.

Lemma store_getAll_empty : store_getAll ∅ = [].
Proof. unfold store_getAll. by rewrite map_to_list_empty. Qed.

(** Running one operation after another on a healthy medium. *)
Lemma then_healthy {A B} (m : Async A) (k : Async B) db db' a :
  m db = (Resolved a, db') → (m;; k) db = k db'.
Proof. intros E. unfold mbind, Async_bind, await. by rewrite E. Qed.
End store_outcomes.

Lemma reachable_invariant_sample :
  reachable (saveToIndexedDB healthy Sample.first fresh_db).2 ∧
  store_open (saveToIndexedDB healthy Sample.first fresh_db).2 ∧
  inline_keys (entries_of (saveToIndexedDB healthy Sample.first fresh_db).2).
Proof.
  assert (reachable (saveToIndexedDB healthy Sample.first fresh_db).2) as H
    by exact (reachable_save healthy Sample.first fresh_db reachable_fresh).
  split; [exact H|].
  exact (reachable_invariant _ H).
Defined.

(** X2.  A save or a deletion that rejects, at the open, at the object store
    or at the request, leaves the records exactly as they were. *)
Theorem rejected_write_keeps_records (env : Medium) (db : IDBDatabase) :
  (∀ entry err,
     (saveToIndexedDB env entry db).1 = Rejected err →
     entries_of (saveToIndexedDB env entry db).2 = entries_of db) ∧
  (∀ key err,
     (deleteFromIndexedDB env key db).1 = Rejected err →
     entries_of (deleteFromIndexedDB env key db).2 = entries_of db).
Proof.
  split.
  - intros entry err. apply rejected_save_records.
  - intros key err. apply rejected_delete_records.
Qed.

(** X3.  Listing only reads: whatever the medium answers, the records are
    the same afterwards, and listing a second time settles as the first
    did. *)
Theorem getAllFromIndexedDB_reads_only (env : Medium) (db : IDBDatabase) :
  entries_of (getAllFromIndexedDB env db).2 = entries_of db ∧
  ((getAllFromIndexedDB env;; getAllFromIndexedDB env) db).1
    = (getAllFromIndexedDB env db).1.
Proof.
  split; [apply getAllFromIndexedDB_entries|].
  unfold getAllFromIndexedDB, mbind, Async_bind, await, initDB, request.
  destruct (open_error env) as [err|] eqn:Eopen; [done|].
  destruct (decide (DB_VERSION < version db)) as [|Hle]; [done|].
  destruct (decide (version db < DB_VERSION)) as [Hlt|Hge]; simpl.
  - unfold objectStore, upgrade; simpl.
    destruct (objectStores db !! STORE_NAME) as [os|] eqn:E; simpl.
    + rewrite E; simpl. destruct (request_error env); simpl; [done|].
      rewrite E; simpl. done.
    + rewrite lookup_insert_eq; simpl. destruct (request_error env); simpl; [done|].
      by rewrite lookup_insert_eq.
  - unfold objectStore. destruct (objectStores db !! STORE_NAME) as [os|] eqn:E;
      simpl; [|done].
    destruct (request_error env); simpl; [done|].
    destruct (decide (DB_VERSION < version db)); [done|].
    destruct (decide (version db < DB_VERSION)); [done|].
    by rewrite E.
Qed.

(** X4.  A store without records lists as the empty sequence, not as an
    error; this includes the very first open, which creates the store. *)
Theorem getAllFromIndexedDB_empty (db : IDBDatabase) :
  store_open db → entries_of db = ∅ →
  (getAllFromIndexedDB healthy db).1 = Resolved [].
Proof.
  intros Hopen Hempty.
  destruct (getAllFromIndexedDB_healthy db Hopen) as (db' & E & _).
  by rewrite E, Hempty, store_getAll_empty.
Qed.

Lemma getAllFromIndexedDB_empty_sample :
  (store_open fresh_db ∧ entries_of fresh_db = ∅) ∧
  (getAllFromIndexedDB healthy fresh_db).1 = Resolved [].
Proof.
  assert (store_open fresh_db) as Hopen by (split; [done|by intros [=]]).
  assert (entries_of fresh_db = ∅) as Hempty by reflexivity.
  split; [done|].
  exact (getAllFromIndexedDB_empty fresh_db Hopen Hempty).
Defined.

(** X5.  Opening is idempotent: on a database that was just opened, a second
    open settles the same way and changes nothing more, so the upgrade that
    creates the store runs once. *)
Theorem initDB_idempotent (env : Medium) (db : IDBDatabase) :
  initDB env (initDB env db).2 = initDB env db.
Proof.
  unfold initDB. destruct (open_error env) as [err|]; [done|].
  destruct (decide (DB_VERSION < version db)) as [Hgt|Hle]; simpl.
  - by rewrite decide_True.
  - destruct (decide (version db < DB_VERSION)) as [Hlt|Hge]; simpl; [done|].
    by rewrite decide_False, decide_False.
Qed.

(** X6.  A database left at a later version by a newer release cannot be
    opened: every operation rejects with a version error and the database is
    not touched. *)
Theorem newer_database_rejected (env : Medium) (db : IDBDatabase) :
  DB_VERSION < version db → open_error env = None →
  (∀ entry, saveToIndexedDB env entry db = (Rejected "VersionError", db)) ∧
  (∀ key, deleteFromIndexedDB env key db = (Rejected "VersionError", db)) ∧
  getAllFromIndexedDB env db = (Rejected "VersionError", db).
Proof.
  intros Hnewer Hopen.
  assert (initDB env db = (Rejected "VersionError", db)) as Hinit.
  { unfold initDB. rewrite Hopen. by rewrite decide_True. }
  unfold saveToIndexedDB, deleteFromIndexedDB, getAllFromIndexedDB,
    mbind, Async_bind, await.
  by rewrite Hinit.
Qed.

Lemma newer_database_rejected_sample :
  let db := {| version := 2; objectStores := ∅ |} in
  (DB_VERSION < version db ∧ open_error healthy = None) ∧
  (∀ entry, saveToIndexedDB healthy entry db = (Rejected "VersionError", db)) ∧
  (∀ key, deleteFromIndexedDB healthy key db = (Rejected "VersionError", db)) ∧
  getAllFromIndexedDB healthy db = (Rejected "VersionError", db).
Proof.
  intros db.
  assert (DB_VERSION < version db) as Hnewer by (by vm_compute).
  assert (open_error healthy = None) as Hopen by reflexivity.
  split; [done|].
  exact (newer_database_rejected healthy db Hnewer Hopen).
Defined.

Section stable_sort.
Implicit Types (l : list Entry) (x y : Entry) (t : Z).

(** Where an entry goes into a listing, seen through the entries of one
    timestamp: it passes only newer ones. *)
Lemma sort_insert_filter t x l :
  filter (λ e, timestamp e = t) (sort_insert by_recency x l) =
  filter (λ e, timestamp e = t) (x :: l).
Proof.
  induction l as [|y l IH]; simpl; [done|].
  case_decide as Hcmp; [done|]. unfold by_recency in Hcmp.
  rewrite filter_cons, IH, !filter_cons.
  destruct (decide (timestamp y = t)), (decide (timestamp x = t)); try done.
  lia.
Qed.

Lemma sort_insert_newest_first x l :
  StronglySorted (λ a b, timestamp b ≤ timestamp a) l →
  StronglySorted (λ a b, timestamp b ≤ timestamp a) (sort_insert by_recency x l).
Proof.
  induction 1 as [|y l Hl IH Hy]; simpl; [repeat constructor|].
  case_decide as Hcmp; unfold by_recency in Hcmp.
  - constructor; [by constructor|]. constructor; [lia|].
    eapply Forall_impl; [exact Hy|]. simpl. lia.
  - constructor; [done|]. rewrite sort_insert_Permutation.
    constructor; [lia|done].
Qed.
End stable_sort.

(** X7.  What was just saved is listed: on a healthy medium a save followed
    by a listing resolves with the records of the store after the save, the
    saved entry among them. *)
Theorem save_then_list (db : IDBDatabase) (entry : Entry) :
  store_open db →
  ∃ l, ((saveToIndexedDB healthy entry;; getAllFromIndexedDB healthy) db).1
         = Resolved l ∧
       entry ∈ l ∧
       l ≡ₚ (map_to_list (<[id entry := entry]> (entries_of db))).*2.
Proof.
  intros Hopen.
  destruct (saveToIndexedDB_healthy db entry Hopen) as (db1 & E1 & Hopen1 & Hos1).
  destruct (getAllFromIndexedDB_healthy db1 Hopen1) as (db2 & E2 & _).
  eexists. rewrite (then_healthy _ _ _ _ _ E1), E2. split; [done|].
  assert (Array_sort by_recency (store_getAll (entries_of db1)) ≡ₚ
          (map_to_list (<[id entry := entry]> (entries_of db))).*2) as Hperm.
  { by rewrite Array_sort_Permutation, store_getAll_Permutation, Hos1. }
  split; [|exact Hperm]. rewrite Hperm.
  apply list_elem_of_fmap. exists (id entry, entry). split; [done|].
  apply elem_of_map_to_list, lookup_insert_eq.
Qed.

Lemma save_then_list_sample :
  store_open Sample.db ∧
  ∃ l, ((saveToIndexedDB healthy Sample.first_again;;
         getAllFromIndexedDB healthy) Sample.db).1 = Resolved l ∧
       Sample.first_again ∈ l ∧
       l ≡ₚ (map_to_list (<[id Sample.first_again := Sample.first_again]>
                            (entries_of Sample.db))).*2.
Proof.
  assert (store_open Sample.db) as Hopen.
  { split; [done|]. intros _. by eexists. }
  split; [done|].
  exact (save_then_list Sample.db Sample.first_again Hopen).
Defined.

(** X8.  What was saved and then deleted is gone: after a save and a
    deletion of the same id on a healthy medium, the listing holds no record
    of that id, and holds every other record of the store. *)
Theorem save_delete_then_list (db : IDBDatabase) (entry : Entry) :
  store_open db → inline_keys (entries_of db) →
  ∃ l, ((saveToIndexedDB healthy entry;;
         deleteFromIndexedDB healthy (id entry);;
         getAllFromIndexedDB healthy) db).1 = Resolved l ∧
       Forall (λ e, id e ≠ id entry) l ∧
       l ≡ₚ (map_to_list (delete (id entry) (entries_of db))).*2.
Proof.
  intros Hopen Hkeys.
  destruct (saveToIndexedDB_healthy db entry Hopen) as (db1 & E1 & Hopen1 & Hos1).
  destruct (deleteFromIndexedDB_healthy db1 (id entry) Hopen1)
    as (db2 & E2 & Hopen2 & Hos2).
  destruct (getAllFromIndexedDB_healthy db2 Hopen2) as (db3 & E3 & _).
  eexists. rewrite (then_healthy _ _ _ _ _ E1), (then_healthy _ _ _ _ _ E2), E3.
  split; [done|].
  assert (entries_of db2 = delete (id entry) (entries_of db)) as Hos.
  { by rewrite Hos2, Hos1, delete_insert_eq. }
  assert (Array_sort by_recency (store_getAll (entries_of db2)) ≡ₚ
          (map_to_list (delete (id entry) (entries_of db))).*2) as Hperm.
  { by rewrite Array_sort_Permutation, store_getAll_Permutation, Hos. }
  split; [|exact Hperm]. rewrite Hperm.
  apply Forall_fmap, Forall_forall. intros [k e] Hin. simpl.
  apply elem_of_map_to_list in Hin.
  destruct (decide (k = id entry)) as [->|Hne].
  - by rewrite lookup_delete_eq in Hin.
  - rewrite lookup_delete_ne in Hin by done. by rewrite (Hkeys k e Hin).
Qed.

Lemma save_delete_then_list_sample :
  (store_open fresh_db ∧ inline_keys (entries_of fresh_db)) ∧
  ∃ l, ((saveToIndexedDB healthy Sample.first;;
         deleteFromIndexedDB healthy (id Sample.first);;
         getAllFromIndexedDB healthy) fresh_db).1 = Resolved l ∧
       Forall (λ e, id e ≠ id Sample.first) l ∧
       l ≡ₚ (map_to_list (delete (id Sample.first) (entries_of fresh_db))).*2.
Proof.
  assert (store_open fresh_db) as Hopen by (split; [done|by intros [=]]).
  assert (inline_keys (entries_of fresh_db)) as Hkeys by apply inline_keys_empty.
  split; [done|].
  exact (save_delete_then_list fresh_db Sample.first Hopen Hkeys).
Defined.

(** X9.  The sort of the listing is a stable sort by recency: whatever the
    array, the result holds the same entries, newest timestamp first, and
    the entries of any one timestamp stand in the order they had. *)
Theorem Array_sort_by_recency_stable (l : list Entry) :
  Array_sort by_recency l ≡ₚ l ∧
  StronglySorted (λ a b, timestamp b ≤ timestamp a) (Array_sort by_recency l) ∧
  ∀ t, filter (λ e, timestamp e = t) (Array_sort by_recency l) =
       filter (λ e, timestamp e = t) l.
Proof.
  split; [apply Array_sort_Permutation|]. split.
  - induction l as [|x l IH]; simpl; [constructor|].
    by apply sort_insert_newest_first.
  - intros t. induction l as [|x l IH]; simpl; [done|].
    by rewrite sort_insert_filter, !filter_cons, IH.
Qed.

(** ** Photos of the form *)

Section photos.
Implicit Types (app : App) (files : list File) (photos : list Photo).

Lemma Promise_all_resolved {A} (promises : list (Promise A)) (values : list A) :
  Promise_all promises = Resolved values ↔ promises = Resolved <$> values.
Proof.
  revert values. induction promises as [|[v|err] rest IH]; intros values; simpl.
  - split; [intros [= <-]; done|]. by destruct values.
  - destruct (Promise_all rest) as [vs|err] eqn:E.
    + split.
      * intros [= <-]. simpl. f_equal. by apply IH.
      * destruct values as [|v' values]; [done|]. intros [= -> Hrest].
        apply IH in Hrest as [= ->]. done.
    + split; [done|]. destruct values as [|v' values]; [done|].
      intros [= -> Hrest]. by apply IH in Hrest.
  - split; [done|]. by destruct values.
Qed.

Lemma splice_one_inside {A} (index : Z) (l : list A) :
  0 ≤ index < Z.of_nat (length l) →
  splice_one index l = take (Z.to_nat index) l ++ drop (S (Z.to_nat index)) l.
Proof.
  intros Hin. unfold splice_one. rewrite decide_False by lia.
  rewrite Z.min_l by lia. apply delete_take_drop.
Qed.

Lemma splice_one_past {A} (index : Z) (l : list A) :
  Z.of_nat (length l) ≤ index → splice_one index l = l.
Proof.
  intros Hpast. unfold splice_one. rewrite decide_False by lia.
  rewrite Z.min_r by lia. rewrite Nat2Z.id.
  rewrite delete_take_drop, take_ge, drop_ge by lia. apply app_nil_r.
Qed.

Lemma splice_one_length {A} (index : Z) (l : list A) :
  index < Z.of_nat (length l) → l ≠ [] →
  S (length (splice_one index l)) = length l.
Proof.
  intros Hlt Hne. unfold splice_one.
  assert (0 < length l)%nat by (destruct l; [done|simpl; lia]).
  case_decide.
  - rewrite length_delete; [lia|]. apply lookup_lt_is_Some. lia.
  - rewrite Z.min_l by lia. rewrite length_delete; [lia|].
    apply lookup_lt_is_Some. lia.
Qed.
End photos.

(** X10.  [removePhoto] takes out the photo at the index and no other when
    the index is within the array, and nothing when it is past the end; a
    negative index counts from the end, so it takes out one photo as well.
    The count shown is that of the photos left. *)
Theorem removePhoto_bounds (index : Z) (app : App) :
  let photos := form_photos (formData app) in
  let left := form_photos (formData (removePhoto index app).1) in
  (0 ≤ index < Z.of_nat (length photos) →
     left = take (Z.to_nat index) photos ++ drop (S (Z.to_nat index)) photos) ∧
  (Z.of_nat (length photos) ≤ index → left = photos) ∧
  (index < 0 → photos ≠ [] → S (length left) = length photos) ∧
  head (removePhoto index app).2 =
    Some (set_property "photo-count" "textContent"
            (Z_toString (Z.of_nat (length left)))).
Proof.
  intros photos left. subst photos left. simpl.
  split; [apply splice_one_inside|]. split; [apply splice_one_past|].
  split; [|done].
  intros Hneg Hne. apply splice_one_length; [lia|done].
Qed.

Section capture.
Implicit Types (app : App) (files : list File) (reading : File → option Z).

Lemma Promise_all_rejected {A} (promises : list (Promise A)) :
  Exists (λ p, ∃ err, p = Rejected err) promises →
  ∃ err, Promise_all promises = Rejected err.
Proof.
  induction 1 as [p rest [err ->]|[v|err] rest _ [err' IH]]; simpl.
  - by eexists.
  - rewrite IH. by eexists.
  - by eexists.
Qed.

Lemma all_read reading files :
  Forall (λ file, is_Some (reading file)) files →
  ∃ photos,
    Promise_all ((λ file, match reading file with
                          | Some now => convertPhotoToBase64 now true file
                          | None => convertPhotoToBase64 0 false file
                          end) <$> files) = Resolved photos ∧
    Forall2 (λ file photo,
               p_name photo = f_name file ∧ p_type photo = f_type file ∧
               p_size photo = f_size file ∧ p_data photo = readAsDataURL file ∧
               reading file = Some (p_timestamp photo)) files photos.
Proof.
  induction 1 as [|file files [now Hnow] _ (photos & Hall & Hphotos)].
  - by exists [].
  - rewrite fmap_cons. cbn [Promise_all]. rewrite Hnow, Hall. simpl.
    eexists. split; [done|]. by constructor.
Qed.

Lemma some_unread reading files :
  Exists (λ file, reading file = None) files →
  ∃ message,
    Promise_all ((λ file, match reading file with
                          | Some now => convertPhotoToBase64 now true file
                          | None => convertPhotoToBase64 0 false file
                          end) <$> files) = Rejected message.
Proof.
  intros Hex. apply Promise_all_rejected.
  apply Exists_fmap. eapply Exists_impl; [exact Hex|].
  intros file Hnone. simpl. rewrite Hnone. by eexists.
Qed.
End capture.

(** X11.  [handlePhotoCapture] adds a batch whole or not at all.  When at
    least one file passes validation and every such file is read, the photos
    of exactly those files are appended in order, each with the name, type,
    declared size and data URL of its file.  When no file passes or one
    cannot be read, the application state stays as it was and an error
    dialog is raised. *)
Theorem handlePhotoCapture_all_or_nothing
    (reading : File → option Z) (files : list File) (app : App) :
  let valid := (validatePhotoFiles files).1 in
  let result := handlePhotoCapture reading files app in
  (valid ≠ [] → Forall (λ file, is_Some (reading file)) valid →
   ∃ photos,
     form_photos (formData result.1) = form_photos (formData app) ++ photos ∧
     Forall2 (λ file photo,
                p_name photo = f_name file ∧ p_type photo = f_type file ∧
                p_size photo = f_size file ∧ p_data photo = readAsDataURL file ∧
                reading file = Some (p_timestamp photo)) valid photos) ∧
  (valid = [] ∨ Exists (λ file, reading file = None) valid →
   result.1 = app ∧
   (files ≠ [] →
    ∃ message, alert ("Error processing photos: " +:+ message) ∈ result.2)).
Proof.
  intros valid result. subst valid result.
  destruct files as [|file0 files0].
  { split; [intros Hne; by destruct Hne|]. intros _. by split. }
  unfold handlePhotoCapture. cbv beta iota zeta.
  assert (file0 :: files0 ≠ []) as Hfiles by done.
  revert Hfiles. generalize (file0 :: files0). clear file0 files0. intros files _.
  destruct (validatePhotoFiles files) as [valid events]. cbn [fst snd].
  split.
  - intros Hne Hread.
    destruct (all_read reading valid Hread) as (photos & Hall & Hphotos).
    destruct valid as [|v valid']; [done|].
    rewrite Hall. simpl. by exists photos.
  - intros [->|Hunread].
    + split; [done|]. intros _.
      exists "No valid image files selected". set_solver.
    + destruct (some_unread reading valid Hunread) as (message & Hrej).
      destruct valid as [|v valid']; [by apply Exists_nil in Hunread|].
      rewrite Hrej. simpl. split; [done|]. intros _.
      exists message. set_solver.
Qed.

(** ** Saving and deleting from the page *)

Section handlers.
Context `{Runtime}.
Implicit Types (app : App) (env : Medium) (navigator : Navigator).

Lemma loadEntriesOnStartup_entries env app :
  entries_of (database (loadEntriesOnStartup env app).1) = entries_of (database app).
Proof.
  unfold loadEntriesOnStartup.
  pose proof (getAllFromIndexedDB_entries env (database app)) as Hsame.
  by destruct (getAllFromIndexedDB env (database app)).1.
Qed.

Lemma loadEntriesOnStartup_healthy app :
  store_open (database app) →
  entries (loadEntriesOnStartup healthy app).1 =
    Array_sort by_recency (store_getAll (entries_of (database app))) ∧
  store_open (database (loadEntriesOnStartup healthy app).1).
Proof.
  intros Hopen.
  destruct (getAllFromIndexedDB_healthy _ Hopen) as (db' & E & Hopen' & _).
  unfold loadEntriesOnStartup. by rewrite E.
Qed.

Lemma getAllFromIndexedDB_faulty env (db : IDBDatabase) :
  store_open db → open_error env ≠ None ∨ request_error env ≠ None →
  ∃ err, (getAllFromIndexedDB env db).1 = Rejected err.
Proof.
  intros [Hle Hstore] Hfault.
  unfold getAllFromIndexedDB, mbind, Async_bind, await, initDB.
  destruct (open_error env) as [err|]; [by eexists|].
  destruct Hfault as [?|Hreq]; [done|].
  destruct (decide (DB_VERSION < version db)); [lia|].
  destruct (request_error env) as [err|] eqn:Ereq; [|done].
  unfold request. rewrite Ereq.
  destruct (decide (version db < DB_VERSION)); simpl.
  - unfold objectStore, upgrade; simpl.
    destruct (objectStores db !! STORE_NAME) as [os|] eqn:E; simpl.
    + rewrite E. by eexists.
    + rewrite lookup_insert_eq. by eexists.
  - unfold objectStore. destruct (objectStores db !! STORE_NAME); by eexists.
Qed.

Lemma filled_form_passes (form : FormData) :
  form_category form ≠ EmptyString → form_status form ≠ EmptyString →
  bool_decide (form_category form = EmptyString ∨ form_status form = EmptyString) = false.
Proof. intros Hc Hs. apply bool_decide_eq_false_2. by intros [?|?]. Qed.

(** What a save leaves when the write goes through, whatever the reload
    does. *)
Lemma handleSaveEntry_written now_id now_timestamp env_load navigator app :
  let form := formData app in
  let newEntry := createEntryObject now_id now_timestamp form in
  let result := handleSaveEntry now_id now_timestamp healthy env_load navigator app in
  form_category form ≠ EmptyString → form_status form ≠ EmptyString →
  store_open (database app) →
  ∃ db1,
    saveToIndexedDB healthy newEntry (database app) = (Resolved now_id, db1) ∧
    store_open db1 ∧
    formData result.1 = blank_form ∧
    entries_of (database result.1) = <[now_id := newEntry]> (entries_of (database app)) ∧
    entries result.1 =
      match (getAllFromIndexedDB env_load db1).1 with
      | Resolved listing => listing
      | Rejected _ => []
      end ∧
    database result.1 = (getAllFromIndexedDB env_load db1).2 ∧
    last result.2 = Some (alert "Entry saved successfully!") ∧
    (∀ err, (getAllFromIndexedDB env_load db1).1 = Rejected err →
            alert "Error loading data from database" ∈ result.2).
Proof.
  intros form newEntry result Hc Hs Hopen. subst result. unfold handleSaveEntry.
  fold form. rewrite (filled_form_passes form Hc Hs). fold newEntry.
  destruct (saveToIndexedDB_healthy (database app) newEntry Hopen)
    as (db1 & E1 & Hopen1 & Hos1).
  exists db1. rewrite E1. cbn [fst snd]. split; [done|]. split; [done|].
  set (app1 := {| formData := form; entries := entries app; database := db1;
                  storage_ui := storage_ui app |}).
  pose proof (loadEntriesOnStartup_entries env_load app1) as Hrecords.
  cbn [formData entries database storage_ui]. rewrite Hrecords.
  subst app1. cbn [database]. split; [done|]. split; [by rewrite Hos1|].
  unfold loadEntriesOnStartup. cbn [database].
  destruct (getAllFromIndexedDB env_load db1).1 as [listing|err]; cbn [fst snd entries database].
  - repeat split; try done.
  - repeat split; try done. intros _ _. set_solver.
Qed.
End handlers.

(** X12.  A save that is turned down changes nothing: when the category or
    the status is empty, or when the write to the database rejects, the
    form keeps what the user entered, the cache and the stored records are
    as before, and the last dialog is not the one that reports success. *)
Theorem handleSaveEntry_refused `{Runtime} (now_id now_timestamp : Z)
    (env_save env_load : Medium) (navigator : Navigator) (app : App) :
  let form := formData app in
  let result := handleSaveEntry now_id now_timestamp env_save env_load navigator app in
  form_category form = EmptyString ∨ form_status form = EmptyString ∨
  (∃ err, (saveToIndexedDB env_save (createEntryObject now_id now_timestamp form)
             (database app)).1 = Rejected err) →
  formData result.1 = form ∧
  entries result.1 = entries app ∧
  entries_of (database result.1) = entries_of (database app) ∧
  storage_ui result.1 = storage_ui app ∧
  ∃ message, last result.2 = Some (alert message) ∧
             message ≠ "Entry saved successfully!".
Proof.
  intros form result Hrefused. subst result. unfold handleSaveEntry. fold form.
  destruct (bool_decide (form_category form = EmptyString ∨
                         form_status form = EmptyString)) eqn:Eguard.
  { simpl. repeat split; try done. by eexists. }
  apply bool_decide_eq_false in Eguard.
  destruct Hrefused as [?|[?|[err Hrej]]]; [by destruct Eguard; auto..|].
  pose proof (rejected_save_records env_save (database app)
                (createEntryObject now_id now_timestamp form) err Hrej) as Hsame.
  rewrite Hrej. simpl. repeat split; try done.
  eexists. split; [reflexivity|]. intros Heq. discriminate Heq.
Qed.

Lemma handleSaveEntry_refused_sample :
  let form := formData Scene.filled in
  let result := @handleSaveEntry Sample.engine 7 7 Scene.no_quota_left healthy
                  Sample.no_storage Scene.filled in
  (form_category form = EmptyString ∨ form_status form = EmptyString ∨
   (∃ err, (saveToIndexedDB Scene.no_quota_left (createEntryObject 7 7 form)
              (database Scene.filled)).1 = Rejected err)) ∧
  formData result.1 = form ∧
  entries result.1 = entries Scene.filled ∧
  entries_of (database result.1) = entries_of (database Scene.filled) ∧
  storage_ui result.1 = storage_ui Scene.filled ∧
  ∃ message, last result.2 = Some (alert message) ∧
             message ≠ "Entry saved successfully!".
Proof.
  intros form result.
  assert (form_category form = EmptyString ∨ form_status form = EmptyString ∨
          (∃ err, (saveToIndexedDB Scene.no_quota_left (createEntryObject 7 7 form)
                     (database Scene.filled)).1 = Rejected err)) as Hrefused.
  { right. right. exists "QuotaExceededError". by vm_compute. }
  split; [exact Hrefused|].
  exact (@handleSaveEntry_refused Sample.engine 7 7 Scene.no_quota_left healthy
           Sample.no_storage Scene.filled Hrefused).
Defined.

(** X13.  A save that goes through stores the form as one entry and clears
    the form: with category and status filled in, on a healthy medium, the
    entry built from the form is filed under its id, every other record is
    kept, the cache is the listing of the store with the new entry in it,
    the form is blank again and the last dialog reports success. *)
Theorem handleSaveEntry_saved `{Runtime} (now_id now_timestamp : Z)
    (navigator : Navigator) (app : App) :
  let form := formData app in
  let newEntry := createEntryObject now_id now_timestamp form in
  let result := handleSaveEntry now_id now_timestamp healthy healthy navigator app in
  form_category form ≠ EmptyString → form_status form ≠ EmptyString →
  store_open (database app) →
  formData result.1 = blank_form ∧
  entries_of (database result.1) = <[now_id := newEntry]> (entries_of (database app)) ∧
  newEntry ∈ entries result.1 ∧
  entries result.1 ≡ₚ (map_to_list (entries_of (database result.1))).*2 ∧
  last result.2 = Some (alert "Entry saved successfully!").
Proof.
  intros form newEntry result Hc Hs Hopen.
  destruct (handleSaveEntry_written now_id now_timestamp healthy navigator app
              Hc Hs Hopen) as (db1 & E1 & Hopen1 & Hform & Hrecords & Hcache & _ & Hlast & _).
  fold form newEntry result in Hform, Hrecords, Hcache, Hlast.
  destruct (getAllFromIndexedDB_healthy db1 Hopen1) as (db2 & E2 & _ & Hsame).
  rewrite E2 in Hcache. simpl in Hcache.
  assert (entries_of db1 = <[now_id := newEntry]> (entries_of (database app))) as Hos1.
  { destruct (saveToIndexedDB_healthy (database app) newEntry Hopen)
      as (db1' & E1' & _ & Hos).
    pose proof (eq_trans (eq_sym E1') E1) as Heq. by injection Heq as ->. }
  split; [done|]. split; [done|].
  assert (entries result.1 ≡ₚ
          (map_to_list (<[now_id := newEntry]> (entries_of (database app)))).*2)
    as Hperm.
  { by rewrite Hcache, Array_sort_Permutation, store_getAll_Permutation, Hos1. }
  split; [|split; [by rewrite Hrecords|done]].
  rewrite Hperm. apply list_elem_of_fmap. exists (now_id, newEntry).
  split; [done|]. apply elem_of_map_to_list, lookup_insert_eq.
Qed.

Lemma handleSaveEntry_saved_sample :
  let form := formData Scene.filled in
  let newEntry := createEntryObject 7 8 form in
  let result := @handleSaveEntry Sample.engine 7 8 healthy healthy
                  Sample.no_storage Scene.filled in
  (form_category form ≠ EmptyString ∧ form_status form ≠ EmptyString ∧
   store_open (database Scene.filled)) ∧
  formData result.1 = blank_form ∧
  entries_of (database result.1)
    = <[7 := newEntry]> (entries_of (database Scene.filled)) ∧
  newEntry ∈ entries result.1 ∧
  entries result.1 ≡ₚ (map_to_list (entries_of (database result.1))).*2 ∧
  last result.2 = Some (alert "Entry saved successfully!").
Proof.
  intros form newEntry result.
  assert (form_category form ≠ EmptyString) as Hc by (intros Heq; discriminate Heq).
  assert (form_status form ≠ EmptyString) as Hs by (intros Heq; discriminate Heq).
  assert (store_open (database Scene.filled)) as Hopen
    by (split; [done|by intros [=]]).
  split; [done|].
  exact (@handleSaveEntry_saved Sample.engine 7 8 Sample.no_storage Scene.filled
           Hc Hs Hopen).
Defined.

(** X14.  Two entries saved within one millisecond leave one: the id of an
    entry is the clock reading, so the second save files its entry where the
    first one was.  The store ends as if only the second entry had been
    saved, and the cache holds no other entry of that id. *)
Theorem same_millisecond_overwrites `{Runtime} (now time1 time2 : Z)
    (navigator : Navigator) (category2 status2 description2 : string) (app : App) :
  let app1 := (handleSaveEntry now time1 healthy healthy navigator app).1 in
  let typed := fill_form category2 status2 description2 app1 in
  let app2 := (handleSaveEntry now time2 healthy healthy navigator typed).1 in
  let second := createEntryObject now time2 (formData typed) in
  form_category (formData app) ≠ EmptyString →
  form_status (formData app) ≠ EmptyString →
  category2 ≠ EmptyString → status2 ≠ EmptyString →
  store_open (database app) → inline_keys (entries_of (database app)) →
  entries_of (database app2) = <[now := second]> (entries_of (database app)) ∧
  Forall (λ e, id e = now → e = second) (entries app2).
Proof.
  intros app1 typed app2 second Hc1 Hs1 Hc2 Hs2 Hopen Hkeys.
  destruct (handleSaveEntry_written now time1 healthy navigator app Hc1 Hs1 Hopen)
    as (db1 & _ & Hopen1 & _ & Hrecords1 & _ & Hdb1 & _).
  fold app1 in Hrecords1, Hdb1.
  assert (store_open (database typed)) as Hopen_typed.
  { destruct (getAllFromIndexedDB_healthy db1 Hopen1) as (db1' & E & Hopen1' & _).
    subst typed. simpl. rewrite Hdb1, E. done. }
  destruct (handleSaveEntry_written now time2 healthy navigator typed Hc2 Hs2
              Hopen_typed) as (db2 & _ & Hopen2 & _ & Hrecords2 & Hcache2 & Hdb2 & _).
  fold app2 second in Hrecords2, Hcache2, Hdb2.
  assert (entries_of (database app2) = <[now := second]> (entries_of (database app)))
    as Hrecords.
  { rewrite Hrecords2. subst typed. simpl. rewrite Hrecords1.
    apply insert_insert_eq. }
  split; [exact Hrecords|].
  destruct (getAllFromIndexedDB_healthy db2 Hopen2) as (db2' & E & _ & Hsame).
  rewrite E in Hcache2, Hdb2. simpl in Hcache2, Hdb2.
  rewrite Hdb2, Hsame in Hrecords.
  rewrite Hcache2, Hrecords, Array_sort_Permutation, store_getAll_Permutation.
  apply Forall_fmap, Forall_forall. intros [k e] Hin Hid. simpl in *.
  apply elem_of_map_to_list in Hin.
  destruct (decide (k = now)) as [->|Hne].
  - rewrite lookup_insert_eq in Hin. by injection Hin.
  - rewrite lookup_insert_ne in Hin by done.
    specialize (Hkeys k e Hin). simpl in Hkeys. congruence.
Qed.

Lemma same_millisecond_overwrites_sample :
  let app1 := (@handleSaveEntry Sample.engine 7 7 healthy healthy
                 Sample.no_storage Scene.filled).1 in
  let typed := fill_form "Repair" "Done" "pump replaced" app1 in
  let app2 := (@handleSaveEntry Sample.engine 7 7 healthy healthy
                 Sample.no_storage typed).1 in
  let second := createEntryObject 7 7 (formData typed) in
  (form_category (formData Scene.filled) ≠ EmptyString ∧
   form_status (formData Scene.filled) ≠ EmptyString ∧
   "Repair" ≠ EmptyString ∧ "Done" ≠ EmptyString ∧
   store_open (database Scene.filled) ∧
   inline_keys (entries_of (database Scene.filled))) ∧
  entries_of (database app2)
    = <[7 := second]> (entries_of (database Scene.filled)) ∧
  Forall (λ e, id e = 7 → e = second) (entries app2).
Proof.
  intros app1 typed app2 second.
  assert (form_category (formData Scene.filled) ≠ EmptyString) as Hc1
    by (intros Heq; discriminate Heq).
  assert (form_status (formData Scene.filled) ≠ EmptyString) as Hs1
    by (intros Heq; discriminate Heq).
  assert ("Repair" ≠ EmptyString) as Hc2 by (intros Heq; discriminate Heq).
  assert ("Done" ≠ EmptyString) as Hs2 by (intros Heq; discriminate Heq).
  assert (store_open (database Scene.filled)) as Hopen
    by (split; [done|by intros [=]]).
  assert (inline_keys (entries_of (database Scene.filled))) as Hkeys
    by apply inline_keys_empty.
  split; [done|].
  exact (@same_millisecond_overwrites Sample.engine 7 7 7 Sample.no_storage
           "Repair" "Done" "pump replaced" Scene.filled Hc1 Hs1 Hc2 Hs2 Hopen Hkeys).
Defined.

(** X15.  A save whose reload fails still reports success: when the write
    goes through and the listing that follows rejects, the entry is in the
    store, the cache is emptied, an error dialog for the load is raised and
    the last dialog says the entry was saved. *)
Theorem handleSaveEntry_reload_fails `{Runtime} (now_id now_timestamp : Z)
    (env_load : Medium) (navigator : Navigator) (app : App) :
  let form := formData app in
  let newEntry := createEntryObject now_id now_timestamp form in
  let result := handleSaveEntry now_id now_timestamp healthy env_load navigator app in
  form_category form ≠ EmptyString → form_status form ≠ EmptyString →
  store_open (database app) →
  open_error env_load ≠ None ∨ request_error env_load ≠ None →
  entries_of (database result.1) !! now_id = Some newEntry ∧
  entries result.1 = [] ∧
  alert "Error loading data from database" ∈ result.2 ∧
  last result.2 = Some (alert "Entry saved successfully!").
Proof.
  intros form newEntry result Hc Hs Hopen Hfault.
  destruct (handleSaveEntry_written now_id now_timestamp env_load navigator app
              Hc Hs Hopen)
    as (db1 & _ & Hopen1 & _ & Hrecords & Hcache & _ & Hlast & Halert).
  fold form newEntry result in Hrecords, Hcache, Hlast, Halert.
  destruct (getAllFromIndexedDB_faulty env_load db1 Hopen1 Hfault) as [err Hrej].
  rewrite Hrej in Hcache.
  split; [by rewrite Hrecords, lookup_insert_eq|].
  split; [done|]. split; [by apply (Halert err)|done].
Qed.

Lemma handleSaveEntry_reload_fails_sample :
  let form := formData Scene.filled in
  let newEntry := createEntryObject 7 8 form in
  let result := @handleSaveEntry Sample.engine 7 8 healthy Scene.no_quota_left
                  Sample.no_storage Scene.filled in
  (form_category form ≠ EmptyString ∧ form_status form ≠ EmptyString ∧
   store_open (database Scene.filled) ∧
   (open_error Scene.no_quota_left ≠ None ∨
    request_error Scene.no_quota_left ≠ None)) ∧
  entries_of (database result.1) !! 7 = Some newEntry ∧
  entries result.1 = [] ∧
  alert "Error loading data from database" ∈ result.2 ∧
  last result.2 = Some (alert "Entry saved successfully!").
Proof.
  intros form newEntry result.
  assert (form_category form ≠ EmptyString) as Hc by (intros Heq; discriminate Heq).
  assert (form_status form ≠ EmptyString) as Hs by (intros Heq; discriminate Heq).
  assert (store_open (database Scene.filled)) as Hopen
    by (split; [done|by intros [=]]).
  assert (open_error Scene.no_quota_left ≠ None ∨
          request_error Scene.no_quota_left ≠ None) as Hfault
    by (right; intros Heq; discriminate Heq).
  split; [done|].
  exact (@handleSaveEntry_reload_fails Sample.engine 7 8 Scene.no_quota_left
           Sample.no_storage Scene.filled Hc Hs Hopen Hfault).
Defined.

(** X16.  A confirmed deletion on a healthy medium removes the record and
    redraws the list from the store: the record of that id is gone from the
    store and from the cache, every other record is in both, and the list
    is drawn from the new cache before the loading indicator is hidden. *)
Theorem deleteEntry_deleted `{Runtime} (navigator : Navigator) (key : Z) (app : App) :
  let result := deleteEntry true healthy healthy navigator key app in
  store_open (database app) → inline_keys (entries_of (database app)) →
  entries_of (database result.1) = delete key (entries_of (database app)) ∧
  Forall (λ e, id e ≠ key) (entries result.1) ∧
  entries result.1 ≡ₚ (map_to_list (delete key (entries_of (database app)))).*2 ∧
  formData result.1 = formData app ∧
  ∃ before, result.2 = before ++ renderEntriesList (entries result.1) ++ hideLoading.
Proof.
  intros result Hopen Hkeys. subst result. unfold deleteEntry. cbn [negb].
  destruct (deleteFromIndexedDB_healthy (database app) key Hopen)
    as (db1 & E1 & Hopen1 & Hos1).
  rewrite E1. cbn [fst snd].
  set (app1 := {| formData := formData app; entries := entries app;
                  database := db1; storage_ui := storage_ui app |}).
  destruct (loadEntriesOnStartup_healthy app1 Hopen1) as [Hcache _].
  pose proof (loadEntriesOnStartup_entries healthy app1) as Hrecords.
  cbn [formData entries database storage_ui].
  rewrite Hrecords, Hcache. subst app1. cbn [database]. rewrite Hos1.
  split; [done|].
  assert (Array_sort by_recency (store_getAll (delete key (entries_of (database app))))
          ≡ₚ (map_to_list (delete key (entries_of (database app)))).*2) as Hperm
    by (by rewrite Array_sort_Permutation, store_getAll_Permutation).
  split; [|split; [exact Hperm|split; [done|]]].
  - rewrite Hperm. apply Forall_fmap, Forall_forall. intros [k e] Hin. simpl.
    apply elem_of_map_to_list in Hin.
    destruct (decide (k = key)) as [->|Hne].
    + by rewrite lookup_delete_eq in Hin.
    + rewrite lookup_delete_ne in Hin by done. by rewrite (Hkeys k e Hin).
  - match goal with
    | |- ∃ before, ?a ++ ?b ++ ?c ++ ?rest = _ => exists (a ++ b ++ c)
    end.
    by rewrite <- !app_assoc.
Qed.

Lemma deleteEntry_deleted_sample :
  let result := @deleteEntry Sample.engine true healthy healthy Sample.no_storage
                  1 Scene.with_entries in
  (store_open (database Scene.with_entries) ∧
   inline_keys (entries_of (database Scene.with_entries))) ∧
  entries_of (database result.1)
    = delete 1 (entries_of (database Scene.with_entries)) ∧
  Forall (λ e, id e ≠ 1) (entries result.1) ∧
  entries result.1
    ≡ₚ (map_to_list (delete 1 (entries_of (database Scene.with_entries)))).*2 ∧
  formData result.1 = formData Scene.with_entries ∧
  ∃ before, result.2 = before ++ @renderEntriesList Sample.engine (entries result.1) ++ hideLoading.
Proof.
  intros result.
  assert (store_open (database Scene.with_entries)) as Hopen.
  { split; [done|]. intros _. by eexists. }
  assert (inline_keys (entries_of (database Scene.with_entries))) as Hkeys.
  { intros k e. unfold entries_of; simpl. rewrite lookup_singleton_eq. simpl.
    intros Hin. apply lookup_insert_Some in Hin as [[<- <-]|[_ Hin]]; [done|].
    apply lookup_singleton_Some in Hin as [<- <-]. done. }
  split; [done|].
  exact (@deleteEntry_deleted Sample.engine Sample.no_storage 1 Scene.with_entries
           Hopen Hkeys).
Defined.

(** X17.  A deletion that is not carried out changes nothing: when the user
    cancels the dialog, or the delete request rejects, the cache, the stored
    records and the form are as before and the list is not redrawn. *)
Theorem deleteEntry_not_done `{Runtime} (confirmed : bool)
    (env_delete env_load : Medium) (navigator : Navigator) (key : Z) (app : App) :
  let result := deleteEntry confirmed env_delete env_load navigator key app in
  confirmed = false ∨
  (∃ err, (deleteFromIndexedDB env_delete key (database app)).1 = Rejected err) →
  entries result.1 = entries app ∧
  entries_of (database result.1) = entries_of (database app) ∧
  formData result.1 = formData app ∧
  storage_ui result.1 = storage_ui app ∧
  Forall (λ effect, ∀ class html, effect ≠ append_child "entries-list" class html)
    result.2.
Proof.
  intros result Hnot. subst result. unfold deleteEntry.
  destruct confirmed; cbn [negb].
  - destruct Hnot as [?|[err Hrej]]; [done|].
    pose proof (rejected_delete_records env_delete (database app) key err Hrej).
    rewrite Hrej. simpl. repeat split; try done.
    repeat (constructor; [by intros ? ?|]). constructor.
  - simpl. repeat split; try done.
    repeat (constructor; [by intros ? ?|]). constructor.
Qed.

Lemma deleteEntry_not_done_sample :
  let result := @deleteEntry Sample.engine false healthy healthy Sample.no_storage
                  1 Scene.with_entries in
  (false = false ∨
   (∃ err, (deleteFromIndexedDB healthy 1 (database Scene.with_entries)).1
             = Rejected err)) ∧
  entries result.1 = entries Scene.with_entries ∧
  entries_of (database result.1) = entries_of (database Scene.with_entries) ∧
  formData result.1 = formData Scene.with_entries ∧
  storage_ui result.1 = storage_ui Scene.with_entries ∧
  Forall (λ effect, ∀ class html, effect ≠ append_child "entries-list" class html)
    result.2.
Proof.
  intros result.
  assert (false = false ∨
          (∃ err, (deleteFromIndexedDB healthy 1 (database Scene.with_entries)).1
                    = Rejected err)) as Hnot by (by left).
  split; [exact Hnot|].
  exact (@deleteEntry_not_done Sample.engine false healthy healthy Sample.no_storage
           1 Scene.with_entries Hnot).
Defined.

(** ** Sharing *)

Section sharing.
Context `{Runtime}.
Implicit Types (host : ShareHost) (entry : Entry) (text : string).

(** The ways a try with photos can end. *)
Lemma tryShareWithPhotos_cases host entry text :
  let r := tryShareWithPhotos host entry text in
  (r.2 = [] ∨
   ∃ title files settled, r.2 = [navigator_share title text (Some files) settled] ∧
     (r.1 = true ↔ settled_by_user (navigator_share title text (Some files) settled))).
Proof.
  unfold tryShareWithPhotos.
  destruct (host_share host) as [share|]; [|by left].
  destruct (convertPhotosToFiles host (photos entry)) as [files|name]; [|by left].
  destruct (host_canShare host) as [canShare|]; [|by left].
  destruct (canShare files); [|by left].
  right. do 3 eexists. split; [reflexivity|]. simpl.
  destruct (share _ text (Some files)) as [[]|name]; simpl; [done|].
  apply bool_decide_eq_true.
Qed.

Lemma tryShareTextOnly_cases host entry text :
  let r := tryShareTextOnly host entry text in
  (r = (false, []) ∨
   ∃ title settled rest, r.2 = navigator_share title text None settled :: rest ∧
     Forall (λ e, ¬ is_window_open e ∧ ¬ settled_by_user e) rest ∧
     (r.1 = true ↔ settled_by_user (navigator_share title text None settled))).
Proof.
  unfold tryShareTextOnly.
  destruct (host_share host) as [share|]; [|by left].
  right. destruct (share _ text None) as [[]|name] eqn:E; simpl.
  - do 3 eexists. split; [reflexivity|]. split; [|done].
    destruct (photos entry); repeat constructor; by intros [].
  - do 3 eexists. split; [reflexivity|]. split; [constructor|]. simpl.
    apply bool_decide_eq_true.
Qed.
End sharing.

(** X18.  WhatsApp is the last resort only: a window is opened only when no
    call of the Web Share API shared the entry or was closed by the user,
    and then it is the last thing done, with the report as the text of the
    wa.me link. *)
Theorem shareEntry_fallback `{Runtime} (host : ShareHost) (key : Z) (app : App) :
  let effects := shareEntry host key app in
  (Exists settled_by_user effects → Forall (λ e, ¬ is_window_open e) effects) ∧
  (∀ url target, window_open url target ∈ effects →
     ∃ entry, List.find (λ e, bool_decide (id e = key)) (entries app) = Some entry ∧
       url = "https://wa.me/?text=" +:+ encodeURIComponent (createShareText entry) ∧
       target = "_blank" ∧
       last effects = Some (window_open url target)).
Proof.
  intros effects. subst effects. unfold shareEntry.
  destruct (List.find _ (entries app)) as [entry|]; [|split; [by intros ?%Exists_nil|set_solver]].
  set (text := createShareText entry).
  assert (∃ r : bool * list Effect,
            match photos entry with
            | [] => (false, [])
            | _ => tryShareWithPhotos host entry text
            end = r ∧
            (r.2 = [] ∨
             ∃ title files settled,
               r.2 = [navigator_share title text (Some files) settled] ∧
               (r.1 = true ↔
                settled_by_user (navigator_share title text (Some files) settled))))
    as ([first effects1] & -> & Hfirst).
  { eexists. split; [reflexivity|]. destruct (photos entry); [by left|].
    apply tryShareWithPhotos_cases. }
  simpl in Hfirst.
  pose proof (tryShareTextOnly_cases host entry text) as Hsecond.
  destruct (tryShareTextOnly host entry text) as [second effects2].
  simpl in Hsecond. cbn [fst snd].
  destruct Hfirst as [->|(title & files & settled & -> & Hsettled)].
  - destruct first.
    + split; [by intros ?%Exists_nil|set_solver].
    + simpl. destruct Hsecond as [[= -> ->]|(title & settled & rest & -> & Hrest & Hsettled)].
      * simpl. split.
        -- intros Hex. apply Exists_cons in Hex as [[]|Hex]. by apply Exists_nil in Hex.
        -- intros url target Hin. apply list_elem_of_singleton in Hin as [= -> ->].
           by exists entry.
      * destruct second.
        -- split.
           ++ intros _. constructor; [by intros []|].
              eapply Forall_impl; [exact Hrest|]. by intros ? [? _].
           ++ intros url target Hin. apply elem_of_cons in Hin as [[=]|Hin].
              rewrite Forall_forall in Hrest. by destruct (Hrest _ Hin) as [[] _].
        -- assert (¬ settled_by_user (navigator_share title text None settled)) as Hno
             by (intros Hs; by apply Hsettled in Hs).
           split.
           ++ intros Hex. exfalso. apply Exists_cons in Hex as [?|Hex]; [done|].
              apply Exists_app in Hex as [Hex|Hex].
              ** rewrite Forall_forall in Hrest. apply Exists_exists in Hex as (e & Hin & He).
                 by destruct (Hrest e Hin) as [_ []].
              ** apply Exists_cons in Hex as [[]|Hex]. by apply Exists_nil in Hex.
           ++ intros url target Hin. apply elem_of_cons in Hin as [[=]|Hin].
              apply elem_of_app in Hin as [Hin|Hin].
              ** rewrite Forall_forall in Hrest. by destruct (Hrest _ Hin) as [[] _].
              ** apply list_elem_of_singleton in Hin as [= -> ->].
                 exists entry. repeat split; try done.
                 exact (last_snoc _ (_ :: rest)).
  - destruct first.
    + split.
      * intros _. constructor; [by intros []|constructor].
      * intros url target Hin. by apply list_elem_of_singleton in Hin as [=].
    + assert (¬ settled_by_user (navigator_share title text (Some files) settled)) as Hno1
        by (intros Hs; by apply Hsettled in Hs).
      simpl. destruct Hsecond as [[= -> ->]|(title2 & settled2 & rest & -> & Hrest & Hsettled2)].
      * simpl. split.
        -- intros Hex. exfalso. apply Exists_cons in Hex as [?|Hex]; [done|].
           apply Exists_cons in Hex as [[]|Hex]. by apply Exists_nil in Hex.
        -- intros url target Hin. apply elem_of_cons in Hin as [[=]|Hin].
           apply list_elem_of_singleton in Hin as [= -> ->]. by exists entry.
      * destruct second.
        -- split.
           ++ intros _. constructor; [by intros []|]. constructor; [by intros []|].
              eapply Forall_impl; [exact Hrest|]. by intros ? [? _].
           ++ intros url target Hin. apply elem_of_cons in Hin as [[=]|Hin].
              apply elem_of_cons in Hin as [[=]|Hin].
              rewrite Forall_forall in Hrest. by destruct (Hrest _ Hin) as [[] _].
        -- assert (¬ settled_by_user (navigator_share title2 text None settled2)) as Hno2
             by (intros Hs; by apply Hsettled2 in Hs).
           split.
           ++ intros Hex. exfalso. apply Exists_cons in Hex as [?|Hex]; [done|].
              apply Exists_cons in Hex as [?|Hex]; [done|].
              apply Exists_app in Hex as [Hex|Hex].
              ** rewrite Forall_forall in Hrest. apply Exists_exists in Hex as (e & Hin & He).
                 by destruct (Hrest e Hin) as [_ []].
              ** apply Exists_cons in Hex as [[]|Hex]. by apply Exists_nil in Hex.
           ++ intros url target Hin. apply elem_of_cons in Hin as [[=]|Hin].
              apply elem_of_cons in Hin as [[=]|Hin].
              apply elem_of_app in Hin as [Hin|Hin].
              ** rewrite Forall_forall in Hrest. by destruct (Hrest _ Hin) as [[] _].
              ** apply list_elem_of_singleton in Hin as [= -> ->].
                 exists entry. repeat split; try done.
                 exact (last_snoc _ (_ :: _ :: rest)).
Qed.

(** X19.  Without the Web Share API every share goes to WhatsApp, and an id
    that is not in the cache shares nothing: the one thing done is opening
    the wa.me link of the report of the first cached entry with that id. *)
Theorem shareEntry_without_web_share `{Runtime} (host : ShareHost) (key : Z) (app : App) :
  host_share host = None →
  shareEntry host key app =
  match List.find (λ e, bool_decide (id e = key)) (entries app) with
  | Some entry =>
      [window_open
         ("https://wa.me/?text=" +:+ encodeURIComponent (createShareText entry))
         "_blank"]
  | None => []
  end.
Proof.
  intros Hnone. unfold shareEntry, tryShareWithPhotos, tryShareTextOnly.
  rewrite Hnone. destruct (List.find _ (entries app)) as [entry|]; [|done].
  by destruct (photos entry).
Qed.

Lemma shareEntry_without_web_share_sample :
  host_share Scene.no_web_share = None ∧
  @shareEntry Sample.engine Scene.no_web_share 2 Scene.with_entries =
  match List.find (λ e, bool_decide (id e = 2)) (entries Scene.with_entries) with
  | Some entry =>
      [window_open
         ("https://wa.me/?text=" +:+
          encodeURIComponent (@createShareText Sample.engine entry))
         "_blank"]
  | None => []
  end.
Proof.
  assert (host_share Scene.no_web_share = None) as Hnone by reflexivity.
  split; [exact Hnone|].
  exact (@shareEntry_without_web_share Sample.engine Scene.no_web_share 2
           Scene.with_entries Hnone).
Defined.

Section uri.
Implicit Types (s : string) (c : ascii).

Lemma hex_digit_unreserved (n : N) : is_unreserved (hex_digit n) = true.
Proof.
  unfold hex_digit. generalize (N.to_nat n). intros k.
  do 16 (destruct k as [|k]; [by vm_compute|]). reflexivity.
Qed.

Lemma percent_reserved : is_unreserved "%" = false.
Proof. by vm_compute. Qed.
End uri.

(** X20.  The text put into the wa.me link cannot leave its parameter: what
    [encodeURIComponent] returns is made of letters, digits, the marks
    [- _ . ! ~ * ' ( )] and percent signs only, so no ampersand, hash,
    equals sign, space or line break of the report reaches the link. *)
Theorem encodeURIComponent_safe (s : string) :
  Forall (λ c, is_unreserved c = true ∨ c = "%"%char)
    (list_ascii_of_string (encodeURIComponent s)) ∧
  Forall (λ c, c ∉ ["&"; "#"; "="; " "; "010"; "?"; "/"]%char)
    (list_ascii_of_string (encodeURIComponent s)).
Proof.
  assert (Forall (λ c, is_unreserved c = true ∨ c = "%"%char)
            (list_ascii_of_string (encodeURIComponent s))) as Hsafe.
  { induction s as [|c s IH]; simpl; [constructor|].
    destruct (is_unreserved c) eqn:Ec; simpl.
    - constructor; [by left|done].
    - constructor; [by right|].
      constructor; [left; apply hex_digit_unreserved|].
      constructor; [left; apply hex_digit_unreserved|done]. }
  split; [exact Hsafe|].
  eapply Forall_impl; [exact Hsafe|]. intros c [Hc| ->]; [|compute_done].
  intros Hin.
  repeat (apply elem_of_cons in Hin as [->|Hin]; [by vm_compute in Hc|]).
  by apply elem_of_nil in Hin.
Qed.

(** X21.  Startup raises the failure dialog exactly when a listener cannot
    be attached or the browser has no [navigator.storage].  When a listener
    cannot be attached that dialog is all that happens: nothing is loaded.
    Otherwise the entries are loaded: on a browser without IndexedDB, or
    when the listing rejects, the last thing shown is the load-error dialog
    and the cache is empty; when the listing resolves on a browser with
    IndexedDB and [navigator.storage], no dialog is raised, the cache is the
    listing and the entry count is written. *)
Theorem initializeApp_outcomes `{Runtime} (listeners : bool) (browser : Browser)
    (env : Medium) (app : App) :
  let failure := alert "Application failed to start. Please refresh the page." in
  let load_error := alert "Error loading data from database" in
  let result := initializeApp listeners browser env app in
  (failure ∈ result.2 ↔
     listeners = false ∨ storage (browser_navigator browser) = None) ∧
  (listeners = false → result = (app, [failure])) ∧
  (listeners = true → has_indexedDB browser = false →
     last result.2 = Some load_error ∧ entries result.1 = []) ∧
  (listeners = true → has_indexedDB browser = true →
     ∀ err, (getAllFromIndexedDB env (database app)).1 = Rejected err →
       last result.2 = Some load_error ∧ entries result.1 = []) ∧
  (listeners = true → has_indexedDB browser = true →
     storage (browser_navigator browser) ≠ None →
     ∀ listing, (getAllFromIndexedDB env (database app)).1 = Resolved listing →
       entries result.1 = listing ∧
       result.2 = [set_property "entry-count" "textContent"
                     (Z_toString (Z.of_nat (length listing)))]).
Proof.
  intros failure load_error result. subst result.
  unfold initializeApp, medium_of, loadEntriesOnStartup, checkBrowserCapabilities.
  destruct listeners; cbn [negb fst snd].
  - split; [|split; [done|split; [|split]]].
    + split.
      * intros Hin. right.
        destruct (storage (browser_navigator browser)) as [manager|]; [|done].
        exfalso. apply elem_of_app in Hin as [Hin|Hin].
        -- destruct (has_indexedDB browser); [by apply elem_of_nil in Hin|].
           apply list_elem_of_singleton in Hin. discriminate Hin.
        -- destruct (getAllFromIndexedDB _ _).1;
             apply list_elem_of_singleton in Hin; discriminate Hin.
      * intros [?|Hnone]; [done|]. rewrite Hnone.
        apply elem_of_app. left. by apply list_elem_of_singleton.
    + intros _ Hno. rewrite Hno.
      assert ((getAllFromIndexedDB
                 {| open_error := Some "ReferenceError";
                    request_error := request_error env |} (database app)).1
              = Rejected "ReferenceError") as -> by reflexivity.
      cbv beta iota zeta. cbn [fst snd entries].
      split; [|done]. by rewrite last_snoc.
    + intros _ Hyes err Herr. rewrite Hyes, Herr.
      cbv beta iota zeta. cbn [fst snd entries].
      split; [|done]. by rewrite last_snoc.
    + intros _ Hyes Hstorage listing Hlisting. rewrite Hyes, Hlisting.
      cbv beta iota zeta. cbn [fst snd entries].
      split; [done|].
      by destruct (storage (browser_navigator browser)).
  - split; [|split; [done|by repeat split]].
    split; [by left|]. intros _. by apply list_elem_of_singleton.
Qed.

(** ** More on validation *)

Section validation.
Implicit Types (file : File) (files : list File).

(** A file that passes is not warned about, a file that does not gets one
    warning. *)
Lemma photo_filter_warnings file :
  (photo_filter file).2 =
  if (photo_filter file).1 then []
  else [if bool_decide (f_type file ∈ CONFIG.SUPPORTED_IMAGE_TYPES)
        then too_large_warning file else unsupported_type_warning file].
Proof.
  unfold photo_filter.
  destruct (bool_decide (f_type file ∈ CONFIG.SUPPORTED_IMAGE_TYPES)); simpl; [|done].
  by destruct (bool_decide (CONFIG.MAX_PHOTO_SIZE < f_size file)).
Qed.

Lemma warnings_of_valid files :
  Forall (λ file, (photo_filter file).1 = true) files →
  concat ((λ file, (photo_filter file).2) <$> files) = [].
Proof.
  induction 1 as [|file files Hok _ IH]; [done|].
  rewrite fmap_cons. simpl. by rewrite IH, photo_filter_warnings, Hok.
Qed.

Lemma warnings_count files :
  length (concat ((λ file, (photo_filter file).2) <$> files)) =
  (length files - length (List.filter (λ file, (photo_filter file).1) files))%nat ∧
  Forall (λ event, is_warning event = true)
    (concat ((λ file, (photo_filter file).2) <$> files)).
Proof.
  induction files as [|file files [IHlen IHwarn]]; [by split|].
  rewrite fmap_cons. cbn [concat List.filter].
  pose proof (List.filter_length_le (λ file, (photo_filter file).1) files) as Hle.
  rewrite photo_filter_warnings. destruct (photo_filter file).1; simpl.
  - split; [|done]. rewrite IHlen. lia.
  - split; [rewrite IHlen; lia|]. constructor; [|done].
    by destruct (bool_decide _).
Qed.

Lemma filter_all_pass files :
  Forall (λ file, (photo_filter file).1 = true)
    (List.filter (λ file, (photo_filter file).1) files).
Proof. apply Forall_forall. intros file Hin%list_elem_of_In. by apply List.filter_In in Hin as [_ ?]. Qed.

Lemma filter_of_valid files :
  Forall (λ file, (photo_filter file).1 = true) files →
  List.filter (λ file, (photo_filter file).1) files = files.
Proof.
  induction 1 as [|file files Hok _ IH]; [done|]. simpl. by rewrite Hok, IH.
Qed.
End validation.

(** X24.  Validation is idempotent: files that passed once pass again, all
    of them and in the same order, with no warning and no dialog. *)
Theorem validatePhotoFiles_idempotent (files : list File) :
  let valid := (validatePhotoFiles files).1 in
  let count := Z_toString (Z.of_nat (length valid)) in
  validatePhotoFiles valid =
  (valid, [Debug "Validating photo files...";
           Debug ("Validated " +:+ count +:+ "/" +:+ count +:+ " files")]).
Proof.
  intros valid count. subst valid count. unfold validatePhotoFiles at 1.
  cbn [fst].
  set (valid := (validatePhotoFiles files).1).
  assert (Forall (λ file, (photo_filter file).1 = true) valid) as Hpass
    by apply filter_all_pass.
  rewrite (filter_of_valid valid Hpass), (warnings_of_valid valid Hpass).
  rewrite decide_False by lia. done.
Qed.

(** X25.  What validation reports: the files kept are a part of the input in
    its order; one warning is logged for each file dropped; and the dialog
    comes up exactly when a file was dropped, with the number of files
    dropped in it. *)
Theorem validatePhotoFiles_report (files : list File) :
  let valid := (validatePhotoFiles files).1 in
  let events := (validatePhotoFiles files).2 in
  let dropped := (length files - length valid)%nat in
  valid `sublist_of` files ∧
  length (List.filter is_warning events) = dropped ∧
  ∀ message,
    Alert message ∈ events ↔
    (0 < dropped)%nat ∧
    message = Z_toString (Z.of_nat dropped) +:+
              " file(s) skipped (unsupported type or too large)".
Proof.
  intros valid events dropped. subst valid events dropped.
  unfold validatePhotoFiles. cbn [fst snd].
  set (valid := List.filter (λ file, (photo_filter file).1) files).
  set (warnings := concat ((λ file, (photo_filter file).2) <$> files)).
  destruct (warnings_count files) as [Hcount Hwarn]. fold valid warnings in Hcount, Hwarn.
  pose proof (List.filter_length_le (λ file, (photo_filter file).1) files) as Hle.
  fold valid in Hle.
  split; [|split].
  - subst valid. clear. induction files as [|file files IH]; [done|]. simpl.
    destruct (photo_filter file).1; by constructor.
  - cbn [List.filter is_warning]. rewrite !List.filter_app.
    assert (List.filter is_warning warnings = warnings) as ->.
    { clear -Hwarn. induction Hwarn as [|e l He _ IH]; [done|]. simpl.
      by rewrite He, IH. }
    rewrite !length_app, Hcount. case_decide; simpl; lia.
  - intros message. rewrite !elem_of_app. split.
    + intros [Hin|[Hin|[Hin|Hin]]].
      * apply list_elem_of_singleton in Hin. discriminate Hin.
      * rewrite Forall_forall in Hwarn. by specialize (Hwarn _ Hin).
      * case_decide; [|by apply elem_of_nil in Hin].
        apply list_elem_of_singleton in Hin as [= ->]. split; [lia|done].
      * apply list_elem_of_singleton in Hin. discriminate Hin.
    + intros [Hpos ->]. right. right. left.
      rewrite decide_True by lia. by apply list_elem_of_singleton.
Qed.

(** ** The encoding of photos *)

Section base64_facts.
Implicit Types (s t : string) (a b c : ascii).

Lemma length_append s t :
  String.length (s +:+ t) = (String.length s + String.length t)%nat.
Proof. induction s as [|a s IH]; [done|]. simpl. by f_equal. Qed.

Lemma base64_length s :
  String.length (base64 s) = (4 * ((String.length s + 2) / 3))%nat.
Proof.
  assert (∀ n s, (String.length s < n)%nat →
            String.length (base64 s) = (4 * ((String.length s + 2) / 3))%nat) as Hall.
  { clear s. induction n as [|n IH]; intros s Hlen; [lia|].
    destruct s as [|a [|b [|c s]]]; try reflexivity.
    cbn [base64 String.length] in *. rewrite IH by lia.
    replace (S (S (S (String.length s))) + 2)%nat
      with (String.length s + 2 + 1 * 3)%nat by lia.
    rewrite Nat.div_add by done. lia. }
  apply (Hall (S (String.length s))). lia.
Qed.

Lemma sextet_value_sextet (n : N) : (n < 64)%N → sextet_value (sextet n) = n.
Proof.
  intros Hn. rewrite <- (N2Nat.id n) at 2. unfold sextet.
  assert (N.to_nat n < 64)%nat as Hk by lia. revert Hk.
  generalize (N.to_nat n). intros k Hk.
  do 64 (destruct k as [|k]; [by vm_compute|]). lia.
Qed.

Lemma sextet_not_pad (n : N) : (n < 64)%N → sextet n ≠ "="%char.
Proof.
  intros Hn. unfold sextet.
  assert (N.to_nat n < 64)%nat as Hk by lia. revert Hk.
  generalize (N.to_nat n). intros k Hk.
  do 64 (destruct k as [|k]; [by vm_compute|]). lia.
Qed.

Lemma sextet_inj (m n : N) : (m < 64)%N → (n < 64)%N → sextet m = sextet n → m = n.
Proof.
  intros Hm Hn Heq.
  by rewrite <- (sextet_value_sextet m), <- (sextet_value_sextet n), Heq.
Qed.
Lemma byte_bound a : (N_of_ascii a < 256)%N.
Proof. apply N_ascii_bounded. Qed.

Lemma N_of_ascii_inj a b : N_of_ascii a = N_of_ascii b → a = b.
Proof.
  intros Heq. by rewrite <- (ascii_N_embedding a), <- (ascii_N_embedding b), Heq.
Qed.

(** Two numbers with the same quotient and remainder are the same. *)
Lemma same_div_mod (d x x' : N) :
  d ≠ 0%N → (x / d = x' / d)%N → (x mod d = x' mod d)%N → x = x'.
Proof.
  intros Hd Hq Hr. rewrite (N.div_mod x d), (N.div_mod x' d) by done.
  by rewrite Hq, Hr.
Qed.

(** A pair packed as [high * d + low] with [low < d] can be read back. *)
Lemma unpack (d high low high' low' : N) :
  (low < d)%N → (low' < d)%N →
  (high * d + low = high' * d + low')%N → high = high' ∧ low = low'.
Proof.
  intros Hl Hl' Heq. apply (N.div_mod_unique d); [done..|].
  by rewrite !(N.mul_comm d).
Qed.

(** The pieces a byte is cut into all fit the alphabet. *)
Lemma byte_pieces a :
  let x := N_of_ascii a in
  (x / 4 < 64 ∧ x mod 4 < 4 ∧ x / 16 < 16 ∧ x mod 16 < 16 ∧
   x / 64 < 4 ∧ x mod 64 < 64)%N.
Proof.
  intros x. pose proof (byte_bound a) as Hx. fold x in Hx.
  repeat split;
    first [ apply N.Div0.div_lt_upper_bound; exact Hx
          | by apply N.mod_upper_bound ].
Qed.

Lemma first_sextets a b a' b' :
  let x := N_of_ascii a in let y := N_of_ascii b in
  let x' := N_of_ascii a' in let y' := N_of_ascii b' in
  sextet (x / 4) = sextet (x' / 4) →
  sextet (x mod 4 * 16 + y / 16) = sextet (x' mod 4 * 16 + y' / 16) →
  a = a' ∧ (y / 16 = y' / 16)%N.
Proof.
  intros x y x' y' H1 H2.
  destruct (byte_pieces a) as (Ha1 & Ha2 & _).
  destruct (byte_pieces a') as (Ha1' & Ha2' & _).
  destruct (byte_pieces b) as (_ & _ & Hb & _).
  destruct (byte_pieces b') as (_ & _ & Hb' & _).
  fold x in Ha1, Ha2. fold x' in Ha1', Ha2'. fold y in Hb. fold y' in Hb'.
  apply sextet_inj in H1; [|done..].
  apply sextet_inj in H2; [|lia..].
  apply unpack in H2 as [Hr Hq]; [|done..].
  split; [|done]. apply N_of_ascii_inj. by apply (same_div_mod 4).
Qed.

Lemma last_sextets b c b' c' :
  let y := N_of_ascii b in let z := N_of_ascii c in
  let y' := N_of_ascii b' in let z' := N_of_ascii c' in
  (y / 16 = y' / 16)%N →
  sextet (y mod 16 * 4 + z / 64) = sextet (y' mod 16 * 4 + z' / 64) →
  b = b' ∧ (z / 64 = z' / 64)%N.
Proof.
  intros y z y' z' Hq H3.
  destruct (byte_pieces b) as (_ & _ & _ & Hb & _).
  destruct (byte_pieces b') as (_ & _ & _ & Hb' & _).
  destruct (byte_pieces c) as (_ & _ & _ & _ & Hc & _).
  destruct (byte_pieces c') as (_ & _ & _ & _ & Hc' & _).
  fold y in Hb. fold y' in Hb'. fold z in Hc. fold z' in Hc'.
  apply sextet_inj in H3; [|lia..].
  apply unpack in H3 as [Hr Hq']; [|done..].
  split; [|done]. apply N_of_ascii_inj. by apply (same_div_mod 16).
Qed.

Lemma base64_inj s t : base64 s = base64 t → s = t.
Proof.
  assert (∀ n s t, (String.length s < n)%nat → base64 s = base64 t → s = t)
    as Hall.
  { clear s t. induction n as [|n IH]; intros s t Hlen Heq; [lia|].
    destruct s as [|a [|b [|c s]]], t as [|a' [|b' [|c' t]]];
      cbn [base64] in Heq; cbv zeta in Heq; try discriminate Heq;
      try reflexivity.
    - injection Heq as H1 H2.
      destruct (first_sextets a "000"%char a' "000"%char) as [-> _]; try done.
      cbv zeta. by rewrite !N.add_0_r.
    - injection Heq as H1 H2 H3.
      destruct (byte_pieces b') as (_ & _ & _ & Hb & _).
      symmetry in H3. apply sextet_not_pad in H3; [done|lia].
    - injection Heq as H1 H2 H3.
      destruct (byte_pieces b') as (_ & _ & _ & Hb & _).
      destruct (byte_pieces c') as (_ & _ & _ & _ & Hc & _).
      symmetry in H3. apply sextet_not_pad in H3; [done|lia].
    - injection Heq as H1 H2 H3.
      destruct (byte_pieces b) as (_ & _ & _ & Hb & _).
      apply sextet_not_pad in H3; [done|lia].
    - injection Heq as H1 H2 H3.
      destruct (first_sextets a b a' b') as [-> Hq]; try done.
      destruct (last_sextets b "000"%char b' "000"%char) as [-> _]; try done.
      cbv zeta. by rewrite !N.add_0_r.
    - injection Heq as H1 H2 H3 H4.
      destruct (byte_pieces c') as (_ & _ & _ & _ & _ & Hc).
      symmetry in H4. apply sextet_not_pad in H4; [done|lia].
    - injection Heq as H1 H2 H3.
      destruct (byte_pieces b) as (_ & _ & _ & Hb & _).
      destruct (byte_pieces c) as (_ & _ & _ & _ & Hc & _).
      apply sextet_not_pad in H3; [done|lia].
    - injection Heq as H1 H2 H3 H4.
      destruct (byte_pieces c) as (_ & _ & _ & _ & _ & Hc).
      apply sextet_not_pad in H4; [done|lia].
    - injection Heq as H1 H2 H3 H4 Hrest.
      destruct (first_sextets a b a' b') as [-> Hq]; try done.
      destruct (last_sextets b c b' c') as [-> Hq']; try done.
      destruct (byte_pieces c) as (_ & _ & _ & _ & _ & Hc).
      destruct (byte_pieces c') as (_ & _ & _ & _ & _ & Hc').
      apply sextet_inj in H4; [|done..].
      assert (c = c') as ->.
      { apply N_of_ascii_inj. by apply (same_div_mod 64). }
      f_equal. f_equal. f_equal. apply (IH s t); [|done].
      cbn [String.length] in Hlen. lia. }
  apply (Hall (S (String.length s))). lia.
Qed.

(** X26. A photo that was read holds a data URL of 13 characters, the media
    type and four characters for every three bytes of the file, the last
    group padded: the stored photo is a third larger than the file. *)
Theorem convertPhotoToBase64_data_length (now : Z) (file : File) (photo : Photo) :
  convertPhotoToBase64 now true file = Resolved photo →
  String.length (p_data photo) =
    (13 + String.length (f_type file) +
     4 * ((String.length (f_content file) + 2) / 3))%nat.
Proof.
  intros [= <-]. cbn [p_data]. unfold readAsDataURL.
  rewrite !length_append, base64_length. cbn [String.length]. lia.
Qed.

Lemma convertPhotoToBase64_data_length_sample :
  convertPhotoToBase64 0 true Sample.mislabelled =
    Resolved {| p_data := "data:image/png;base64,YWJj"; p_name := "p.png";
                p_type := "image/png"; p_size := 5; p_timestamp := 0 |} ∧
  String.length "data:image/png;base64,YWJj" = 26%nat.
Proof.
  split; [reflexivity|].
  exact (convertPhotoToBase64_data_length 0 Sample.mislabelled _ eq_refl).
Defined.

(** X27. Nothing of a file is lost in the photo stored for it: two files
    read into photos of the same type and the same data URL have the same
    bytes. *)
Theorem convertPhotoToBase64_lossless (now now' : Z) (file file' : File)
    (photo photo' : Photo) :
  convertPhotoToBase64 now true file = Resolved photo →
  convertPhotoToBase64 now' true file' = Resolved photo' →
  p_type photo = p_type photo' →
  p_data photo = p_data photo' →
  f_content file = f_content file'.
Proof.
  intros [= <-] [= <-]. cbn [p_type p_data]. unfold readAsDataURL.
  intros -> Heq. apply base64_inj. revert Heq.
  generalize (base64 (f_content file)) (base64 (f_content file')).
  intros u v Heq.
  apply (inj (String.app "data:")) in Heq.
  apply (inj (String.app (f_type file'))) in Heq.
  by apply (inj (String.app ";base64,")) in Heq.
Qed.

Lemma convertPhotoToBase64_lossless_sample :
  let renamed :=
    {| f_name := "q.png"; f_type := "image/png"; f_size := 3;
       f_content := "abc" |} in
  let stored name size now :=
    {| p_data := "data:image/png;base64,YWJj"; p_name := name;
       p_type := "image/png"; p_size := size; p_timestamp := now |} in
  (convertPhotoToBase64 0 true Sample.mislabelled = Resolved (stored "p.png" 5 0) ∧
   convertPhotoToBase64 7 true renamed = Resolved (stored "q.png" 3 7)) ∧
  f_content Sample.mislabelled = f_content renamed.
Proof.
  intros renamed stored. split; [by split|].
  exact (convertPhotoToBase64_lossless 0 7 Sample.mislabelled renamed
           (stored "p.png" 5 0) (stored "q.png" 3 7)
           eq_refl eq_refl eq_refl eq_refl).
Defined.
End base64_facts.

(** ** Files handed to the share sheet *)

Section share_files.
Implicit Types (host : ShareHost) (photos : list Photo) (files : list File).

(** X28. When the photos of an entry are read back for the share sheet, there
    is one file for each photo, and every file has a name, a media type and
    the size of the bytes that were fetched. *)
Theorem convertPhotosToFiles_well_formed host photos files :
  convertPhotosToFiles host photos = Resolved files →
  length files = length photos ∧ Forall well_formed_file files.
Proof.
  unfold convertPhotosToFiles. intros Hall.
  apply Promise_all_resolved in Hall. split.
  - by rewrite <- (length_fmap Resolved files), <- Hall, length_imap.
  - apply Forall_lookup_2. intros i file Hfile.
    assert ((Resolved <$> files) !! i = Some (Resolved file)) as Hi
      by by rewrite list_lookup_fmap, Hfile.
    rewrite <- Hall, list_lookup_imap in Hi.
    destruct (photos !! i) as [photo|]; [|done].
    injection Hi as Hi.
    destruct (host_fetch host (p_data photo)) as [bytes|]; [|done].
    injection Hi as <-. repeat split; cbn.
    + by destruct (p_name photo).
    + by destruct (p_type photo).
Qed.

Lemma convertPhotosToFiles_well_formed_sample :
  let unnamed :=
    {| p_data := "data:image/png;base64,YWJj"; p_name := ""; p_type := "";
       p_size := 3; p_timestamp := 0 |} in
  let files :=
    [ {| f_name := "p.png"; f_type := "image/png"; f_size := 3;
         f_content := "abc" |};
      {| f_name := "photo-2.jpg"; f_type := "image/jpeg"; f_size := 3;
         f_content := "abc" |} ] in
  convertPhotosToFiles Scene.share_sheet_closed [Scene.photo; unnamed] =
    Resolved files ∧
  length files = 2%nat ∧ Forall well_formed_file files.
Proof.
  intros unnamed files. split; [reflexivity|].
  exact (convertPhotosToFiles_well_formed Scene.share_sheet_closed
           [Scene.photo; unnamed] files eq_refl).
Defined.
End share_files.

(** ** The storage display without a quota *)

Section zero_quota.
Context `{Runtime}.

Lemma Number_of_Z_255 : Number_of_Z 255 = S754_finite false 8972014882652160 (-45).
Proof. by vm_compute. Qed.

(** X29.  With a quota of zero bytes the division is by zero.  When some
    bytes are in use the percentage is [Infinity]: the text says so, the
    width of the bar is that of 100, and the colours are written as
    [rgba(Infinity, -Infinity, 0, ...)].  When nothing is in use the
    percentage is [NaN], in the text, the width and the colours alike. *)
Theorem updateStorageInfo_zero_quota (navigator : Navigator) (ui : StorageUI)
    (est : StorageEstimate) :
  quota est = 0 → 0 ≤ usage est < 2 ^ 64 →
  getStorageEstimate navigator = Resolved (Some est) →
  updateStorageInfo navigator ui =
    if decide (usage est = 0) then
      {| storageText_textContent := "Using 0.00 MB of 0.00 MB (NaN%)";
         storageProgress_width := "NaN%";
         storageInfo_backgroundColor := "rgba(NaN, NaN, 0, 0.3)";
         storageProgress_backgroundColor := "rgba(NaN, NaN, 0, 0.6)" |}
    else
      {| storageText_textContent :=
           "Using " +:+
           Number_prototype_toFixed 2 (Number_of_Z (usage est) / MiB)%Number +:+
           " MB of 0.00 MB (Infinity%)";
         storageProgress_width := Number_text (Number_of_Z 100) +:+ "%";
         storageInfo_backgroundColor := "rgba(Infinity, -Infinity, 0, 0.3)";
         storageProgress_backgroundColor := "rgba(Infinity, -Infinity, 0, 0.6)" |}.
Proof.
  intros Hq Hu Hest. rewrite (updateStorageInfo_estimate _ _ _ Hest).
  unfold rgba, red, green, progress_width, percentage. rewrite Hq.
  rewrite Number_of_Z_100, Number_of_Z_255.
  change (Number_of_Z 0) with (S754_zero false).
  destruct (decide (usage est = 0)) as [->|Hne].
  - reflexivity.
  - destruct (Number_of_Z_finite (usage est)) as (m & e & ->).
    { split; [lia|]. apply Z.lt_trans with (2 ^ 64); [lia|done]. }
    reflexivity.
Qed.

End zero_quota.

Lemma updateStorageInfo_zero_quota_sample :
  let est := {| usage := 5 * 1024 * 1024; quota := 0 |} in
  (quota est = 0 ∧ 0 ≤ usage est < 2 ^ 64 ∧
   getStorageEstimate (Sample.reporting est) = Resolved (Some est)) ∧
  @updateStorageInfo Sample.engine (Sample.reporting est) Sample.blank_ui =
    {| storageText_textContent := "Using 5.00 MB of 0.00 MB (Infinity%)";
       storageProgress_width := "100%";
       storageInfo_backgroundColor := "rgba(Infinity, -Infinity, 0, 0.3)";
       storageProgress_backgroundColor := "rgba(Infinity, -Infinity, 0, 0.6)" |}.
Proof.
  intros est.
  assert (quota est = 0) as Hq by reflexivity.
  assert (0 ≤ usage est < 2 ^ 64) as Hu by (simpl; lia).
  assert (getStorageEstimate (Sample.reporting est) = Resolved (Some est)) as He
    by reflexivity.
  split; [done|].
  exact (@updateStorageInfo_zero_quota Sample.engine
           (Sample.reporting est) Sample.blank_ui est Hq Hu He).
Defined.

(** ** The storage display within the quota *)

Section within_quota.
Implicit Types (est : StorageEstimate).

Lemma Number_of_Z_100_value : (Number_value (Number_of_Z 100) == 100)%Q.
Proof. by vm_compute. Qed.

(** The used share times 100, for a usage that is not above the quota: the
    three roundings move it by less than one part in 2^50. *)
Lemma used_share_value (u q : Z) :
  0 < u ≤ q → q < 2 ^ 64 →
  let x := (Number_of_Z u / Number_of_Z q * Number_of_Z 100)%Number in
  normal (-400) 400 x ∧ (Number_value x <= 10001 # 100)%Q.
Proof.
  intros Hu Hq x. subst x.
  destruct (Number_of_Z_normal u) as (Ha & Ha1 & _); [lia|].
  destruct (Number_of_Z_normal q) as (Hb & _ & Hb2); [lia|].
  destruct (SFdiv_value _ _ _ _ _ _ Ha Hb) as (Hy & Hy1); [lia..|].
  assert (normal (-46) (-46) (Number_of_Z 100)) as Hc
    by (rewrite Number_of_Z_100; cbn [normal]; lia).
  destruct (SFmul_value _ _ _ _ _ _ Hy Hc) as (Hx & Hx1); [lia..|].
  split.
  { destruct (_ * _)%Number as [| | |[] m e]; try done. cbn [normal] in *. lia. }
  rewrite Number_of_Z_100_value in Hx1.
  pose proof (normal_value _ _ _ Hb) as Hbpos.
  assert (inject_Z u <= inject_Z q)%Q as Hle by (rewrite <- Zle_Qle; lia).
  revert Ha1 Hb2 Hy1 Hx1 Hbpos Hle.
  generalize (Number_value (Number_of_Z u / Number_of_Z q * Number_of_Z 100)%Number)
             (Number_value (Number_of_Z u / Number_of_Z q)%Number)
             (Number_value (Number_of_Z u)) (Number_value (Number_of_Z q))
             (inject_Z u) (inject_Z q).
  intros vx vy va vb iu iq Ha1 Hb2 Hy1 Hx1 Hbpos Hle.
  assert (vy <= 100001 # 100000)%Q as Hvy.
  { apply (Qmult_le_r _ _ vb); [done|]. lra. }
  lra.
Qed.

(** Within the quota the percentage is a number of tenths, at most 1000 of
    them. *)
Lemma percentage_tenths est :
  0 ≤ usage est ≤ quota est → 0 < quota est < 2 ^ 64 →
  ∃ n, 0 ≤ n ≤ 1000 ∧ percentage est = tenths n.
Proof.
  intros Hu Hq. unfold percentage.
  destruct (decide (usage est = 0)) as [->|Hne].
  - exists 0. split; [lia|].
    destruct (Number_of_Z_finite (quota est)) as (q & k & ->).
    { split; [lia|]. apply Z.lt_trans with (2 ^ 64); [lia|done]. }
    by rewrite Number_of_Z_100.
  - destruct (used_share_value (usage est) (quota est)) as (Hx & Hv); [lia..|].
    pose proof (normal_value _ _ _ Hx) as Hpos.
    revert Hx Hv Hpos.
    generalize (Number_of_Z (usage est) / Number_of_Z (quota est) * Number_of_Z 100)%Number.
    intros x Hx Hv Hpos.
    destruct x as [| | |[] m e]; try done. unfold Number_of_toFixed.
    revert Hv Hpos. generalize (Number_value (S754_finite false m e)). intros v Hv Hpos.
    assert (Qabs v == v)%Q as Habs by (apply Qabs_pos; lra).
    destruct (Qle_bool (10 ^ 21) (Qabs v)) eqn:Ebig.
    { apply Qle_bool_iff in Ebig. rewrite Habs in Ebig.
      change (10 ^ 21)%Q with (1000000000000000000000%Q) in Ebig. lra. }
    assert (0 ≤ toFixed_digits 1 v ≤ 1000) as Hn.
    { unfold toFixed_digits. change (inject_Z (10 ^ Z.of_nat 1)) with 10%Q.
      split.
      - change 0 with (Qfloor 0). apply Qfloor_resp_le. rewrite Habs. lra.
      - apply Z.lt_succ_r. rewrite Zlt_Qlt.
        eapply Qle_lt_trans; [apply Qfloor_le|]. rewrite Habs.
        change (inject_Z (Z.succ 1000)) with 1001%Q. lra. }
    exists (toFixed_digits 1 v). split; [done|].
    destruct (toFixed_digits 1 v) as [|n|n]; [done|done|lia].
Qed.

Lemma in_range_at_all (n : Z) : 0 ≤ n ≤ 1000 → in_range_at n = true.
Proof.
  intros Hn.
  assert (forallb in_range_at (Z.of_nat <$> seq 0 1001) = true) as Hall
    by (by vm_compute).
  rewrite forallb_forall in Hall. apply Hall.
  apply list_elem_of_In, list_elem_of_fmap. exists (Z.to_nat n).
  split; [lia|]. apply elem_of_seq. lia.
Qed.
End within_quota.

(** X23.  While the usage is not above the quota (byte counts, the quota
    positive), nothing in [updateStorageInfo] is out of range: the
    percentage is a number of tenths that is at most 100, the width of the
    progress bar is the percentage itself, and the red and the green
    component of the colours are both between 0 and 255.  The roundings of
    the quotient and of the product with 100 do not carry the percentage
    above 100. *)
Theorem within_quota_in_range (est : StorageEstimate) :
  0 ≤ usage est ≤ quota est → 0 < quota est < 2 ^ 64 →
  (∃ n, 0 ≤ n ≤ 1000 ∧ percentage est = tenths n) ∧
  SFleb (percentage est) (Number_of_Z 100) = true ∧
  progress_width est = percentage est ∧
  (SFleb (Number_of_Z 0) (red est) = true ∧
   SFleb (red est) (Number_of_Z 255) = true) ∧
  (SFleb (Number_of_Z 0) (green est) = true ∧
   SFleb (green est) (Number_of_Z 255) = true).
Proof.
  intros Hu Hq.
  destruct (percentage_tenths est Hu Hq) as (n & Hn & Hp).
  pose proof (in_range_at_all n Hn) as Hcheck.
  unfold in_range_at in Hcheck. cbv zeta in Hcheck.
  rewrite !andb_true_iff in Hcheck.
  destruct Hcheck as ((((Hle & Hr0) & Hr1) & Hg0) & Hg1).
  split; [by exists n|].
  unfold red, green. rewrite Hp.
  split; [done|]. split; [|done].
  assert (signed false (percentage est)) as Hsigned.
  { apply percentage_signed; [lia|]. split; [lia|].
    apply Z.lt_trans with (2 ^ 64); [lia|done]. }
  rewrite Hp in Hsigned.
  unfold progress_width. rewrite Hp. revert Hle. rewrite Number_of_Z_100.
  intros Hle.
  by apply (Math_min_finite (tenths n) 7036874417766400 (-46) Hsigned).
Qed.

Lemma within_quota_in_range_sample :
  let est := {| usage := 23 * 1024 * 1024; quota := 80 * 1024 * 1024 |} in
  (0 ≤ usage est ≤ quota est ∧ 0 < quota est < 2 ^ 64) ∧
  (∃ n, 0 ≤ n ≤ 1000 ∧ percentage est = tenths n) ∧
  SFleb (percentage est) (Number_of_Z 100) = true ∧
  progress_width est = percentage est ∧
  (SFleb (Number_of_Z 0) (red est) = true ∧
   SFleb (red est) (Number_of_Z 255) = true) ∧
  (SFleb (Number_of_Z 0) (green est) = true ∧
   SFleb (green est) (Number_of_Z 255) = true).
Proof.
  intros est.
  assert (0 ≤ usage est ≤ quota est) as Hu by (simpl; lia).
  assert (0 < quota est < 2 ^ 64) as Hq by (simpl; lia).
  split; [done|].
  exact (within_quota_in_range est Hu Hq).
Defined.
